(** * PES League: scheduling, draw and standings engine

    A shallow embedding of the algorithmic core of the league application
    (src/app/dashboard/page.tsx and the fixtures library, lib/fixtures.ts)
    together with the properties its specification states.

    Conventions of the embedding.
    - JavaScript numbers that hold scores, counters and round numbers are
      integers ([Z]); indices and lengths are [nat].
    - [string | null] is [option string]; truthiness of such a value is
      [truthy] below (null and the empty string are falsy).
    - A string is the list of the bytes of its UTF-8 encoding, so that a
      character outside ASCII is two or three bytes of the list.
    - The remote record store is a list of rows; a call to it is assumed to
      succeed (its error branches only set a message and return). The one
      error branch that is modelled is that of [saveMatchResult], for a
      score that the score columns cannot hold.
    - React state read or written by a handler is a field of a state record
      that the handler transforms.
    - Functions keep their names; the fields of the row types carry a
      short prefix ([p_email], [tt_team_id], [m_played_at], ...) because
      several row types share field names. *)

From stdpp Require Import gmap strings list sorting pretty.
From Stdlib Require Import ZArith Lia Ascii.

Local Open Scope string_scope.
Local Open Scope list_scope.
Local Open Scope Z_scope.

(** ** Language built-ins used by the code *)

Module JS.

(** Truthiness of a [string | null] value. *)
Definition truthy (v : option string) : bool :=
  match v with
  | None => false
  | Some s => negb (String.eqb s "")
  end.

(** Truthiness of a plain string. *)
Definition nonempty (s : string) : bool := negb (String.eqb s "").

(** [v ?? ""] *)
Definition or_empty (v : option string) : string := default "" v.

(** White space removed by [String.prototype.trim] and skipped by
    [Number]: the characters WhiteSpace and LineTerminator of the
    language. Those of one byte are TAB, LF, VT, FF, CR and SPACE. *)
Definition is_ws (c : ascii) : bool :=
  match nat_of_ascii c with
  | 9%nat | 10%nat | 11%nat | 12%nat | 13%nat | 32%nat => true
  | _ => false
  end.

(** Of two bytes: U+00A0, the no-break space (C2 A0). *)
Definition is_ws2 (a b : ascii) : bool :=
  ((N_of_ascii a =? 194) && (N_of_ascii b =? 160))%N.

(** Of three bytes: U+1680 (E1 9A 80), U+2000 to U+200A (E2 80 80 to
    E2 80 8A), the line and paragraph separators U+2028 and U+2029
    (E2 80 A8, E2 80 A9), U+202F (E2 80 AF), U+205F (E2 81 9F), U+3000
    (E3 80 80) and the byte order mark U+FEFF (EF BB BF). *)
Definition is_ws3 (a b c : ascii) : bool :=
  let a := N_of_ascii a in
  let b := N_of_ascii b in
  let c := N_of_ascii c in
  ((a =? 225) && (b =? 154) && (c =? 128)
   || (a =? 226) && (b =? 128)
      && ((128 <=? c) && (c <=? 138) || (c =? 168) || (c =? 169)
          || (c =? 175))
   || (a =? 226) && (b =? 129) && (c =? 159)
   || (a =? 227) && (b =? 128) && (c =? 128)
   || (a =? 239) && (b =? 187) && (c =? 191))%N.

(** The white space at the front of a string is dropped. *)
Fixpoint drop_ws (l : list ascii) : list ascii :=
  match l with
  | [] => []
  | a :: l1 =>
      if is_ws a then drop_ws l1
      else
        match l1 with
        | [] => l
        | b :: l2 =>
            if is_ws2 a b then drop_ws l2
            else
              match l2 with
              | [] => l
              | c :: l3 => if is_ws3 a b c then drop_ws l3 else l
              end
        end
  end.

(** The same for a string that is read from its end: [r] holds the
    bytes in reverse, so a character [a b c] is met as [c], [b], [a]. *)
Fixpoint drop_ws_end (r : list ascii) : list ascii :=
  match r with
  | [] => []
  | c :: r1 =>
      if is_ws c then drop_ws_end r1
      else
        match r1 with
        | [] => r
        | b :: r2 =>
            if is_ws2 b c then drop_ws_end r2
            else
              match r2 with
              | [] => r
              | a :: r3 => if is_ws3 a b c then drop_ws_end r3 else r
              end
        end
  end.

Definition trim (s : string) : string :=
  String.string_of_list_ascii
    (rev (drop_ws_end (rev (drop_ws (String.list_ascii_of_string s))))).

(** [new Set(arr)] followed by iteration: a set remembers the order in
    which its elements were first added. *)
Definition Set_add (seen : list string) (x : string) : list string :=
  if bool_decide (x ∈ seen) then seen else seen ++ [x].

Definition Set_from (arr : list string) : list string :=
  foldl Set_add [] arr.

(** [Array.prototype.sort(cmp)]: the language requires the sort to be
    stable, and for a comparator that is a total preorder that fixes the
    result. It is modelled by a stable insertion sort driven by the sign
    of the comparator: [x], which was in front of every element of [l],
    moves behind [y] only when [cmp x y > 0]. *)
Section Sort.
Context {A : Type} (cmp : A → A → Z).

Fixpoint sort_insert (x : A) (l : list A) : list A :=
  match l with
  | [] => [x]
  | y :: l' => if 0 <? cmp x y then y :: sort_insert x l' else x :: l
  end.

Definition sort (l : list A) : list A := foldr sort_insert [] l.
End Sort.

(** [Map<string, V>]: iteration follows insertion order, so the map is
    an association list. [Map_set] overwrites in place or appends;
    [Map_modify] stands for a field update made through the object that
    [get] returned, which every holder of that object sees. *)
Section Map.
Context {V : Type}.

Fixpoint Map_get (m : list (string * V)) (k : string) : option V :=
  match m with
  | [] => None
  | (k', v) :: m' => if String.eqb k' k then Some v else Map_get m' k
  end.

Fixpoint Map_set (m : list (string * V)) (k : string) (v : V)
  : list (string * V) :=
  match m with
  | [] => [(k, v)]
  | (k', v') :: m' =>
      if String.eqb k' k then (k', v) :: m' else (k', v') :: Map_set m' k v
  end.

Fixpoint Map_modify (f : V → V) (k : string) (m : list (string * V))
  : list (string * V) :=
  match m with
  | [] => []
  | (k', v) :: m' =>
      if String.eqb k' k then (k', f v) :: m' else (k', v) :: Map_modify f k m'
  end.

Definition Map_values (m : list (string * V)) : list V := map snd m.
End Map.

(** Numbers that come out of [Number(string)]: [NaN], an integer, a
    number [m / 10^k] that is not an integer, or an infinity. The value
    of a literal is kept exactly: the rounding to the nearest double,
    which leaves every integer below 2^53 in absolute value as it is, is
    not modelled, and neither is the sign of zero, which no operation of
    the program tells apart. *)
Inductive num :=
| NaN
| Num (z : Z)
| Frac (m : Z) (k : positive)
| Infinity (negative : bool).

Definition digit_of (c : ascii) : option Z :=
  let n := nat_of_ascii c in
  if (48 <=? n)%nat && (n <=? 57)%nat then Some (Z.of_nat (n - 48)) else None.

Fixpoint digits (acc : Z) (l : list ascii) : option Z :=
  match l with
  | [] => Some acc
  | c :: l' =>
      match digit_of c with
      | Some d => digits (10 * acc + d) l'
      | None => None
      end
  end.

(** DecimalDigits that make up the whole of [l]. *)
Definition unsigned (l : list ascii) : option Z :=
  match l with
  | [] => None
  | _ => digits 0 l
  end.

(** DecimalDigits at the front of [l], as far as they go: the number
    read after [acc], how many digits were read after [n], and what
    follows them. *)
Fixpoint read_digits (acc : Z) (n : nat) (l : list ascii)
  : Z * nat * list ascii :=
  match l with
  | [] => (acc, n, [])
  | c :: l' =>
      match digit_of c with
      | Some d => read_digits (10 * acc + d) (S n) l'
      | None => (acc, n, l)
      end
  end.

(** An optional ExponentPart that ends the literal: [e] or [E] and a
    SignedInteger. *)
Definition exponent (l : list ascii) : option Z :=
  match l with
  | [] => Some 0
  | c :: l' =>
      if Ascii.eqb c "e" || Ascii.eqb c "E" then
        match l' with
        | [] => None
        | s :: l'' =>
            if Ascii.eqb s "-" then Z.opp <$> unsigned l''
            else if Ascii.eqb s "+" then unsigned l''
            else unsigned l'
        end
      else None
  end.

(** StrUnsignedDecimalLiteral other than [Infinity]: digits, a point
    followed by digits, or digits around a point, and then the exponent.
    At least one digit stands before the exponent. The literal denotes
    [m * 10^e] for the result [(m, e)]. *)
Definition unsigned_decimal (l : list ascii) : option (Z * Z) :=
  let '(i, ni, rest) := read_digits 0 0 l in
  match rest with
  | c :: rest' =>
      if Ascii.eqb c "." then
        let '(m, nf, rest'') := read_digits i 0 rest' in
        if (ni + nf =? 0)%nat then None
        else e ← exponent rest''; Some (m, e - Z.of_nat nf)
      else if (ni =? 0)%nat then None
      else e ← exponent rest; Some (i, e)
  | [] => if (ni =? 0)%nat then None else Some (i, 0)
  end.

(** The number [m * 10^e]. *)
Definition of_decimal (m e : Z) : num :=
  if 0 <=? e then Num (m * 10 ^ e)
  else if m mod 10 ^ (- e) =? 0 then Num (m / 10 ^ (- e))
  else Frac m (Z.to_pos (- e)).

(** StrDecimalLiteral: an optional sign, then [Infinity] or an unsigned
    decimal literal. *)
Definition decimal_literal (l : list ascii) : num :=
  let '(negative, body) :=
    match l with
    | c :: l' =>
        if Ascii.eqb c "-" then (true, l')
        else if Ascii.eqb c "+" then (false, l')
        else (false, l)
    | [] => (false, l)
    end in
  if String.eqb (String.string_of_list_ascii body) "Infinity"
  then Infinity negative
  else
    match unsigned_decimal body with
    | Some (m, e) => of_decimal (if negative then - m else m) e
    | None => NaN
    end.

(** A hexadecimal digit: [0] to [9], [a] to [f] or [A] to [F]. *)
Definition hex_digit_of (c : ascii) : option Z :=
  let n := Z.of_N (N_of_ascii c) in
  if (48 <=? n) && (n <=? 57) then Some (n - 48)
  else if (97 <=? n) && (n <=? 102) then Some (n - 87)
  else if (65 <=? n) && (n <=? 70) then Some (n - 55)
  else None.

(** A digit of a literal in base [radix], which is 2, 8 or 16. *)
Definition radix_digit_of (radix : Z) (c : ascii) : option Z :=
  d ← hex_digit_of c; if d <? radix then Some d else None.

Fixpoint radix_digits (radix acc : Z) (l : list ascii) : option Z :=
  match l with
  | [] => Some acc
  | c :: l' =>
      match radix_digit_of radix c with
      | Some d => radix_digits radix (radix * acc + d) l'
      | None => None
      end
  end.

(** NonDecimalIntegerLiteral: [0x], [0o] or [0b], in either case,
    followed by at least one digit of that base; it takes no sign. *)
Definition non_decimal (l : list ascii) : option Z :=
  match l with
  | z :: p :: d :: l' =>
      if Ascii.eqb z "0" then
        if Ascii.eqb p "x" || Ascii.eqb p "X" then radix_digits 16 0 (d :: l')
        else if Ascii.eqb p "o" || Ascii.eqb p "O"
             then radix_digits 8 0 (d :: l')
        else if Ascii.eqb p "b" || Ascii.eqb p "B"
             then radix_digits 2 0 (d :: l')
        else None
      else None
  | _ => None
  end.

(** [Number(s)]: the white space around [s] is skipped; what is left is
    empty, which converts to 0, or a StrNumericLiteral, or else converts
    to [NaN]. *)
Definition Number (s : string) : num :=
  match String.list_ascii_of_string (trim s) with
  | [] => Num 0
  | l =>
      match non_decimal l with
      | Some z => Num z
      | None => decimal_literal l
      end
  end.

(** [String(c)] for an integer [c]. *)
Definition String_of (c : Z) : string := pretty c.

End JS.

(** ** lib/fixtures.ts *)

Module Fixtures.
Import JS.

Inductive Source := manual | auto_reverse.

(** One element of the [drafts] argument. The declared field type is
    [string]; the code still guards against null with [??]. *)
Record Draft := {
  d_match_number : Z;
  d_home_team_id : option string;
  d_away_team_id : option string;
}.

(** An element of [cleaned]. *)
Record Cleaned := {
  match_number : Z;
  home_team_id : string;
  away_team_id : string;
}.

(** A row of the [fixtures] table as the code inserts it; [id] and
    [created_at] are filled in by the store. *)
Record FixtureRow := {
  f_tournament_id : string;
  f_round_number : Z;
  f_match_number : Z;
  f_home_team_id : option string;
  f_away_team_id : option string;
  f_is_bye : bool;
  f_source : Source;
}.

(** The three [throw new Error(...)] of the function:
    - "Popuni oba tima za mec N."                  (incomplete pairing)
    - "Ne moze isti tim vs isti tim (mec N)."      (self-pairing)
    - "Isti tim je upisan vise puta u Kolu 1. ..." (duplicate team usage) *)
Inductive Error :=
| IncompletePairing (match_no : Z)
| SelfPairing (match_no : Z)
| DuplicateTeamUsage.

Definition uniq (arr : list string) : list string := Set_from arr.

Definition clean (d : Draft) : Cleaned :=
  {| match_number := d_match_number d;
     home_team_id := trim (or_empty (d_home_team_id d));
     away_team_id := trim (or_empty (d_away_team_id d)) |}.

(** The [for (const d of cleaned)] loop; [Some e] is the first throw. *)
Fixpoint validate (cleaned : list Cleaned) : option Error :=
  match cleaned with
  | [] => None
  | d :: rest =>
      if negb (nonempty (home_team_id d)) || negb (nonempty (away_team_id d))
      then Some (IncompletePairing (match_number d))
      else if String.eqb (home_team_id d) (away_team_id d)
      then Some (SelfPairing (match_number d))
      else validate rest
  end.

Definition used (cleaned : list Cleaned) : list string :=
  flat_map (λ d, [home_team_id d; away_team_id d]) cleaned.

Definition round1Rows (tournamentId : string) (cleaned : list Cleaned)
  : list FixtureRow :=
  map (λ d, {| f_tournament_id := tournamentId;
               f_round_number := 1;
               f_match_number := match_number d;
               f_home_team_id := Some (home_team_id d);
               f_away_team_id := Some (away_team_id d);
               f_is_bye := false;
               f_source := manual |}) cleaned.

Definition round2Rows (tournamentId : string) (cleaned : list Cleaned)
  : list FixtureRow :=
  map (λ d, {| f_tournament_id := tournamentId;
               f_round_number := 2;
               f_match_number := match_number d;
               f_home_team_id := Some (away_team_id d);
               f_away_team_id := Some (home_team_id d);
               f_is_bye := false;
               f_source := auto_reverse |}) cleaned.

(** [supabase.from("fixtures").delete().eq("tournament_id", tournamentId)] *)
Definition delete_tournament (tournamentId : string) (db : list FixtureRow)
  : list FixtureRow :=
  filter (λ f, f_tournament_id f ≠ tournamentId) db.

(** The function, over the content [db] of the [fixtures] table. The
    result is the thrown error or the returned [true], and the table
    afterwards. *)
Definition saveRound1AndGenerateRound2
    (db : list FixtureRow) (tournamentId : string) (drafts : list Draft)
  : (Error + bool) * list FixtureRow :=
  let cleaned := map clean drafts in
  match validate cleaned with
  | Some e => (inl e, db)
  | None =>
      if negb (length (uniq (used cleaned)) =? length (used cleaned))%nat
      then (inl DuplicateTeamUsage, db)
      else
        let db1 := delete_tournament tournamentId db in
        (inr true,
         db1 ++ (round1Rows tournamentId cleaned
                 ++ round2Rows tournamentId cleaned))
  end.

End Fixtures.

(** ** app/dashboard/page.tsx *)

Module Dashboard.
Import JS.

(** *** Types *)

Record PlayerRow := {
  p_email : string;
  p_name : option string;
  p_role : string;
}.

Record TeamRow := {
  t_id : string;
  t_name : string;
  t_logo_url : option string;
}.

Record TournamentTeamRow := {
  tt_id : string;
  tt_tournament_id : string;
  tt_team_id : string;
}.

(** A row of [tournament_players] as the draw inserts it. *)
Record TournamentPlayerRow := {
  tp_tournament_id : string;
  tp_player_email : string;
  tp_team_id : string;
}.

Record MatchRow := {
  m_id : string;
  m_tournament_id : string;
  m_round : option Z;
  m_home_team_id : option string;
  m_away_team_id : option string;
  m_player1_email : option string;
  m_player2_email : option string;
  m_player1_score : option Z;
  m_player2_score : option Z;
  m_played_at : option string;
}.

Record StandingRow := {
  team_id : string;
  team_name : string;
  played : Z;
  wins : Z;
  draws : Z;
  losses : Z;
  gf : Z;
  ga : Z;
  gd : Z;
  pts : Z;
}.

(** *** Helpers *)

(** The body of the [for] loop of [shuffle] at index [i], with [j] the
    index that [Math.floor(Math.random() * (i + 1))] produced:
    [[a[i], a[j]] = [a[j], a[i]]]. *)
Definition swap {A} (a : list A) (i j : nat) : list A :=
  match a !! i, a !! j with
  | Some ai, Some aj => <[j := ai]> (<[i := aj]> a)
  | _, _ => a
  end.

(** [random i] is the index drawn at iteration [i]; as [Math.random()]
    is below 1 it is at most [i], and then both look-ups of [swap] are in
    range. *)
Fixpoint shuffle_loop {A} (random : nat → nat) (i : nat) (a : list A)
  : list A :=
  match i with
  | O => a
  | S i' => shuffle_loop random i' (swap a i (random i))
  end.

Definition shuffle {A} (random : nat → nat) (arr : list A) : list A :=
  shuffle_loop random (length arr - 1) arr.

Definition isAdmin (role : option string) : bool :=
  match role with
  | Some r => String.eqb r "admin"
  | None => false
  end.

Definition isPlayed (m : MatchRow) : bool := truthy (m_played_at m).

(** [Math.trunc(n)] *)
Definition trunc (m : Z) (k : positive) : Z := Z.quot m (10 ^ Z.pos k).

(** [Math.max(min, Math.min(max, Math.trunc(n)))], then [String(c)]. *)
Definition clampInt (v : string) (min max : Z) : string :=
  match Number v with
  | NaN => ""
  | Num n => String_of (Z.max min (Z.min max n))
  | Frac m k => String_of (Z.max min (Z.min max (trunc m k)))
  | Infinity negative => String_of (if negative then min else Z.max min max)
  end.

(** *** Roster lock and draw *)

(** The part of the component state and of the store that the roster
    gate and the draw read or write. [tournament_players] is the table;
    [tournamentPlayers] is the copy of it held by the page. *)
Record State := {
  role : option string;
  activeTournamentId : option string;
  players : list PlayerRow;
  tournamentTeams : list TournamentTeamRow;
  rosterLocked : bool;
  localStorage : gmap string string;
  inviteMsg : option string;
  tpMsg : option string;
  tournamentPlayers : list TournamentPlayerRow;
  tournament_players : list TournamentPlayerRow;
}.

Definition setRosterLocked (b : bool) (st : State) : State :=
  {| role := role st; activeTournamentId := activeTournamentId st;
     players := players st; tournamentTeams := tournamentTeams st;
     rosterLocked := b; localStorage := localStorage st;
     inviteMsg := inviteMsg st; tpMsg := tpMsg st;
     tournamentPlayers := tournamentPlayers st;
     tournament_players := tournament_players st |}.

Definition setLocalStorage (ls : gmap string string) (st : State) : State :=
  {| role := role st; activeTournamentId := activeTournamentId st;
     players := players st; tournamentTeams := tournamentTeams st;
     rosterLocked := rosterLocked st; localStorage := ls;
     inviteMsg := inviteMsg st; tpMsg := tpMsg st;
     tournamentPlayers := tournamentPlayers st;
     tournament_players := tournament_players st |}.

Definition setInviteMsg (msg : option string) (st : State) : State :=
  {| role := role st; activeTournamentId := activeTournamentId st;
     players := players st; tournamentTeams := tournamentTeams st;
     rosterLocked := rosterLocked st; localStorage := localStorage st;
     inviteMsg := msg; tpMsg := tpMsg st;
     tournamentPlayers := tournamentPlayers st;
     tournament_players := tournament_players st |}.

Definition setTpMsg (msg : option string) (st : State) : State :=
  {| role := role st; activeTournamentId := activeTournamentId st;
     players := players st; tournamentTeams := tournamentTeams st;
     rosterLocked := rosterLocked st; localStorage := localStorage st;
     inviteMsg := inviteMsg st; tpMsg := msg;
     tournamentPlayers := tournamentPlayers st;
     tournament_players := tournament_players st |}.

Definition setTournamentPlayers (l : list TournamentPlayerRow) (st : State)
  : State :=
  {| role := role st; activeTournamentId := activeTournamentId st;
     players := players st; tournamentTeams := tournamentTeams st;
     rosterLocked := rosterLocked st; localStorage := localStorage st;
     inviteMsg := inviteMsg st; tpMsg := tpMsg st;
     tournamentPlayers := l;
     tournament_players := tournament_players st |}.

(** Replaces the content of the [tournament_players] table. *)
Definition store_tournament_players (l : list TournamentPlayerRow)
    (st : State) : State :=
  {| role := role st; activeTournamentId := activeTournamentId st;
     players := players st; tournamentTeams := tournamentTeams st;
     rosterLocked := rosterLocked st; localStorage := localStorage st;
     inviteMsg := inviteMsg st; tpMsg := tpMsg st;
     tournamentPlayers := tournamentPlayers st;
     tournament_players := l |}.

Definition rosterKey (tournamentId : string) : string :=
  "rosterLocked:" +:+ tournamentId.

Definition onlyPlayers (ps : list PlayerRow) : list PlayerRow :=
  List.filter (λ p, String.eqb (p_role p) "player") ps.

Definition msg_roster_too_small : string :=
  "Greška: treba bar 2 igrača pre zaključavanja rostera.".
Definition msg_roster_locked : string :=
  "✅ Roster zaključan. Sledeće: Žreb.".
Definition msg_roster_unlocked : string := "Roster otključan.".
Definition msg_no_tournament : string := "Nema aktivnog turnira.".
Definition msg_roster_not_locked : string :=
  "Greška: prvo pošalji invite i zaključaj roster, tek onda Žreb.".
Definition msg_two_players : string := "Treba bar 2 igrača.".
Definition msg_not_enough_teams : string :=
  "Nema dovoljno timova u turniru (mora bar koliko i igrača).".
Definition msg_draw_done : string := "✅ Žreb završen.".

(** [confirm] is the answer of the [window.confirm] dialog. *)
Definition lockRoster (confirm : bool) (st : State) : State :=
  if negb (isAdmin (role st)) then st
  else if negb (truthy (activeTournamentId st)) then st
  else
    if (length (onlyPlayers (players st)) <? 2)%nat then
      setTpMsg (Some msg_roster_too_small) (setInviteMsg None st)
    else if negb confirm then st
    else
      let st := setLocalStorage
                  (<[rosterKey (or_empty (activeTournamentId st)) := "1"]>
                     (localStorage st)) st in
      let st := setRosterLocked true st in
      setTpMsg (Some msg_roster_locked) st.

Definition unlockRoster (confirm : bool) (st : State) : State :=
  if negb (isAdmin (role st)) then st
  else if negb (truthy (activeTournamentId st)) then st
  else if negb confirm then st
  else
    let st := setLocalStorage
                (delete (rosterKey (or_empty (activeTournamentId st)))
                   (localStorage st)) st in
    let st := setRosterLocked false st in
    setTpMsg (Some msg_roster_unlocked) st.

(** The effect that follows a change of [activeTournamentId]: the flag
    is read back from [localStorage]. *)
Definition syncRosterLocked (st : State) : State :=
  if negb (truthy (activeTournamentId st)) then setRosterLocked false st
  else
    setRosterLocked
      (bool_decide
         (localStorage st !! rosterKey (or_empty (activeTournamentId st))
          = Some "1")) st.

Definition loadTournamentPlayers (tournamentId : string) (st : State)
  : State :=
  let st := setTpMsg None st in
  setTournamentPlayers
    (List.filter (λ r, String.eqb (tp_tournament_id r) tournamentId)
       (tournament_players st)) st.

(** Step 2 of the draw: the rows that are inserted. [slice(0, k)] is
    [take k]; [shuffledTeams[idx]] is in range because the player list
    was cut to the length of [shuffledTeams]. *)
Definition draw_rows (random : nat → nat) (tournamentId : string)
    (ps : list PlayerRow) (teams : list TournamentTeamRow)
  : list TournamentPlayerRow :=
  let shuffledTeams := take (length ps) (shuffle random teams) in
  flat_map
    (λ '(idx, p),
       match shuffledTeams !! idx with
       | Some t => [ {| tp_tournament_id := tournamentId;
                        tp_player_email := p_email p;
                        tp_team_id := tt_team_id t |} ]
       | None => []
       end)
    (imap (λ idx p, (idx, p)) (take (length shuffledTeams) ps)).

Definition drawTeamsForTournament (random : nat → nat) (st : State) : State :=
  if negb (isAdmin (role st)) then st
  else if negb (truthy (activeTournamentId st)) then
    setTpMsg (Some msg_no_tournament) st
  else if negb (rosterLocked st) then
    setTpMsg (Some msg_roster_not_locked) st
  else
    let tid := or_empty (activeTournamentId st) in
    let ps := onlyPlayers (players st) in
    if (length ps <? 2)%nat then setTpMsg (Some msg_two_players) st
    else if (length (tournamentTeams st) <? length ps)%nat then
      setTpMsg (Some msg_not_enough_teams) st
    else
      let st := setTpMsg None st in
      let st := store_tournament_players
                  (List.filter
                     (λ r, negb (String.eqb (tp_tournament_id r) tid))
                     (tournament_players st)) st in
      let rows := draw_rows random tid ps (tournamentTeams st) in
      let st := store_tournament_players (tournament_players st ++ rows) st in
      let st := setTpMsg (Some msg_draw_done) st in
      loadTournamentPlayers tid st.

(** *** Schedule generation (round robin) *)

(** A row of [matches] as [generateSchedule] inserts it. *)
Record ScheduleRow := {
  s_tournament_id : string;
  s_round : Z;
  s_home_team_id : option string;
  s_away_team_id : option string;
}.

Definition BYE : string := "__BYE__".

(** The body of the inner loop for one [i]: the rows it pushes. Both
    look-ups are in range because [i < half = n / 2] and [n] is the
    length of [arr]. *)
Definition pair_rows (tournamentId : string) (n : nat) (arr : list string)
    (r i : nat) : list ScheduleRow :=
  match arr !! i, arr !! (n - 1 - i)%nat with
  | Some t1, Some t2 =>
      if String.eqb t1 BYE || String.eqb t2 BYE then []
      else
        let home := if (r mod 2 =? 1)%nat then t1 else t2 in
        let away := if (r mod 2 =? 1)%nat then t2 else t1 in
        [ {| s_tournament_id := tournamentId;
             s_round := Z.of_nat r;
             s_home_team_id := Some home;
             s_away_team_id := Some away |} ]
  | _, _ => []
  end.

(** The inner loop: [for (let i = 0; i < half; i++)]. *)
Definition round_rows (tournamentId : string) (n half : nat)
    (arr : list string) (r : nat) : list ScheduleRow :=
  flat_map (pair_rows tournamentId n arr r) (seq 0 half).

(** The end of the body of the outer loop:
    [fixed = arr[0]; rest = arr.slice(1); rest.unshift(rest.pop());
     arr = [fixed, ...rest]]. [arr] has at least two elements. *)
Definition rotate (arr : list string) : list string :=
  match arr with
  | [] => []
  | fixed :: rest =>
      match last rest with
      | Some x => fixed :: x :: removelast rest
      | None => [fixed]
      end
  end.

(** The outer loop, [for (let r = 1; r <= rounds; r++)], with [todo]
    iterations left, [r] the current round, and the loop state
    ([arr], [rows]). *)
Fixpoint rounds_loop (tournamentId : string) (n half : nat)
    (todo r : nat) (arr : list string) (rows : list ScheduleRow)
  : list ScheduleRow :=
  match todo with
  | O => rows
  | S todo' =>
      rounds_loop tournamentId n half todo' (S r) (rotate arr)
        (rows ++ round_rows tournamentId n half arr r)
  end.

(** [teamIds] after the bye marker has been appended to an odd list. *)
Definition with_bye (teamIds : list string) : list string :=
  if (length teamIds mod 2 =? 1)%nat then teamIds ++ [BYE] else teamIds.

Definition first_leg (tournamentId : string) (teamIds : list string)
  : list ScheduleRow :=
  let teamIds := with_bye teamIds in
  let n := length teamIds in
  let rounds := (n - 1)%nat in
  let half := (n / 2)%nat in
  rounds_loop tournamentId n half rounds 1%nat teamIds [].

Definition secondLeg (offset : Z) (rows : list ScheduleRow)
  : list ScheduleRow :=
  map (λ m, {| s_tournament_id := s_tournament_id m;
               s_round := s_round m + offset;
               s_home_team_id := s_away_team_id m;
               s_away_team_id := s_home_team_id m |}) rows.

(** From [const BYE] to the insert: the rows that are written. *)
Definition schedule_rows (tournamentId : string) (doubleRoundRobin : bool)
    (teamIds : list string) : list ScheduleRow :=
  let rows := first_leg tournamentId teamIds in
  if doubleRoundRobin then
    let offset := Z.of_nat (length (with_bye teamIds) - 1) in
    rows ++ secondLeg offset rows
  else rows.

Definition msg_two_teams : string := "Treba bar 2 tima u turniru.".
Definition msg_matches_exist : string :=
  "Mečevi već postoje. (Ako hoćeš ponovo, uradi Reset schedule)".
Definition msg_schedule_done (doubleRoundRobin : bool) : string :=
  "✅ Schedule generisan (LEGACY)"
  +:+ (if doubleRoundRobin then " (2x home/away)" else "") +:+ ".".

(** [loadMatches] begins with [setMMsg(null)]: a message that a handler
    sets before it reloads the matches is not the one shown afterwards. *)
Definition loadMatches_msg (mMsg : option string) : option string := None.

(** The handler. [teamsData] holds the [team_id] column of the
    tournament's [tournament_teams] rows and [count] the number of its
    [matches] rows; the result is the message shown when the handler
    returns and the rows inserted. *)
Definition generateSchedule (role activeTournamentId : option string)
    (doubleRoundRobin : bool) (teamsData : list string) (count : Z)
  : option string * list ScheduleRow :=
  if negb (isAdmin role) then (None, [])
  else if negb (truthy activeTournamentId) then (Some msg_no_tournament, [])
  else
    let teamIds := List.filter nonempty teamsData in
    if (length teamIds <? 2)%nat then (Some msg_two_teams, [])
    else if 0 <? count then (loadMatches_msg (Some msg_matches_exist), [])
    else
      (loadMatches_msg (Some (msg_schedule_done doubleRoundRobin)),
       schedule_rows (or_empty activeTournamentId) doubleRoundRobin teamIds).

(** *** Match result *)

Definition msg_enter_numbers : string :=
  "Unesi oba rezultata kao brojeve (npr 2 i 1).".

(** [hg] and [ag]: [null] for a blank field, else [Number(field)]. *)
Definition parse_goals (field : string) : option num :=
  if String.eqb (trim field) "" then None else Some (Number field).

Definition set_result (hg ag : Z) (now : string) (m : MatchRow) : MatchRow :=
  {| m_id := m_id m; m_tournament_id := m_tournament_id m;
     m_round := m_round m;
     m_home_team_id := m_home_team_id m; m_away_team_id := m_away_team_id m;
     m_player1_email := m_player1_email m;
     m_player2_email := m_player2_email m;
     m_player1_score := Some hg; m_player2_score := Some ag;
     m_played_at := Some now |}.

(** [update({...}).eq("id", matchId)] *)
Definition update_result (matchId : string) (hg ag : Z) (now : string)
    (matches : list MatchRow) : list MatchRow :=
  map (λ m, if String.eqb (m_id m) matchId then set_result hg ag now m else m)
    matches.

(** ["Greška pri čuvanju rezultata: " + error.message]; the text of the
    store's error is not modelled. *)
Definition msg_save_failed : string := "Greška pri čuvanju rezultata: ".

(** The handler, over the [matches] table; [now] is
    [new Date().toISOString()]. The result is the message shown and the
    table afterwards. A blank field or a field that is not a number is
    refused before the store is called. The score columns hold integers
    ([m_player1_score : option Z]): for two integers the update is made;
    for a number that is not an integer the update is taken to fail,
    which is the handler's error branch and leaves the table as it is. *)
Definition saveMatchResult (role activeTournamentId : option string)
    (editHomeGoals editAwayGoals : string) (now : string)
    (matchId : string) (matches : list MatchRow)
  : option string * list MatchRow :=
  if negb (isAdmin role) then (None, matches)
  else if negb (truthy activeTournamentId) then (None, matches)
  else
    match parse_goals editHomeGoals, parse_goals editAwayGoals with
    | None, _ | _, None | Some NaN, _ | _, Some NaN =>
        (Some msg_enter_numbers, matches)
    | Some (Num hg), Some (Num ag) =>
        (None, update_result matchId hg ag now matches)
    | _, _ => (Some msg_save_failed, matches)
    end.

(** *** The result form *)

(** The state of the form: the match being edited, if any, and the two
    controlled text inputs. *)
Record EditForm := {
  editingMatchId : option string;
  editHomeGoals : string;
  editAwayGoals : string;
}.

Definition closed_form : EditForm :=
  {| editingMatchId := None; editHomeGoals := ""; editAwayGoals := "" |}.

(** What the user does with the form. [ChangeHome value] is one input
    event of the home field, [value] being [e.target.value]: the whole
    text of the input after the key stroke or the paste. *)
Inductive FormEvent :=
| StartEdit (m : MatchRow)
| ChangeHome (value : string)
| ChangeAway (value : string)
| CancelEdit.

(** [score === null ? "" : String(score)] *)
Definition score_text (score : option Z) : string :=
  match score with
  | None => ""
  | Some z => String_of z
  end.

(** The button that opens the form on a match is rendered for the
    administrator only, and the inputs for the match being edited only,
    so that a change event finds the form open. *)
Definition form_step (role : option string) (f : EditForm) (e : FormEvent)
  : EditForm :=
  match e with
  | StartEdit m =>
      if isAdmin role then
        {| editingMatchId := Some (m_id m);
           editHomeGoals := score_text (m_player1_score m);
           editAwayGoals := score_text (m_player2_score m) |}
      else f
  | ChangeHome value =>
      match editingMatchId f with
      | Some _ =>
          {| editingMatchId := editingMatchId f;
             editHomeGoals := clampInt value 0 99;
             editAwayGoals := editAwayGoals f |}
      | None => f
      end
  | ChangeAway value =>
      match editingMatchId f with
      | Some _ =>
          {| editingMatchId := editingMatchId f;
             editHomeGoals := editHomeGoals f;
             editAwayGoals := clampInt value 0 99 |}
      | None => f
      end
  | CancelEdit => closed_form
  end.

(** The text that an input reports when [key] is typed at the end of
    the text [shown] in it. *)
Definition typed (shown : string) (key : ascii) : string :=
  shown +:+ String key "".

(** A submission through the form: the events run from the closed form,
    then the save button of the match being edited runs the handler on
    the two fields. *)
Definition submit_result (role activeTournamentId : option string)
    (events : list FormEvent) (now : string) (matches : list MatchRow)
  : option string * list MatchRow :=
  let f := foldl (form_step role) closed_form events in
  match editingMatchId f with
  | Some matchId =>
      saveMatchResult role activeTournamentId
        (editHomeGoals f) (editAwayGoals f) now matchId matches
  | None => (None, matches)
  end.

(** *** Standings *)

Definition teamById (teams : list TeamRow) : gmap string TeamRow :=
  foldl (λ m t, <[t_id t := t]> m) ∅ teams.

Definition zero_row (byId : gmap string TeamRow) (teamId : string)
  : StandingRow :=
  {| team_id := teamId;
     team_name := match byId !! teamId with
                  | Some t => t_name t
                  | None => teamId
                  end;
     played := 0; wins := 0; draws := 0; losses := 0;
     gf := 0; ga := 0; gd := 0; pts := 0 |}.

Definition add_played (k : Z) (r : StandingRow) : StandingRow :=
  {| team_id := team_id r; team_name := team_name r;
     played := played r + k; wins := wins r; draws := draws r;
     losses := losses r; gf := gf r; ga := ga r; gd := gd r; pts := pts r |}.
Definition add_wins (k : Z) (r : StandingRow) : StandingRow :=
  {| team_id := team_id r; team_name := team_name r;
     played := played r; wins := wins r + k; draws := draws r;
     losses := losses r; gf := gf r; ga := ga r; gd := gd r; pts := pts r |}.
Definition add_draws (k : Z) (r : StandingRow) : StandingRow :=
  {| team_id := team_id r; team_name := team_name r;
     played := played r; wins := wins r; draws := draws r + k;
     losses := losses r; gf := gf r; ga := ga r; gd := gd r; pts := pts r |}.
Definition add_losses (k : Z) (r : StandingRow) : StandingRow :=
  {| team_id := team_id r; team_name := team_name r;
     played := played r; wins := wins r; draws := draws r;
     losses := losses r + k; gf := gf r; ga := ga r; gd := gd r;
     pts := pts r |}.
Definition add_gf (k : Z) (r : StandingRow) : StandingRow :=
  {| team_id := team_id r; team_name := team_name r;
     played := played r; wins := wins r; draws := draws r;
     losses := losses r; gf := gf r + k; ga := ga r; gd := gd r;
     pts := pts r |}.
Definition add_ga (k : Z) (r : StandingRow) : StandingRow :=
  {| team_id := team_id r; team_name := team_name r;
     played := played r; wins := wins r; draws := draws r;
     losses := losses r; gf := gf r; ga := ga r + k; gd := gd r;
     pts := pts r |}.
Definition add_pts (k : Z) (r : StandingRow) : StandingRow :=
  {| team_id := team_id r; team_name := team_name r;
     played := played r; wins := wins r; draws := draws r;
     losses := losses r; gf := gf r; ga := ga r; gd := gd r;
     pts := pts r + k |}.
Definition set_gd (r : StandingRow) : StandingRow :=
  {| team_id := team_id r; team_name := team_name r;
     played := played r; wins := wins r; draws := draws r;
     losses := losses r; gf := gf r; ga := ga r; gd := gf r - ga r;
     pts := pts r |}.

(** The first loop: one zero row per element of the set. *)
Definition seed (byId : gmap string TeamRow) (tourTeamIds : list string)
  : list (string * StandingRow) :=
  foldl (λ m teamId, Map_set m teamId (zero_row byId teamId)) [] tourTeamIds.

(** The body of the second loop. [home] and [away] are the objects held
    by the map, so each statement is an update of the map at the key of
    the object it writes to; when both keys are equal the two names
    denote the same row. *)
Definition apply_match (m : MatchRow) (map : list (string * StandingRow))
  : list (string * StandingRow) :=
  if negb (truthy (m_home_team_id m)) || negb (truthy (m_away_team_id m))
  then map
  else if negb (isPlayed m) then map
  else
    match m_player1_score m, m_player2_score m with
    | Some s1, Some s2 =>
        let h := or_empty (m_home_team_id m) in
        let a := or_empty (m_away_team_id m) in
        match Map_get map h, Map_get map a with
        | Some _, Some _ =>
            let map := Map_modify (add_played 1) h map in
            let map := Map_modify (add_played 1) a map in
            let map := Map_modify (add_gf s1) h map in
            let map := Map_modify (add_ga s2) h map in
            let map := Map_modify (add_gf s2) a map in
            let map := Map_modify (add_ga s1) a map in
            if s2 <? s1 then
              let map := Map_modify (add_wins 1) h map in
              let map := Map_modify (add_losses 1) a map in
              Map_modify (add_pts 3) h map
            else if s1 <? s2 then
              let map := Map_modify (add_wins 1) a map in
              let map := Map_modify (add_losses 1) h map in
              Map_modify (add_pts 3) a map
            else
              let map := Map_modify (add_draws 1) h map in
              let map := Map_modify (add_draws 1) a map in
              let map := Map_modify (add_pts 1) h map in
              Map_modify (add_pts 1) a map
        | _, _ => map
        end
    | _, _ => map
    end.

(** The comparator passed to [list.sort]. *)
Definition compare_rows (a b : StandingRow) : Z :=
  if negb (pts b =? pts a) then pts b - pts a
  else if negb (gd b =? gd a) then gd b - gd a
  else gf b - gf a.

Definition standings (teams : list TeamRow)
    (tournamentTeams : list TournamentTeamRow) (matches : list MatchRow)
  : list StandingRow :=
  let tourTeamIds := Set_from (map tt_team_id tournamentTeams) in
  let map0 := seed (teamById teams) tourTeamIds in
  let map1 := foldl (λ mp m, apply_match m mp) map0 matches in
  let list := map set_gd (Map_values map1) in
  sort compare_rows list.

End Dashboard.

(** ** Notions used to state the properties *)

Module Props.
Import JS Fixtures Dashboard.

(** *** Two-round fixtures *)

Definition incomplete (d : Cleaned) : Prop :=
  home_team_id d = "" ∨ away_team_id d = "".

Definition self_paired (d : Cleaned) : Prop :=
  home_team_id d = away_team_id d.

(** A draft that passes both tests of the validation loop. *)
Definition well_formed (d : Cleaned) : Prop :=
  ¬ incomplete d ∧ ¬ self_paired d.

#[global] Instance incomplete_dec d : Decision (incomplete d).
Proof. unfold incomplete. apply _. Defined.
#[global] Instance self_paired_dec d : Decision (self_paired d).
Proof. unfold self_paired. apply _. Defined.
#[global] Instance well_formed_dec d : Decision (well_formed d).
Proof. unfold well_formed. apply _. Defined.

(** [f2] is the return fixture of [f1]: same match number, sides
    swapped. *)
Definition is_return (f1 f2 : FixtureRow) : bool :=
  bool_decide (f_match_number f2 = f_match_number f1
               ∧ f_home_team_id f2 = f_away_team_id f1
               ∧ f_away_team_id f2 = f_home_team_id f1).

(** *** Round robin *)

(** The row is a fixture between [a] and [b], whichever is at home. *)
Definition meets (a b : string) (row : ScheduleRow) : bool :=
  bool_decide ((s_home_team_id row = Some a ∧ s_away_team_id row = Some b)
               ∨ (s_home_team_id row = Some b ∧ s_away_team_id row = Some a)).

Definition involves (t : string) (row : ScheduleRow) : Prop :=
  s_home_team_id row = Some t ∨ s_away_team_id row = Some t.

(** [g] mirrors [f] in the second leg: sides swapped, round moved by
    [offset]. *)
Definition is_second_leg_of (offset : Z) (f g : ScheduleRow) : bool :=
  bool_decide (s_round g = s_round f + offset
               ∧ s_home_team_id g = s_away_team_id f
               ∧ s_away_team_id g = s_home_team_id f).

(** The row pushed in round [r] for the pair ([t1], [t2]) read at
    positions [i] and [n - 1 - i]: [t1] is at home in odd rounds. *)
Definition fixture (tournamentId : string) (r : nat) (t1 t2 : string)
  : ScheduleRow :=
  {| s_tournament_id := tournamentId;
     s_round := Z.of_nat r;
     s_home_team_id := Some (if (r mod 2 =? 1)%nat then t1 else t2);
     s_away_team_id := Some (if (r mod 2 =? 1)%nat then t2 else t1) |}.

(** The working list at the start of round [r] (rounds count from 1). *)
Definition arr_at (teamIds : list string) (r : nat) : list string :=
  Nat.iter (r - 1) rotate (with_bye teamIds).

(** Where the rotation moves the element at position [p] of a list of
    [m + 1] elements. *)
Definition rot_pos (m p : nat) : nat :=
  if (p =? 0)%nat then 0%nat else if (p =? m)%nat then 1%nat else S p.

(** Position, after [s] rotations, of the element that started at
    position [x] of a list of [m + 1] elements. *)
Definition pos (m s x : nat) : nat :=
  if (x =? 0)%nat then 0%nat
  else if (x + s <=? m)%nat then (x + s)%nat else (x + s - m)%nat.

(** The round (counted from 0) in which the elements that start at
    positions [x] and [y] face each other. *)
Definition meeting_round (m x y : nat) : nat :=
  if (x =? 0)%nat then (m - y)%nat
  else if (y =? 0)%nat then (m - x)%nat
  else if ((x + y) mod 2 =? 0)%nat then (m - (x + y) / 2)%nat
  else if (x + y <=? m)%nat then ((m - (x + y)) / 2)%nat
  else ((3 * m - (x + y)) / 2)%nat.

(** *** Draw *)

(** The row that gives team [t] to player [p]. *)
Definition assignment (tournamentId : string)
    (p : PlayerRow) (t : TournamentTeamRow) : TournamentPlayerRow :=
  {| tp_tournament_id := tournamentId; tp_player_email := p_email p;
     tp_team_id := tt_team_id t |}.

(** *** Standings *)

(** What the specification calls a played match: both team ids and both
    scores are present. *)
Definition played_per_spec (pool : list string) (m : MatchRow) : bool :=
  bool_decide (is_Some (m_home_team_id m) ∧ is_Some (m_away_team_id m)
               ∧ is_Some (m_player1_score m) ∧ is_Some (m_player2_score m)).

(** The matches that the code counts: both ids non-empty, played-at
    set, both scores present, both teams in the pool. *)
Definition counted (pool : list string) (m : MatchRow) : bool :=
  truthy (m_home_team_id m) && truthy (m_away_team_id m) && isPlayed m
  && bool_decide (is_Some (m_player1_score m))
  && bool_decide (is_Some (m_player2_score m))
  && bool_decide (or_empty (m_home_team_id m) ∈ pool)
  && bool_decide (or_empty (m_away_team_id m) ∈ pool).

(** What one side of a match with [mine] goals for and [theirs] against
    earns: a game played, the goals, and 3 points and a win when
    strictly ahead, 1 point and a draw when level, a loss otherwise. *)
Definition credit_side (mine theirs : Z) (r : StandingRow) : StandingRow :=
  {| team_id := team_id r; team_name := team_name r;
     played := played r + 1;
     wins := wins r + (if theirs <? mine then 1 else 0);
     draws := draws r + (if mine =? theirs then 1 else 0);
     losses := losses r + (if mine <? theirs then 1 else 0);
     gf := gf r + mine; ga := ga r + theirs; gd := gd r;
     pts := pts r + (if theirs <? mine then 3
                     else if mine =? theirs then 1 else 0) |}.

(** What a match brings to the row of [teamId]: the home side's due if
    it is at home, the away side's due if it is away. *)
Definition credit (teamId : string) (m : MatchRow) (r : StandingRow)
  : StandingRow :=
  match m_home_team_id m, m_away_team_id m,
        m_player1_score m, m_player2_score m with
  | Some h, Some a, Some s1, Some s2 =>
      let r := if String.eqb h teamId then credit_side s1 s2 r else r in
      if String.eqb a teamId then credit_side s2 s1 r else r
  | _, _, _, _ => r
  end.

(** The row of [teamId] as the specification describes it, given which
    matches count: start from zero, credit every counting match, then
    set the goal difference. *)
Definition tally (counts : MatchRow → bool) (byId : gmap string TeamRow)
    (matches : list MatchRow) (teamId : string) : StandingRow :=
  set_gd (foldl (λ r m, if counts m then credit teamId m r else r)
            (zero_row byId teamId) matches).

(** The table holds, for each team of the pool, the tally of the
    matches that [counts] selects. *)
Definition table_tallies (counts : list string → MatchRow → bool) : Prop :=
  ∀ teams tournamentTeams matches,
    let pool := map tt_team_id tournamentTeams in
    standings teams tournamentTeams matches
    ≡ₚ map (tally (counts pool) (teamById teams) matches) (Set_from pool).

(** [a] ranks at least as high as [b]: points, then goal difference,
    then goals for. *)
Definition ranks_before (a b : StandingRow) : Prop :=
  pts b < pts a
  ∨ (pts b = pts a ∧ (gd b < gd a ∨ (gd b = gd a ∧ gf b ≤ gf a))).

Definition same_keys (a b : StandingRow) : Prop :=
  pts a = pts b ∧ gd a = gd b ∧ gf a = gf b.

(** Index of the first occurrence of [x] in [l] ([length l] if none). *)
Fixpoint first_index (x : string) (l : list string) : nat :=
  match l with
  | [] => 0%nat
  | y :: l' => if String.eqb y x then 0%nat else S (first_index x l')
  end.

(** [x] occurs in the list at an earlier position than [y]. *)
Inductive before {A} (x y : A) : list A → Prop :=
| before_here l : y ∈ l → before x y (x :: l)
| before_later z l : before x y l → before x y (z :: l).

(** [f] when [b] holds, else no change. *)
Definition when {A} (b : bool) (f : A → A) (x : A) : A :=
  if b then f x else x.

(** The map that holds, under each id of [ids], the row [R id]. *)
Definition tab (R : string → StandingRow) (ids : list string)
  : list (string * StandingRow) :=
  map (λ id, (id, R id)) ids.

(** *** Match result *)

(** The text of a score that reads as a negative integer. *)
Definition negative (v : string) : Prop := ∃ z, Number v = Num z ∧ z < 0.



(** *** The result form *)





End Props.

(** ** Sample data for the worked examples *)

Module Samples.
Import JS Fixtures Dashboard.

Definition draft_AB : Draft :=
  {| d_match_number := 1; d_home_team_id := Some "A";
     d_away_team_id := Some "B" |}.
Definition draft_CD : Draft :=
  {| d_match_number := 2; d_home_team_id := Some "C";
     d_away_team_id := Some " D " |}.
Definition draft_blank : Draft :=
  {| d_match_number := 2; d_home_team_id := Some "  ";
     d_away_team_id := Some "B" |}.
Definition draft_AA : Draft :=
  {| d_match_number := 3; d_home_team_id := Some "A";
     d_away_team_id := Some "A" |}.
(** U+00A0, the no-break space. *)
Definition nbsp : string := String "194" (String "160" "").
Definition draft_A_nbsp : Draft :=
  {| d_match_number := 4; d_home_team_id := Some "A";
     d_away_team_id := Some ("A" +:+ nbsp) |}.
Definition stored_row : FixtureRow :=
  {| f_tournament_id := "T"; f_round_number := 1; f_match_number := 1;
     f_home_team_id := Some "X"; f_away_team_id := Some "Y";
     f_is_bye := false; f_source := manual |}.

Definition player (email : string) : PlayerRow :=
  {| p_email := email; p_name := None; p_role := "player" |}.
Definition pool_team (id : string) : TournamentTeamRow :=
  {| tt_id := "tt-" +:+ id; tt_tournament_id := "T"; tt_team_id := id |}.
Definition old_assignment : TournamentPlayerRow :=
  {| tp_tournament_id := "T"; tp_player_email := "zed@x";
     tp_team_id := "Z" |}.

(** An administrator looking at tournament T, whose roster holds
    [ps] and whose gate is in state [locked]. *)
Definition admin_state (ps : list PlayerRow) (locked : bool) : State :=
  {| role := Some "admin"; activeTournamentId := Some "T";
     players := ps;
     tournamentTeams := [pool_team "A"; pool_team "B"; pool_team "C"];
     rosterLocked := locked; localStorage := ∅;
     inviteMsg := None; tpMsg := None;
     tournamentPlayers := [old_assignment];
     tournament_players := [old_assignment] |}.

Definition two_players : list PlayerRow :=
  [player "ana@x"; player "bo@x";
   {| p_email := "root@x"; p_name := None; p_role := "admin" |}].

(** A match of tournament T between [h] and [a], with the given scores
    and played-at stamp. *)
Definition game (id : string) (h a : option string) (s1 s2 : option Z)
    (at_ : option string) : MatchRow :=
  {| m_id := id; m_tournament_id := "T"; m_round := Some 1;
     m_home_team_id := h; m_away_team_id := a;
     m_player1_email := None; m_player2_email := None;
     m_player1_score := s1; m_player2_score := s2; m_played_at := at_ |}.

Definition unplayed : MatchRow :=
  game "m1" (Some "A") (Some "B") None None None.

Definition played_game (id h a : string) (s1 s2 : Z) : MatchRow :=
  game id (Some h) (Some a) (Some s1) (Some s2) (Some "2024-05-01").

Definition pool_ABC : list TournamentTeamRow :=
  [pool_team "A"; pool_team "B"; pool_team "C"].

(** The scenario of the specification: A beat B 2-1, A and C drew 0-0,
    B against C is not played yet. *)
Definition season : list MatchRow :=
  [played_game "m1" "A" "B" 2 1; played_game "m2" "A" "C" 0 0;
   game "m3" (Some "B") (Some "C") None None None].

(** A played match against a team that is not in the pool. *)
Definition outsider_game : MatchRow := played_game "m9" "X" "A" 2 1.

(** A source of randomness that always draws index 0. *)
Definition always_first (i : nat) : nat := 0%nat.

End Samples.

(** ** app/dashboard/page.tsx: values derived from the state *)

Module Views.
Import JS Dashboard.

(** [Map] from team id to the email of the player who drew it; a later
    row of the draw replaces an earlier one for the same team. *)
Definition teamToPlayerEmail (tournamentPlayers : list TournamentPlayerRow)
  : gmap string string :=
  foldl (λ m tp, <[tp_team_id tp := tp_player_email tp]> m) ∅
    tournamentPlayers.

(** [m.home_team_id === myTeamId || m.away_team_id === myTeamId] *)
Definition involves_team (myTeamId : option string) (m : MatchRow) : bool :=
  bool_decide (m_home_team_id m = myTeamId)
  || bool_decide (m_away_team_id m = myTeamId).

Definition visibleMatches (role myTeamId : option string)
    (matches : list MatchRow) : list MatchRow :=
  if isAdmin role then matches
  else if negb (truthy myTeamId) then []
  else List.filter (involves_team myTeamId) matches.

(** Truthiness of a [number | null] value. *)
Definition num_truthy (v : option Z) : bool :=
  match v with
  | Some z => negb (z =? 0)
  | None => false
  end.

(** [Set<number>.add] *)
Definition NumSet_add (seen : list Z) (x : Z) : list Z :=
  if bool_decide (x ∈ seen) then seen else seen ++ [x].

Definition roundOptions (matches : list MatchRow) : list Z :=
  let set :=
    foldl (λ set m, if num_truthy (m_round m)
                    then NumSet_add set (default 0 (m_round m)) else set)
      [] matches in
  sort (λ a b, a - b) set.

(** [(m.round ?? -1) === r] *)
Definition in_round (r : Z) (m : MatchRow) : bool :=
  default (-1) (m_round m) =? r.

(** The rounds of the rows are integers: a filter that is a number but
    not an integer is the round of no match. *)
Definition filteredVisibleMatches (roundFilter : string)
    (visibleMatches : list MatchRow) : list MatchRow :=
  if String.eqb roundFilter "all" then visibleMatches
  else
    match Number roundFilter with
    | NaN => visibleMatches
    | Num r => List.filter (in_round r) visibleMatches
    | Frac _ _ | Infinity _ => []
    end.

(** The object returned by [myStats]. *)
Record Stats := {
  s_played : Z;
  s_wins : Z;
  s_draws : Z;
  s_losses : Z;
  s_pts : Z;
  s_gf : Z;
  s_ga : Z;
}.

Definition no_stats : Stats :=
  {| s_played := 0; s_wins := 0; s_draws := 0; s_losses := 0;
     s_pts := 0; s_gf := 0; s_ga := 0 |}.

(** One turn of the loop of [myStats], on the seven counters. *)
Definition myStats_step (myTeamId : string) (acc : Stats) (m : MatchRow)
  : Stats :=
  if negb (truthy (m_home_team_id m)) || negb (truthy (m_away_team_id m))
  then acc
  else if negb (isPlayed m) then acc
  else
    match m_player1_score m, m_player2_score m with
    | Some s1, Some s2 =>
        let isHome := bool_decide (m_home_team_id m = Some myTeamId) in
        let isAway := bool_decide (m_away_team_id m = Some myTeamId) in
        if negb isHome && negb isAway then acc
        else
          let played := s_played acc + 1 in
          let myGoals := if isHome then s1 else s2 in
          let oppGoals := if isHome then s2 else s1 in
          let gf := s_gf acc + myGoals in
          let ga := s_ga acc + oppGoals in
          if oppGoals <? myGoals then
            {| s_played := played; s_wins := s_wins acc + 1;
               s_draws := s_draws acc; s_losses := s_losses acc;
               s_pts := s_pts acc + 3; s_gf := gf; s_ga := ga |}
          else if myGoals <? oppGoals then
            {| s_played := played; s_wins := s_wins acc;
               s_draws := s_draws acc; s_losses := s_losses acc + 1;
               s_pts := s_pts acc; s_gf := gf; s_ga := ga |}
          else
            {| s_played := played; s_wins := s_wins acc;
               s_draws := s_draws acc + 1; s_losses := s_losses acc;
               s_pts := s_pts acc + 1; s_gf := gf; s_ga := ga |}
    | _, _ => acc
    end.

Definition myStats (myTeamId : option string) (matches : list MatchRow)
  : Stats :=
  if negb (truthy myTeamId) then no_stats
  else foldl (myStats_step (or_empty myTeamId)) no_stats matches.

End Views.

(** ** app/dashboard/page.tsx: the other handlers of the administrator *)

Module Admin.
Import JS Fixtures Dashboard Views.

Definition setActiveTournamentId (id : option string) (st : State) : State :=
  {| role := role st; activeTournamentId := id;
     players := players st; tournamentTeams := tournamentTeams st;
     rosterLocked := rosterLocked st; localStorage := localStorage st;
     inviteMsg := inviteMsg st; tpMsg := tpMsg st;
     tournamentPlayers := tournamentPlayers st;
     tournament_players := tournament_players st |}.

Definition msg_draw_reset : string := "✅ Žreb resetovan.".

Definition resetDraw (confirm : bool) (st : State) : State :=
  if negb (isAdmin (role st)) then st
  else if negb (truthy (activeTournamentId st)) then st
  else if negb confirm then st
  else
    let tid := or_empty (activeTournamentId st) in
    let st := setTpMsg None st in
    let st := store_tournament_players
                (List.filter
                   (λ r, negb (String.eqb (tp_tournament_id r) tid))
                   (tournament_players st)) st in
    let st := setTpMsg (Some msg_draw_reset) st in
    loadTournamentPlayers tid st.

(** *** The pool of a tournament *)

(** The state that the two pool handlers read or write, and the
    [tournament_teams] table. *)
Record Pool := {
  ttMsg : option string;
  teamToAddId : string;
  pool_view : list TournamentTeamRow;
  tournament_teams : list TournamentTeamRow;
}.

Definition msg_choose_tournament : string := "Izaberi turnir prvo.".
Definition msg_choose_team : string := "Izaberi tim.".
Definition msg_team_already : string := "Taj tim je već dodat u ovaj turnir.".

Definition loadTournamentTeams (tournamentId : string) (p : Pool) : Pool :=
  {| ttMsg := None; teamToAddId := teamToAddId p;
     pool_view := List.filter
                    (λ r, String.eqb (tt_tournament_id r) tournamentId)
                    (tournament_teams p);
     tournament_teams := tournament_teams p |}.

Definition set_ttMsg (msg : option string) (p : Pool) : Pool :=
  {| ttMsg := msg; teamToAddId := teamToAddId p; pool_view := pool_view p;
     tournament_teams := tournament_teams p |}.

(** [newId] is the row id that the store gives to the inserted row. *)
Definition addTeamToTournament (role activeTournamentId : option string)
    (newId : string) (p : Pool) : Pool :=
  if negb (isAdmin role) then p
  else if negb (truthy activeTournamentId) then
    set_ttMsg (Some msg_choose_tournament) p
  else if negb (nonempty (teamToAddId p)) then
    set_ttMsg (Some msg_choose_team) p
  else if existsb (λ x, String.eqb (tt_team_id x) (teamToAddId p)) (pool_view p)
  then set_ttMsg (Some msg_team_already) p
  else
    let tid := or_empty activeTournamentId in
    let p := {| ttMsg := None; teamToAddId := "";
                pool_view := pool_view p;
                tournament_teams :=
                  tournament_teams p
                  ++ [ {| tt_id := newId; tt_tournament_id := tid;
                          tt_team_id := teamToAddId p |} ] |} in
    loadTournamentTeams tid p.

Definition removeTeamFromTournament (role activeTournamentId : option string)
    (rowId : string) (p : Pool) : Pool :=
  if negb (isAdmin role) then p
  else if negb (truthy activeTournamentId) then p
  else
    let p := {| ttMsg := ttMsg p; teamToAddId := teamToAddId p;
                pool_view := pool_view p;
                tournament_teams :=
                  List.filter (λ r, negb (String.eqb (tt_id r) rowId))
                    (tournament_teams p) |} in
    loadTournamentTeams (or_empty activeTournamentId) p.

(** *** Results *)

Definition clear_result (m : MatchRow) : MatchRow :=
  {| m_id := m_id m; m_tournament_id := m_tournament_id m;
     m_round := m_round m;
     m_home_team_id := m_home_team_id m; m_away_team_id := m_away_team_id m;
     m_player1_email := m_player1_email m;
     m_player2_email := m_player2_email m;
     m_player1_score := None; m_player2_score := None;
     m_played_at := None |}.

(** The handler, over the [matches] table; the result is the message
    shown and the table afterwards. *)
Definition clearMatchResult (role activeTournamentId : option string)
    (confirm : bool) (matchId : string) (matches : list MatchRow)
  : option string * list MatchRow :=
  if negb (isAdmin role) then (None, matches)
  else if negb (truthy activeTournamentId) then (None, matches)
  else if negb confirm then (None, matches)
  else
    (None,
     map (λ m, if String.eqb (m_id m) matchId then clear_result m else m)
       matches).

(** *** Players of the matches *)

Definition msg_no_draw : string := "Nema žreba. Prvo uradi Žreb timova.".
Definition msg_no_matches : string := "Nema mečeva. Prvo generiši mečeve.".
Definition msg_all_assigned : string := "Sve je već dodeljeno.".

(** An element of [updates]. *)
Record Update := {
  u_id : string;
  u_player1_email : option string;
  u_player2_email : option string;
}.

(** [team ? teamToPlayerEmail.get(team) ?? null : null] *)
Definition owner (owners : gmap string string) (team : option string)
  : option string :=
  if truthy team then owners !! or_empty team else None.

Definition update_of (owners : gmap string string) (m : MatchRow)
  : option Update :=
  let p1 := owner owners (m_home_team_id m) in
  let p2 := owner owners (m_away_team_id m) in
  let need := negb (bool_decide (m_player1_email m = p1))
              || negb (bool_decide (m_player2_email m = p2)) in
  if need
  then Some {| u_id := m_id m; u_player1_email := p1; u_player2_email := p2 |}
  else None.

Definition updates (owners : gmap string string) (matches : list MatchRow)
  : list Update :=
  omap (update_of owners)
    (List.filter (λ m, truthy (m_home_team_id m) && truthy (m_away_team_id m))
       matches).

Definition set_players (p1 p2 : option string) (m : MatchRow) : MatchRow :=
  {| m_id := m_id m; m_tournament_id := m_tournament_id m;
     m_round := m_round m;
     m_home_team_id := m_home_team_id m; m_away_team_id := m_away_team_id m;
     m_player1_email := p1; m_player2_email := p2;
     m_player1_score := m_player1_score m;
     m_player2_score := m_player2_score m;
     m_played_at := m_played_at m |}.

(** [update({player1_email, player2_email}).eq("id", u.id)] *)
Definition apply_update (matches : list MatchRow) (u : Update)
  : list MatchRow :=
  map (λ m, if String.eqb (m_id m) (u_id u)
            then set_players (u_player1_email u) (u_player2_email u) m
            else m) matches.

(** The handler, over the matches of the tournament; the result is the
    message shown when it stops early and the matches afterwards. An
    update changes neither the round nor the creation time of a row, so
    the reload that ends the handler lists the rows in the same order. *)
Definition assignPlayersToMatches (role activeTournamentId : option string)
    (tournamentPlayers : list TournamentPlayerRow) (matches : list MatchRow)
  : option string * list MatchRow :=
  if negb (isAdmin role) then (None, matches)
  else if negb (truthy activeTournamentId) then
    (Some msg_no_tournament, matches)
  else if (length tournamentPlayers =? 0)%nat then (Some msg_no_draw, matches)
  else if (length matches =? 0)%nat then (Some msg_no_matches, matches)
  else
    let us := updates (teamToPlayerEmail tournamentPlayers) matches in
    if (length us =? 0)%nat then (Some msg_all_assigned, matches)
    else (None, foldl apply_update matches us).

(** *** Fixtures *)

(** The order of [loadFixtures] and of the [sort] of the playable
    fixtures: round number, then match number. *)
Definition compare_fixtures (a b : FixtureRow) : Z :=
  if negb (f_round_number a =? f_round_number b)
  then f_round_number a - f_round_number b
  else f_match_number a - f_match_number b.

(** lib/fixtures.ts, [loadFixtures]: the rows of the tournament in the
    order the query asks for; rows equal on both keys are taken in table
    order. *)
Definition loadFixtures (db : list FixtureRow) (tournamentId : string)
  : list FixtureRow :=
  sort compare_fixtures
    (List.filter (λ f, String.eqb (f_tournament_id f) tournamentId) db).

Definition playable (fx : list FixtureRow) : list FixtureRow :=
  sort compare_fixtures
    (List.filter
       (λ f, truthy (f_home_team_id f) && truthy (f_away_team_id f))
       (List.filter (λ f, negb (f_is_bye f)) fx)).

Definition match_of_fixture (tournamentId : string) (f : FixtureRow)
  : ScheduleRow :=
  {| s_tournament_id := tournamentId;
     s_round := f_round_number f;
     s_home_team_id := f_home_team_id f;
     s_away_team_id := f_away_team_id f |}.

Definition msg_no_fixtures : string := "Nema fixtures. Prvo unesi Kolo 1.".
Definition msg_matches_generated : string :=
  "✅ Mečevi generisani iz fixtures.".

(** The handler: [count] is the number of [matches] rows of the
    tournament, [db] the [fixtures] table; the result is the message set
    before the final reload and the rows inserted into [matches]. *)
Definition generateMatchesFromFixtures (role activeTournamentId : option string)
    (count : Z) (db : list FixtureRow) : option string * list ScheduleRow :=
  if negb (isAdmin role) then (None, [])
  else if negb (truthy activeTournamentId) then (None, [])
  else if 0 <? count then (Some msg_matches_exist, [])
  else
    let tid := or_empty activeTournamentId in
    let fx := loadFixtures db tid in
    let rows := playable fx in
    if (length rows =? 0)%nat then (Some msg_no_fixtures, [])
    else (Some msg_matches_generated, map (match_of_fixture tid) rows).

(** What [fixturesError] can hold after [handleSaveScheduleRound1]:
    "Unesi bar jedan meč u Kolo 1." or the message of the error thrown by
    [saveRound1AndGenerateRound2]. *)
Inductive SaveError :=
| NoMatchEntered
| Thrown (e : Error).

(** [{ ..., home_team_id: d.home_team_id || "", ... }] *)
Definition fill_blank (d : Draft) : Draft :=
  {| d_match_number := d_match_number d;
     d_home_team_id := Some (or_empty (d_home_team_id d));
     d_away_team_id := Some (or_empty (d_away_team_id d)) |}.

Definition complete (d : Draft) : bool :=
  truthy (d_home_team_id d) && truthy (d_away_team_id d).

(** The handler, from the error shown before and the [fixtures] table to
    the error shown after and the table after. *)
Definition handleSaveScheduleRound1 (role activeTournamentId : option string)
    (drafts : list Draft) (fixturesError : option SaveError)
    (db : list FixtureRow) : option SaveError * list FixtureRow :=
  if negb (isAdmin role) then (fixturesError, db)
  else if negb (truthy activeTournamentId) then (fixturesError, db)
  else
    let cleaned := List.filter complete (map fill_blank drafts) in
    if (length cleaned =? 0)%nat then (Some NoMatchEntered, db)
    else
      match saveRound1AndGenerateRound2 db (or_empty activeTournamentId)
              cleaned with
      | (inl e, db') => (Some (Thrown e), db')
      | (inr _, db') => (None, db')
      end.

Definition resetFixtures (role activeTournamentId : option string)
    (db : list FixtureRow) : list FixtureRow :=
  if negb (isAdmin role) then db
  else if negb (truthy activeTournamentId) then db
  else delete_tournament (or_empty activeTournamentId) db.

End Admin.

(** ** app/dashboard/page.tsx: the fixtures form (ScheduleCard) *)

Module ScheduleCard.
Import JS Fixtures Dashboard.

(** [Array.from({ length: Math.floor(teamOptions.length / 2) }, ...)]:
    one blank draft per match, numbered from 1. *)
Definition initial_drafts (teamOptions : nat) : list Draft :=
  map (λ i, {| d_match_number := Z.of_nat i + 1;
               d_home_team_id := Some ""; d_away_team_id := Some "" |})
    (seq 0 (teamOptions / 2)).

(** The [patch] argument of [setDraft]: the fields it carries. *)
Record Patch := {
  patch_match_number : option Z;
  patch_home_team_id : option string;
  patch_away_team_id : option string;
}.

(** [{ ...d, ...patch }] *)
Definition apply_patch (patch : Patch) (d : Draft) : Draft :=
  {| d_match_number := default (d_match_number d) (patch_match_number patch);
     d_home_team_id := match patch_home_team_id patch with
                       | Some v => Some v
                       | None => d_home_team_id d
                       end;
     d_away_team_id := match patch_away_team_id patch with
                       | Some v => Some v
                       | None => d_away_team_id d
                       end |}.

Definition setDraft (idx : nat) (patch : Patch) (prev : list Draft)
  : list Draft :=
  imap (λ i d, if (i =? idx)%nat then apply_patch patch d else d) prev.

(** The two patches that the form sends: a choice of home team, a choice
    of away team. *)
Definition choose_home (v : string) : Patch :=
  {| patch_match_number := None; patch_home_team_id := Some v;
     patch_away_team_id := None |}.
Definition choose_away (v : string) : Patch :=
  {| patch_match_number := None; patch_home_team_id := None;
     patch_away_team_id := Some v |}.

(** [round1] and [round2] of the card. *)
Definition round_view (round : Z) (fixtures : list FixtureRow)
  : list FixtureRow :=
  sort (λ a b, f_match_number a - f_match_number b)
    (List.filter (λ f, f_round_number f =? round) fixtures).

End ScheduleCard.

(** ** Notions used to state the further properties *)

Module PropsMore.
Import JS Fixtures Dashboard Props Views Admin ScheduleCard.

(** The draft lists that the fixtures form can hold for [n] teams: the
    blank list, changed by any number of choices of a home or away
    team. *)
Inductive form_drafts (n : nat) : list Draft → Prop :=
| form_blank : form_drafts n (initial_drafts n)
| form_home idx v drafts :
    form_drafts n drafts → form_drafts n (setDraft idx (choose_home v) drafts)
| form_away idx v drafts :
    form_drafts n drafts → form_drafts n (setDraft idx (choose_away v) drafts).

(** The row has [a] at home against [b]. *)
Definition hosts (a b : string) (row : ScheduleRow) : bool :=
  bool_decide (s_home_team_id row = Some a ∧ s_away_team_id row = Some b).

(** The row belongs to round [r]. *)
Definition of_round (r : nat) (row : ScheduleRow) : bool :=
  s_round row =? Z.of_nat r.

(** A string that [trim] leaves alone. *)
Definition trimmed (s : string) : Prop := trim s = s.

(** *** Roster gate *)

(** What the administrator can do to the gate and the draw. [Select]
    chooses a tournament; [pool] is what [loadTournamentTeams] then
    finds for it. *)
Inductive GateStep :=
| Lock (confirm : bool)
| Unlock (confirm : bool)
| DrawTeams (random : nat → nat)
| ResetDraw (confirm : bool)
| Select (id : option string) (pool : list TournamentTeamRow).

Definition setTournamentTeams (pool : list TournamentTeamRow) (st : State)
  : State :=
  {| role := role st; activeTournamentId := activeTournamentId st;
     players := players st; tournamentTeams := pool;
     rosterLocked := rosterLocked st; localStorage := localStorage st;
     inviteMsg := inviteMsg st; tpMsg := tpMsg st;
     tournamentPlayers := tournamentPlayers st;
     tournament_players := tournament_players st |}.

(** The three effects that depend on [activeTournamentId], in the order
    of the page: the gate is read back from [localStorage]; the lists of
    the tournament are loaded; the id is stored under
    "activeTournamentId". The last two do nothing without a
    tournament. *)
Definition select (id : option string) (pool : list TournamentTeamRow)
    (st : State) : State :=
  let st := syncRosterLocked (setActiveTournamentId id st) in
  if negb (truthy id) then st
  else
    let st := loadTournamentPlayers (or_empty id) st in
    let st := setTournamentTeams pool st in
    setLocalStorage
      (<["activeTournamentId" := or_empty id]> (localStorage st)) st.

(** The effects run when the value has changed. *)
Definition gate_step (st : State) (a : GateStep) : State :=
  match a with
  | Lock c => lockRoster c st
  | Unlock c => unlockRoster c st
  | DrawTeams random => drawTeamsForTournament random st
  | ResetDraw c => resetDraw c st
  | Select id pool =>
      if bool_decide (id = activeTournamentId st) then st
      else select id pool st
  end.

Definition gate_run (st : State) (steps : list GateStep) : State :=
  foldl gate_step st steps.

(** The flag that [localStorage] holds for a tournament. *)
Definition stored_lock (ls : gmap string string) (tournamentId : string)
  : bool :=
  bool_decide (ls !! rosterKey tournamentId = Some "1").

(** The flag of the page is the one stored for the active tournament. *)
Definition gate_agrees (st : State) : Prop :=
  rosterLocked st
  = truthy (activeTournamentId st)
    && stored_lock (localStorage st) (or_empty (activeTournamentId st)).

Definition is_select (a : GateStep) : Prop :=
  match a with Select _ _ => True | _ => False end.

(** The rows of a tournament in the [tournament_players] table. *)
Definition draw_of (tournamentId : string)
    (table : list TournamentPlayerRow) : list TournamentPlayerRow :=
  List.filter (λ r, String.eqb (tp_tournament_id r) tournamentId) table.

Definition others_of (tournamentId : string)
    (table : list TournamentPlayerRow) : list TournamentPlayerRow :=
  List.filter (λ r, negb (String.eqb (tp_tournament_id r) tournamentId))
    table.

(** *** Players of the matches *)

(** The match with the players that the draw gives to its two teams; a
    match that lacks a team is left alone. *)
Definition assigned (owners : gmap string string) (m : MatchRow) : MatchRow :=
  if truthy (m_home_team_id m) && truthy (m_away_team_id m)
  then set_players (owner owners (m_home_team_id m))
         (owner owners (m_away_team_id m)) m
  else m.

(** The effect of one update on one row. *)
Definition updated (m : MatchRow) (u : Update) : MatchRow :=
  if String.eqb (m_id m) (u_id u)
  then set_players (u_player1_email u) (u_player2_email u) m
  else m.

(** The round 2 fixture that mirrors a round 1 fixture. *)
Definition return_row (f : FixtureRow) : FixtureRow :=
  {| f_tournament_id := f_tournament_id f; f_round_number := 2;
     f_match_number := f_match_number f;
     f_home_team_id := f_away_team_id f;
     f_away_team_id := f_home_team_id f;
     f_is_bye := false; f_source := auto_reverse |}.

(** *** Pool *)

(** What the administrator can do to the pool of the active
    tournament: choose a team in the select box, add it, remove a row. *)
Inductive PoolStep :=
| ChooseTeam (teamId : string)
| AddTeam (newId : string)
| RemoveTeam (rowId : string).

Definition setTeamToAddId (teamId : string) (p : Pool) : Pool :=
  {| ttMsg := ttMsg p; teamToAddId := teamId; pool_view := pool_view p;
     tournament_teams := tournament_teams p |}.

Definition pool_step (role activeTournamentId : option string)
    (p : Pool) (a : PoolStep) : Pool :=
  match a with
  | ChooseTeam teamId => setTeamToAddId teamId p
  | AddTeam newId => addTeamToTournament role activeTournamentId newId p
  | RemoveTeam rowId => removeTeamFromTournament role activeTournamentId rowId p
  end.

(** The page shows the rows that the table holds for the tournament,
    and these name distinct teams, none by the empty string. *)
Definition pool_ok (tournamentId : string) (p : Pool) : Prop :=
  pool_view p
  = List.filter (λ r, String.eqb (tt_tournament_id r) tournamentId)
      (tournament_teams p)
  ∧ NoDup (map tt_team_id (pool_view p))
  ∧ Forall (λ r, tt_team_id r ≠ "") (pool_view p).

(** *** Results *)

(** What the administrator can do to the matches once they exist. *)
Inductive ResultStep :=
| SaveResult (home away now matchId : string)
| ClearResult (confirm : bool) (matchId : string)
| AssignPlayers (tournamentPlayers : list TournamentPlayerRow).

Definition result_step (role activeTournamentId : option string)
    (matches : list MatchRow) (a : ResultStep) : list MatchRow :=
  match a with
  | SaveResult home away now matchId =>
      (saveMatchResult role activeTournamentId home away now matchId
         matches).2
  | ClearResult confirm matchId =>
      (clearMatchResult role activeTournamentId confirm matchId matches).2
  | AssignPlayers tournamentPlayers =>
      (assignPlayersToMatches role activeTournamentId tournamentPlayers
         matches).2
  end.

(** The time stamp [new Date().toISOString()] is not the empty string. *)
Definition stamped (a : ResultStep) : Prop :=
  match a with
  | SaveResult _ _ now _ => now ≠ ""
  | _ => True
  end.

(** A match holds either both scores and the played-at stamp or none
    of the three. *)
Definition settled (m : MatchRow) : Prop :=
  (m_player1_score m = None ∧ m_player2_score m = None
   ∧ m_played_at m = None)
  ∨ (is_Some (m_player1_score m) ∧ is_Some (m_player2_score m)
     ∧ isPlayed m = true).

(** [matches.filter((m) => m.id !== matchId)] *)
Definition without (matchId : string) (matches : list MatchRow)
  : list MatchRow :=
  List.filter (λ m, negb (String.eqb (m_id m) matchId)) matches.

(** *** Standings *)

(** Points and games played add up. *)
Definition consistent_row (r : StandingRow) : Prop :=
  pts r = 3 * wins r + draws r
  ∧ played r = wins r + draws r + losses r
  ∧ 0 ≤ wins r ∧ 0 ≤ draws r ∧ 0 ≤ losses r
  ∧ gd r = gf r - ga r.

(** The same for the seven counters of [myStats]. *)
Definition consistent_stats (s : Stats) : Prop :=
  s_pts s = 3 * s_wins s + s_draws s
  ∧ s_played s = s_wins s + s_draws s + s_losses s
  ∧ 0 ≤ s_wins s ∧ 0 ≤ s_draws s ∧ 0 ≤ s_losses s.

(** The sum of a column of the table. *)
Definition total (column : StandingRow → Z) (rows : list StandingRow) : Z :=
  foldr (λ r acc, column r + acc) 0 rows.

(** What the two sides of a match add to a column, when a side with
    [mine] goals for and [theirs] against adds [gain mine theirs]. *)
Definition match_gain (gain : Z → Z → Z) (m : MatchRow) : Z :=
  match m_player1_score m, m_player2_score m with
  | Some s1, Some s2 => gain s1 s2 + gain s2 s1
  | _, _ => 0
  end.

Definition gains (gain : Z → Z → Z) (counts : MatchRow → bool)
    (matches : list MatchRow) : Z :=
  foldr (λ m acc, (if counts m then match_gain gain m else 0) + acc) 0
    matches.

(** The counters of [myStats] are those of the row. *)
Definition same_record (s : Stats) (r : StandingRow) : Prop :=
  s_played s = played r ∧ s_wins s = wins r ∧ s_draws s = draws r
  ∧ s_losses s = losses r ∧ s_pts s = pts r
  ∧ s_gf s = gf r ∧ s_ga s = ga r.

End PropsMore.

(** ** More sample data *)

Module SamplesMore.
Import JS Fixtures Dashboard Views Admin ScheduleCard Samples.

(** A draft with only its home side chosen. *)
Definition draft_half : Draft :=
  {| d_match_number := 2; d_home_team_id := Some "C";
     d_away_team_id := Some "" |}.

(** The form for four teams after A-B and C-D have been chosen. *)
Definition form_ABCD : list Draft :=
  setDraft 1 (choose_away "D")
    (setDraft 1 (choose_home "C")
       (setDraft 0 (choose_away "B")
          (setDraft 0 (choose_home "A") (initial_drafts 4)))).

(** The administrator of [Samples.admin_state] with the gate of
    tournament T stored as locked. *)
Definition locked_state : State :=
  setLocalStorage (<[rosterKey "T" := "1"]> ∅)
    (admin_state two_players true).

(** The draw that gives team A to ana and team B to bo. *)
Definition draw_AB : list TournamentPlayerRow :=
  [ {| tp_tournament_id := "T"; tp_player_email := "ana@x";
       tp_team_id := "A" |};
    {| tp_tournament_id := "T"; tp_player_email := "bo@x";
       tp_team_id := "B" |} ].

(** An empty pool with nothing chosen. *)
Definition empty_pool : Pool :=
  {| ttMsg := None; teamToAddId := ""; pool_view := [];
     tournament_teams := [] |}.

(** Matches of rounds 2, 1 and 2, one without a round and one of
    round 0. *)
Definition rounds_2120 : list MatchRow :=
  [ game "a" (Some "A") (Some "B") None None None;
    {| m_id := "b"; m_tournament_id := "T"; m_round := Some 2;
       m_home_team_id := Some "A"; m_away_team_id := Some "C";
       m_player1_email := None; m_player2_email := None;
       m_player1_score := None; m_player2_score := None;
       m_played_at := None |};
    {| m_id := "c"; m_tournament_id := "T"; m_round := None;
       m_home_team_id := Some "B"; m_away_team_id := Some "C";
       m_player1_email := None; m_player2_email := None;
       m_player1_score := None; m_player2_score := None;
       m_played_at := None |};
    {| m_id := "d"; m_tournament_id := "T"; m_round := Some 0;
       m_home_team_id := Some "B"; m_away_team_id := Some "A";
       m_player1_email := None; m_player2_email := None;
       m_player1_score := None; m_player2_score := None;
       m_played_at := None |} ].

End SamplesMore.

(** ** Facts about the built-ins *)

Section SetFacts.
Import JS.

Lemma elem_of_Set_add acc x y : y ∈ Set_add acc x ↔ y ∈ acc ∨ y = x.
Proof.
  unfold Set_add. case_bool_decide as Hx.
  - split; [by left|]. intros [?| ->]; done.
  - rewrite elem_of_app, list_elem_of_singleton. done.
Qed.

Lemma elem_of_foldl_Set_add l acc y :
  y ∈ foldl Set_add acc l ↔ y ∈ acc ∨ y ∈ l.
Proof.
  revert acc. induction l as [|x l IH]; intros acc; simpl.
  - rewrite elem_of_nil. tauto.
  - rewrite IH, elem_of_Set_add, elem_of_cons. tauto.
Qed.

Lemma NoDup_Set_add acc x : NoDup acc → NoDup (Set_add acc x).
Proof.
  intros Hacc. unfold Set_add. case_bool_decide as Hx; [done|].
  apply NoDup_app. split_and!; [done| |apply NoDup_singleton].
  intros y Hy ->%list_elem_of_singleton. done.
Qed.

Lemma NoDup_foldl_Set_add l acc : NoDup acc → NoDup (foldl Set_add acc l).
Proof.
  revert acc. induction l as [|x l IH]; intros acc Hacc; simpl; [done|].
  apply IH, NoDup_Set_add, Hacc.
Qed.

Lemma length_foldl_Set_add_le l acc :
  (length (foldl Set_add acc l) ≤ length acc + length l)%nat.
Proof.
  revert acc. induction l as [|x l IH]; intros acc; simpl; [lia|].
  etrans; [apply IH|]. unfold Set_add. case_bool_decide; simpl.
  - lia.
  - rewrite length_app. simpl. lia.
Qed.

Lemma length_foldl_Set_add l acc :
  length (foldl Set_add acc l) = (length acc + length l)%nat
  ↔ NoDup l ∧ ∀ x, x ∈ l → x ∉ acc.
Proof.
  revert acc. induction l as [|x l IH]; intros acc; simpl.
  - split; [|lia]. intros _. split; [constructor|]. by intros ? ?%elem_of_nil.
  - unfold Set_add at 2. case_bool_decide as Hx.
    + split.
      * intros Hlen. pose proof (length_foldl_Set_add_le l acc). lia.
      * intros [_ Hd]. destruct (Hd x); [left|done].
    + pose proof (IH (acc ++ [x])) as IH'.
      rewrite length_app in IH'. simpl in IH'. rewrite NoDup_cons. split.
      * intros Hlen. destruct IH' as [[Hnd Hd] _]; [lia|]. split_and!.
        -- intros Hxl. apply (Hd x Hxl). apply elem_of_app. right. by left.
        -- done.
        -- intros y [->|Hy]%elem_of_cons; [done|].
           intros Hacc. apply (Hd y Hy). apply elem_of_app. by left.
      * intros [[Hxl Hnd] Hd]. destruct IH' as [_ IH'].
        rewrite IH'; [lia|]. split; [done|].
        intros y Hy [Hacc| ->%list_elem_of_singleton]%elem_of_app; [|done].
        apply (Hd y); [by right|done].
Qed.

Lemma length_Set_from l :
  length (Set_from l) = length l ↔ NoDup l.
Proof.
  unfold Set_from. rewrite (length_foldl_Set_add l []). simpl.
  split; [by intros [? _]|]. intros ?. split; [done|].
  by intros ? _ ?%elem_of_nil.
Qed.

Lemma elem_of_Set_from l y : y ∈ Set_from l ↔ y ∈ l.
Proof.
  unfold Set_from. rewrite elem_of_foldl_Set_add, elem_of_nil. tauto.
Qed.

Lemma NoDup_Set_from l : NoDup (Set_from l).
Proof. apply NoDup_foldl_Set_add. constructor. Qed.

Lemma foldl_Set_add_fresh l acc :
  NoDup l → (∀ x, x ∈ l → x ∉ acc) → foldl Set_add acc l = acc ++ l.
Proof.
  revert acc. induction l as [|x l IH]; intros acc Hnd Hd; simpl.
  - by rewrite app_nil_r.
  - apply NoDup_cons in Hnd as [Hx Hnd]. unfold Set_add at 2.
    rewrite bool_decide_eq_false_2 by (apply Hd; left).
    rewrite IH, <- app_assoc; [done|done|].
    intros y Hy [Hacc| ->%list_elem_of_singleton]%elem_of_app; [|done].
    apply (Hd y); [by right|done].
Qed.

Lemma Set_from_NoDup l : NoDup l → Set_from l = l.
Proof.
  intros Hnd. unfold Set_from. rewrite foldl_Set_add_fresh; [done|done|].
  by intros ? _ ?%elem_of_nil.
Qed.

End SetFacts.

(** ** Two-round fixtures: validation and mirroring *)

Section TwoRound.
Import JS Fixtures Props.

Lemma nonempty_false s : nonempty s = false ↔ s = "".
Proof.
  unfold nonempty. rewrite negb_false_iff. apply String.eqb_eq.
Qed.

Lemma incomplete_test d :
  negb (nonempty (home_team_id d)) || negb (nonempty (away_team_id d)) = true
  ↔ incomplete d.
Proof.
  unfold incomplete.
  rewrite orb_true_iff, !negb_true_iff, !nonempty_false. done.
Qed.

Lemma self_paired_test d :
  String.eqb (home_team_id d) (away_team_id d) = true ↔ self_paired d.
Proof. apply String.eqb_eq. Qed.

Lemma validate_incomplete d rest :
  incomplete d →
  validate (d :: rest) = Some (IncompletePairing (match_number d)).
Proof. intros H%incomplete_test. simpl. by rewrite H. Qed.

Lemma validate_self d rest :
  ¬ incomplete d → self_paired d →
  validate (d :: rest) = Some (SelfPairing (match_number d)).
Proof.
  intros Hi Hs%self_paired_test. simpl. rewrite Hs.
  destruct (negb _ || negb _) eqn:E; [|done].
  by apply incomplete_test in E.
Qed.

Lemma validate_pass d rest :
  well_formed d → validate (d :: rest) = validate rest.
Proof.
  intros [Hi Hs]. simpl.
  destruct (negb _ || negb _) eqn:E; [by apply incomplete_test in E|].
  destruct (String.eqb _ _) eqn:E'; [by apply self_paired_test in E'|done].
Qed.

Lemma draft_cases d :
  incomplete d ∨ (¬ incomplete d ∧ self_paired d) ∨ well_formed d.
Proof.
  unfold well_formed, incomplete, self_paired.
  destruct (decide (home_team_id d = "")); [tauto|].
  destruct (decide (away_team_id d = "")); [tauto|].
  destruct (decide (home_team_id d = away_team_id d)); tauto.
Qed.

Lemma validate_None cleaned :
  validate cleaned = None ↔ Forall well_formed cleaned.
Proof.
  induction cleaned as [|d rest IH]; [by split; [constructor|]|].
  destruct (draft_cases d) as [Hi|[[Hi Hs]|Hw]].
  - rewrite validate_incomplete by done. split; [done|].
    intros [[? _] _]%Forall_cons. done.
  - rewrite validate_self by done. split; [done|].
    intros [[_ ?] _]%Forall_cons. done.
  - rewrite validate_pass, IH, Forall_cons by done. tauto.
Qed.

Lemma validate_IncompletePairing cleaned m :
  validate cleaned = Some (IncompletePairing m)
  ↔ ∃ pre d post, cleaned = pre ++ d :: post ∧ Forall well_formed pre
                  ∧ incomplete d ∧ match_number d = m.
Proof.
  induction cleaned as [|d rest IH].
  - split; [done|]. intros (pre & ? & ? & E & _). by destruct pre.
  - destruct (draft_cases d) as [Hi|[[Hi Hs]|Hw]].
    + rewrite validate_incomplete by done. split.
      * intros [= <-]. exists [], d, rest. by repeat split.
      * intros ([|d' pre] & d0 & post & E & Hpre & Hd & <-);
          simplify_eq/=; [done|].
        apply Forall_cons in Hpre as [[? _] _]. done.
    + rewrite validate_self by done. split; [done|].
      intros ([|d' pre] & d0 & post & E & Hpre & Hd & <-);
        simplify_eq/=; [done|].
      apply Forall_cons in Hpre as [[_ ?] _]. done.
    + rewrite validate_pass, IH by done. split.
      * intros (pre & d0 & post & -> & Hpre & Hd & <-).
        exists (d :: pre), d0, post. repeat split; try done.
        by constructor.
      * intros ([|d' pre] & d0 & post & E & Hpre & Hd & <-);
          simplify_eq/=; [by destruct Hw|].
        apply Forall_cons in Hpre as [_ Hpre]. by exists pre, d0, post.
Qed.

Lemma validate_SelfPairing cleaned m :
  validate cleaned = Some (SelfPairing m)
  ↔ ∃ pre d post, cleaned = pre ++ d :: post ∧ Forall well_formed pre
                  ∧ ¬ incomplete d ∧ self_paired d ∧ match_number d = m.
Proof.
  induction cleaned as [|d rest IH].
  - split; [done|]. intros (pre & ? & ? & E & _). by destruct pre.
  - destruct (draft_cases d) as [Hi|[[Hi Hs]|Hw]].
    + rewrite validate_incomplete by done. split; [done|].
      intros ([|d' pre] & d0 & post & E & Hpre & Hd & _);
        simplify_eq/=; [done|].
      apply Forall_cons in Hpre as [[? _] _]. done.
    + rewrite validate_self by done. split.
      * intros [= <-]. exists [], d, rest. by repeat split.
      * intros ([|d' pre] & d0 & post & E & Hpre & Hd & ? & <-);
          simplify_eq/=; [done|].
        apply Forall_cons in Hpre as [[_ ?] _]. done.
    + rewrite validate_pass, IH by done. split.
      * intros (pre & d0 & post & -> & Hpre & Hd & ? & <-).
        exists (d :: pre), d0, post. repeat split; try done.
        by constructor.
      * intros ([|d' pre] & d0 & post & E & Hpre & Hd & ? & <-);
          simplify_eq/=; [by destruct Hw|].
        apply Forall_cons in Hpre as [_ Hpre]. by exists pre, d0, post.
Qed.

Lemma validate_not_duplicate cleaned :
  validate cleaned ≠ Some DuplicateTeamUsage.
Proof.
  induction cleaned as [|d rest IH]; [done|]. simpl.
  repeat case_match; done.
Qed.

Lemma uniq_test l :
  negb (length (uniq l) =? length l)%nat = true ↔ ¬ NoDup l.
Proof.
  rewrite negb_true_iff, Nat.eqb_neq. unfold uniq.
  by rewrite length_Set_from.
Qed.

Lemma not_well_formed_Exists cleaned :
  Exists incomplete cleaned ∨ Exists self_paired cleaned →
  ¬ Forall well_formed cleaned.
Proof.
  intros [H|H] Hall; apply Exists_exists in H as (d & Hd & Hbad);
    apply (proj1 (Forall_forall _ _) Hall) in Hd as [? ?]; done.
Qed.

Lemma trim_empty : trim "" = "".
Proof. reflexivity. Qed.

Lemma homes_NoDup cleaned :
  NoDup (used cleaned) → NoDup (map home_team_id cleaned).
Proof.
  induction cleaned as [|d rest IH]; simpl; [constructor|].
  intros [Hh [_ Hrest]%NoDup_cons]%NoDup_cons. constructor; [|by apply IH].
  intros (d' & E & Hd')%list_elem_of_fmap. apply Hh. right.
  unfold used. apply list_elem_of_In, in_flat_map.
  exists d'. split; [by apply list_elem_of_In|]. left. done.
Qed.

Lemma filter_none {A} (p : A → bool) l :
  (∀ z, z ∈ l → p z = false) → List.filter p l = [].
Proof.
  induction l as [|y l IH]; simpl; [done|]. intros H.
  rewrite (H y) by left. apply IH. intros z Hz. apply H. by right.
Qed.

Lemma filter_length_one {A B} (f : A → B) (p : A → bool) l x :
  NoDup (map f l) → x ∈ l → p x = true →
  (∀ y, y ∈ l → p y = true → f y = f x) →
  length (List.filter p l) = 1%nat.
Proof.
  induction l as [|y l IH]; simpl; [by intros _ ?%elem_of_nil|].
  intros [Hy Hnd]%NoDup_cons Hx Hpx Hsame.
  destruct (p y) eqn:Hpy.
  - assert (f y = f x) as Hfy by (apply Hsame; [left|done]).
    enough (List.filter p l = []) as -> by done.
    apply filter_none. intros z Hz.
    destruct (p z) eqn:Hpz; [|done]. exfalso. apply Hy.
    rewrite Hfy, <- (Hsame z); [|by right|done].
    by apply list_elem_of_fmap_2.
  - apply elem_of_cons in Hx as [->|Hx]; [congruence|].
    apply IH; try done. intros z Hz. apply Hsame. by right.
Qed.

Lemma filter_map_length {A B} (g : A → B) (p : B → bool) l :
  length (List.filter p (map g l)) = length (List.filter (λ a, p (g a)) l).
Proof.
  induction l as [|a l IH]; simpl; [done|].
  destruct (p (g a)); simpl; by rewrite IH.
Qed.

End TwoRound.

Section TwoRoundClaims.
Import JS Fixtures Props Samples.

Lemma save_result_cases db tid drafts :
  let cleaned := map clean drafts in
  saveRound1AndGenerateRound2 db tid drafts =
    match validate cleaned with
    | Some e => (inl e, db)
    | None =>
        if decide (NoDup (used cleaned)) then
          (inr true,
           delete_tournament tid db
           ++ (round1Rows tid cleaned ++ round2Rows tid cleaned))
        else (inl DuplicateTeamUsage, db)
    end.
Proof.
  intros cleaned. unfold saveRound1AndGenerateRound2. fold cleaned.
  destruct (validate cleaned); [done|].
  destruct (negb _) eqn:E.
  - apply uniq_test in E. by rewrite decide_False.
  - rewrite decide_True; [done|].
    destruct (decide (NoDup (used cleaned))) as [|Hn]; [done|].
    apply uniq_test in Hn. congruence.
Qed.

(** C6. When the drafts are accepted, the table holds the other
    tournaments' rows, then the round-1 fixtures (one per draft, in
    order, round 1, source manual), then the round-2 fixtures (round 2,
    source auto_reverse); and for each round-1 fixture exactly one
    round-2 fixture has the same match number with home and away
    swapped. *)
Theorem two_round_mirror db tid drafts db' :
  saveRound1AndGenerateRound2 db tid drafts = (inr true, db') →
  let cleaned := map clean drafts in
  let r1 := round1Rows tid cleaned in
  let r2 := round2Rows tid cleaned in
  db' = delete_tournament tid db ++ (r1 ++ r2)
  ∧ map (λ f, (f_match_number f, f_home_team_id f, f_away_team_id f)) r1
    = map (λ d, (match_number d, Some (home_team_id d),
                 Some (away_team_id d))) cleaned
  ∧ Forall (λ f, f_tournament_id f = tid ∧ f_round_number f = 1
                 ∧ f_is_bye f = false ∧ f_source f = manual) r1
  ∧ Forall (λ f, f_tournament_id f = tid ∧ f_round_number f = 2
                 ∧ f_is_bye f = false ∧ f_source f = auto_reverse) r2
  ∧ ∀ f1, f1 ∈ r1 → length (List.filter (is_return f1) r2) = 1%nat.
Proof.
  intros Hsave cleaned r1 r2. rewrite save_result_cases in Hsave.
  fold cleaned in Hsave.
  destruct (validate cleaned) eqn:Hval; [done|].
  destruct (decide (NoDup (used cleaned))) as [Hnd|]; [|done].
  injection Hsave as <-. split_and!.
  - done.
  - unfold r1, round1Rows. rewrite <- list_fmap_compose. done.
  - unfold r1, round1Rows. apply Forall_fmap, Forall_true. done.
  - unfold r2, round2Rows. apply Forall_fmap, Forall_true. done.
  - intros f1 (d & -> & Hd)%list_elem_of_fmap.
    unfold r2, round2Rows. rewrite filter_map_length.
    apply (filter_length_one home_team_id _ _ d).
    + by apply homes_NoDup.
    + done.
    + unfold is_return. by rewrite bool_decide_eq_true.
    + intros y _. unfold is_return. rewrite bool_decide_eq_true. simpl.
      intros (_ & _ & ?). congruence.
Qed.

Lemma two_round_mirror_witness :
  map (λ f, (f_round_number f, f_match_number f,
             f_home_team_id f, f_away_team_id f))
    (round2Rows "T" (map clean [draft_AB; draft_CD]))
  = [(2, 1, Some "B", Some "A"); (2, 2, Some "D", Some "C")]
  ∧ ∀ f1, f1 ∈ round1Rows "T" (map clean [draft_AB; draft_CD]) →
      length (List.filter (is_return f1)
                (round2Rows "T" (map clean [draft_AB; draft_CD]))) = 1%nat.
Proof.
  split; [reflexivity|].
  apply (two_round_mirror [] "T" [draft_AB; draft_CD] _ eq_refl).
Defined.

(** C7, as the code has it. A draft list with an empty home or away id,
    with a team paired against itself, or with a team id used twice is
    refused, and the table is then exactly what it was. The error is
    that of the first draft that fails the loop (incomplete pairing if
    an id is empty, else self-pairing); duplicate team usage is reported
    when every draft passes the loop and some id occurs twice. *)
Theorem two_round_rejection db tid drafts :
  let cleaned := map clean drafts in
  let res := saveRound1AndGenerateRound2 db tid drafts in
  (Exists incomplete cleaned ∨ Exists self_paired cleaned
   ∨ ¬ NoDup (used cleaned) ↔ ∃ e, res = (inl e, db))
  ∧ (∀ e, res.1 = inl e → res.2 = db)
  ∧ (∀ m, res.1 = inl (IncompletePairing m)
          ↔ ∃ pre d post, cleaned = pre ++ d :: post
              ∧ Forall well_formed pre ∧ incomplete d ∧ match_number d = m)
  ∧ (∀ m, res.1 = inl (SelfPairing m)
          ↔ ∃ pre d post, cleaned = pre ++ d :: post
              ∧ Forall well_formed pre ∧ ¬ incomplete d ∧ self_paired d
              ∧ match_number d = m)
  ∧ (res.1 = inl DuplicateTeamUsage
     ↔ Forall well_formed cleaned ∧ ¬ NoDup (used cleaned))
  ∧ (∀ d, d ∈ drafts →
       or_empty (d_home_team_id d) = "" ∨ or_empty (d_away_team_id d) = "" →
       incomplete (clean d)).
Proof.
  intros cleaned res. unfold res. rewrite save_result_cases. fold cleaned.
  pose proof (validate_None cleaned) as HNone.
  pose proof (validate_not_duplicate cleaned) as Hnodup.
  split_and!.
  - destruct (validate cleaned) as [e|] eqn:Hval.
    + split; [by eexists|]. intros _.
      destruct (decide (Forall well_formed cleaned)) as [Hw|Hw];
        [apply HNone in Hw; done|].
      apply not_Forall_Exists in Hw; [|intros d; unfold well_formed,
        incomplete, self_paired; apply _].
      apply Exists_exists in Hw as (d & Hd & Hbad).
      destruct (draft_cases d) as [Hi|[[Hi Hs]|Hwf]]; [| |done].
      * left. apply Exists_exists. eauto.
      * right; left. apply Exists_exists. eauto.
    + destruct (decide (NoDup (used cleaned))) as [Hnd|Hnd].
      * split; [|by intros [? ?]]. intros [H|[H|H]]; [| |done];
          exfalso; eapply not_well_formed_Exists; eauto; by apply HNone.
      * split; [by eexists|]. tauto.
  - intros e. destruct (validate cleaned); [done|].
    by destruct (decide _).
  - intros m. rewrite <- validate_IncompletePairing.
    destruct (validate cleaned) as [e|]; simpl.
    + split; congruence.
    + destruct (decide _); simpl; split; congruence.
  - intros m. rewrite <- validate_SelfPairing.
    destruct (validate cleaned) as [e|]; simpl.
    + split; congruence.
    + destruct (decide _); simpl; split; congruence.
  - rewrite <- HNone. destruct (validate cleaned) as [e|]; simpl.
    + split; [|by intros [? _]]. intros [= ->]. done.
    + destruct (decide _); simpl; split; try done. by intros [_ ?].
  - intros d _ [H|H]; [left|right]; simpl; rewrite H; apply trim_empty.
Qed.

Lemma two_round_rejection_witness :
  (saveRound1AndGenerateRound2 [stored_row] "T" [draft_CD; draft_blank]).1
    = inl (IncompletePairing 2)
  ∧ (saveRound1AndGenerateRound2 [stored_row] "T" [draft_CD; draft_AA]).1
    = inl (SelfPairing 3)
  ∧ (saveRound1AndGenerateRound2 [stored_row] "T" [draft_AB; draft_AB]).1
    = inl DuplicateTeamUsage
  ∧ (saveRound1AndGenerateRound2 [stored_row] "T" [draft_AB; draft_AB]).2
    = [stored_row].
Proof.
  split_and!.
  - apply (two_round_rejection [stored_row] "T" [draft_CD; draft_blank]).
    exists [clean draft_CD], (clean draft_blank), [].
    split_and!; [reflexivity| |by left|reflexivity].
    apply (bool_decide_unpack _). by vm_compute.
  - apply (two_round_rejection [stored_row] "T" [draft_CD; draft_AA]).
    exists [clean draft_CD], (clean draft_AA), [].
    split_and!; [reflexivity| | |reflexivity|reflexivity];
      apply (bool_decide_unpack _); by vm_compute.
  - apply (two_round_rejection [stored_row] "T" [draft_AB; draft_AB]).
    split; apply (bool_decide_unpack _); by vm_compute.
  - eapply (two_round_rejection [stored_row] "T" [draft_AB; draft_AB]).
    reflexivity.
Defined.

(** C7 as stated fails in the error that it names for a list: the
    drafts are checked one after the other, both tests on each, and the
    first draft that fails decides. A list that contains an empty id is
    refused as a self-pairing when a self-paired draft stands before the
    draft with the empty id, and a list in which a team is used twice is
    refused as an incomplete pairing when it also holds a draft with an
    empty id. *)
Lemma two_round_rejection_first_failure :
  Exists incomplete (map clean [draft_AA; draft_blank])
  ∧ saveRound1AndGenerateRound2 [stored_row] "T" [draft_AA; draft_blank]
    = (inl (SelfPairing 3), [stored_row])
  ∧ ¬ NoDup (used (map clean [draft_AB; draft_AB; draft_blank]))
  ∧ saveRound1AndGenerateRound2 [stored_row] "T"
      [draft_AB; draft_AB; draft_blank]
    = (inl (IncompletePairing 2), [stored_row]).
Proof.
  split_and!.
  - apply Exists_cons_tl, Exists_cons_hd. by left.
  - reflexivity.
  - apply (bool_decide_unpack _). by vm_compute.
  - reflexivity.
Qed.

End TwoRoundClaims.

(** ** The draw: shuffle and assignment *)

Section Draw.
Import JS Dashboard Props.

Lemma insert_swap_head {A} (a : list A) j x y :
  a !! j = Some y → x :: a ≡ₚ y :: <[j := x]> a.
Proof.
  revert j. induction a as [|z a IH]; intros [|j] Hj; simplify_eq/=.
  - apply perm_swap.
  - rewrite perm_swap. rewrite (IH j Hj). apply perm_swap.
Qed.

Lemma swap_Permutation {A} (a : list A) i j : swap a i j ≡ₚ a.
Proof.
  unfold swap. destruct (a !! i) as [ai|] eqn:Hi; [|done].
  destruct (a !! j) as [aj|] eqn:Hj; [|done].
  revert i j Hi Hj.
  induction a as [|z a IH]; intros [|i] [|j] Hi Hj; simplify_eq/=.
  - done.
  - symmetry. by apply insert_swap_head.
  - symmetry. by apply insert_swap_head.
  - by rewrite IH.
Qed.

Lemma shuffle_loop_Permutation {A} random i (a : list A) :
  shuffle_loop random i a ≡ₚ a.
Proof.
  revert a. induction i as [|i IH]; intros a; simpl; [done|].
  by rewrite IH, swap_Permutation.
Qed.

Lemma shuffle_Permutation {A} random (arr : list A) :
  shuffle random arr ≡ₚ arr.
Proof. apply shuffle_loop_Permutation. Qed.

(** With [random i ≤ i] every exchange of the loop is in range. *)
Lemma swap_in_range {A} (a : list A) i j :
  (j ≤ i)%nat → (i < length a)%nat →
  ∃ ai aj, a !! i = Some ai ∧ a !! j = Some aj
           ∧ swap a i j = <[j := ai]> (<[i := aj]> a).
Proof.
  intros Hji Hi.
  destruct (lookup_lt_is_Some_2 a i Hi) as [ai Hai].
  destruct (lookup_lt_is_Some_2 a j) as [aj Haj]; [lia|].
  exists ai, aj. unfold swap. by rewrite Hai, Haj.
Qed.

Lemma assign_by_index tid (ps : list PlayerRow) :
  ∀ (ts : list TournamentTeamRow) (get : nat → option TournamentTeamRow)
    (f : nat → nat),
    (∀ i, get (f i) = ts !! i) →
    flat_map
      (λ '(idx, p),
         match get idx with
         | Some t => [assignment tid p t]
         | None => []
         end)
      (imap (λ idx p, (f idx, p)) ps)
    = zip_with (assignment tid) ps ts.
Proof.
  induction ps as [|p ps IH]; intros ts get f Hget; [done|].
  rewrite imap_cons. simpl. rewrite (Hget 0%nat).
  destruct ts as [|t ts]; simpl.
  - transitivity (zip_with (assignment tid) ps []); [|by destruct ps].
    apply (IH [] get (f ∘ S)).
    intros i. simpl. by rewrite Hget.
  - f_equal. apply (IH ts get (f ∘ S)).
    intros i. simpl. by rewrite Hget.
Qed.

Lemma zip_with_take_l {A B C} (g : A → B → C) (l : list A) (k : list B) :
  zip_with g (take (length k) l) k = zip_with g l k.
Proof.
  revert l. induction k as [|y k IH]; intros [|x l]; simpl; try done.
  by rewrite IH.
Qed.

Lemma draw_rows_zip random tid ps teams :
  draw_rows random tid ps teams
  = zip_with (assignment tid) ps (take (length ps) (shuffle random teams)).
Proof.
  unfold draw_rows.
  set (shuffledTeams := take (length ps) (shuffle random teams)).
  etrans; [|apply zip_with_take_l].
  apply (assign_by_index tid (take (length shuffledTeams) ps) shuffledTeams
           (λ i, shuffledTeams !! i) id).
  done.
Qed.

Lemma filter_fmap_NoDup {A B} (f : A → B) (p : A → bool) l :
  NoDup (map f l) → NoDup (map f (List.filter p l)).
Proof.
  induction l as [|x l IH]; simpl; [done|].
  intros [Hx Hnd]%NoDup_cons. destruct (p x); simpl; [|by apply IH].
  constructor; [|by apply IH].
  intros (y & E & Hy%list_elem_of_In%filter_In)%list_elem_of_fmap.
  apply Hx. rewrite E. apply list_elem_of_fmap_2.
  apply list_elem_of_In. tauto.
Qed.

(** The rows of a draw between enough teams: one per player, in the
    order of the players, over distinct teams of the pool. *)
Lemma draw_rows_bijective random tid ps teams :
  (length ps ≤ length teams)%nat →
  NoDup (map tt_team_id teams) →
  let rows := draw_rows random tid ps teams in
  map tp_player_email rows = map p_email ps
  ∧ NoDup (map tp_team_id rows)
  ∧ (∀ r, r ∈ rows → tp_team_id r ∈ map tt_team_id teams)
  ∧ Forall (λ r, tp_tournament_id r = tid) rows.
Proof.
  intros Hlen Hnd rows. unfold rows. rewrite draw_rows_zip.
  set (ts := take (length ps) (shuffle random teams)).
  assert (length ts = length ps) as Hts.
  { unfold ts. rewrite length_take.
    rewrite (Permutation_length (shuffle_Permutation random teams)). lia. }
  assert (map tp_team_id (zip_with (assignment tid) ps ts)
          = map tt_team_id ts) as Hteams.
  { revert Hts. generalize ts. clear.
    induction ps as [|p ps IH]; intros [|t ts] Hl; simplify_eq/=; [done|].
    f_equal. by apply IH. }
  assert (map tt_team_id ts `sublist_of` map tt_team_id (shuffle random teams))
    as Hsub.
  { unfold ts. apply (fmap_sublist tt_team_id), sublist_take. }
  assert (map tt_team_id (shuffle random teams) ≡ₚ map tt_team_id teams)
    as Hperm by (apply fmap_Permutation, shuffle_Permutation).
  split_and!.
  - revert Hts. generalize ts. clear.
    induction ps as [|p ps IH]; intros [|t ts] Hl; simplify_eq/=; [done|].
    f_equal. by apply IH.
  - rewrite Hteams. eapply sublist_NoDup; [|exact Hsub]. by rewrite Hperm.
  - intros r Hr. rewrite <- Hperm. eapply elem_of_sublist; [|exact Hsub].
    rewrite <- Hteams. by apply list_elem_of_fmap_2.
  - generalize ts. clear. induction ps as [|p ps IH]; intros [|t l];
      simpl; constructor; [done|apply IH].
Qed.

Lemma onlyPlayers_NoDup ps :
  NoDup (map p_email ps) → NoDup (map p_email (onlyPlayers ps)).
Proof. apply filter_fmap_NoDup. Qed.

(** C5. With the gate locked, the draw refuses a roster of fewer than
    two players and a pool smaller than the roster (the latter with the
    not-enough-teams message), writing nothing; otherwise it replaces
    the tournament's assignments by one row per player, in roster order,
    with no player and no team repeated and every team taken from the
    pool. *)
Theorem draw_assignment random st :
  isAdmin (role st) = true →
  truthy (activeTournamentId st) = true →
  rosterLocked st = true →
  (∀ i, random i ≤ i)%nat →
  NoDup (map p_email (players st)) →
  NoDup (map tt_team_id (tournamentTeams st)) →
  let ps := onlyPlayers (players st) in
  let tid := or_empty (activeTournamentId st) in
  let st' := drawTeamsForTournament random st in
  ((length ps < 2)%nat →
     tpMsg st' = Some msg_two_players
     ∧ tournament_players st' = tournament_players st)
  ∧ ((2 ≤ length ps)%nat → (length (tournamentTeams st) < length ps)%nat →
     tpMsg st' = Some msg_not_enough_teams
     ∧ tournament_players st' = tournament_players st)
  ∧ ((2 ≤ length ps)%nat → (length ps ≤ length (tournamentTeams st))%nat →
     ∃ rows,
       tournament_players st'
       = List.filter (λ r, negb (String.eqb (tp_tournament_id r) tid))
           (tournament_players st) ++ rows
       ∧ length rows = length ps
       ∧ map tp_player_email rows = map p_email ps
       ∧ NoDup (map tp_player_email rows)
       ∧ NoDup (map tp_team_id rows)
       ∧ (∀ r, r ∈ rows →
            tp_team_id r ∈ map tt_team_id (tournamentTeams st))
       ∧ Forall (λ r, tp_tournament_id r = tid) rows).
Proof.
  intros Hadmin Hactive Hlocked Hrandom Hps Hteams ps tid st'.
  unfold st', drawTeamsForTournament.
  rewrite Hadmin, Hactive, Hlocked. simpl. fold ps.
  split_and!.
  - intros Hlt. apply Nat.ltb_lt in Hlt. rewrite Hlt. done.
  - intros Hge Hlt. apply Nat.ltb_ge in Hge. apply Nat.ltb_lt in Hlt.
    rewrite Hge, Hlt. done.
  - intros Hge Hle. apply Nat.ltb_ge in Hge. apply Nat.ltb_ge in Hle.
    rewrite Hge, Hle. simpl. fold tid.
    apply Nat.ltb_ge in Hle.
    destruct (draw_rows_bijective random tid ps (tournamentTeams st) Hle Hteams)
      as (Hemails & Hnd & Hpool & Htid).
    exists (draw_rows random tid ps (tournamentTeams st)).
    split; [reflexivity|]. split_and!; try done.
    + apply (f_equal length) in Hemails.
      by rewrite !length_map in Hemails.
    + rewrite Hemails. by apply onlyPlayers_NoDup.
Qed.

Lemma draw_assignment_witness :
  ∃ rows,
    tournament_players
      (drawTeamsForTournament Samples.always_first
         (Samples.admin_state Samples.two_players true)) = rows
    ∧ map tp_player_email rows = ["ana@x"; "bo@x"]
    ∧ NoDup (map tp_team_id rows).
Proof.
  destruct (draw_assignment Samples.always_first
              (Samples.admin_state Samples.two_players true))
    as (_ & _ & H).
  - reflexivity.
  - reflexivity.
  - reflexivity.
  - intros i. unfold Samples.always_first. lia.
  - apply (bool_decide_unpack _). by vm_compute.
  - apply (bool_decide_unpack _). by vm_compute.
  - destruct H as (rows & Htable & _ & Hemails & _ & Hnd & _).
    + vm_compute. lia.
    + vm_compute. lia.
    + eexists. split; [exact Htable|]. split; [|exact Hnd]. exact Hemails.
Defined.

(** C8. The gate moves from unlocked to locked only with at least two
    players of role player; a locking attempt by the administrator with
    fewer fails with the roster-too-small message and leaves the gate as
    it was. While the gate is unlocked the draw writes no assignment,
    and for the administrator of an active tournament it fails with the
    roster-not-locked message. *)
Theorem roster_gate confirm random st :
  (rosterLocked st = false →
   rosterLocked (lockRoster confirm st) = true →
   (2 ≤ length (onlyPlayers (players st)))%nat)
  ∧ (isAdmin (role st) = true → truthy (activeTournamentId st) = true →
     (length (onlyPlayers (players st)) < 2)%nat →
     tpMsg (lockRoster confirm st) = Some msg_roster_too_small
     ∧ rosterLocked (lockRoster confirm st) = rosterLocked st
     ∧ localStorage (lockRoster confirm st) = localStorage st)
  ∧ (rosterLocked st = false →
     tournament_players (drawTeamsForTournament random st)
     = tournament_players st
     ∧ tournamentPlayers (drawTeamsForTournament random st)
       = tournamentPlayers st
     ∧ rosterLocked (drawTeamsForTournament random st) = false
     ∧ (isAdmin (role st) = true → truthy (activeTournamentId st) = true →
        tpMsg (drawTeamsForTournament random st)
        = Some msg_roster_not_locked)).
Proof.
  split_and!.
  - intros Hun. unfold lockRoster.
    destruct (negb (isAdmin (role st))); [congruence|].
    destruct (negb (truthy (activeTournamentId st))); [congruence|].
    destruct (length (onlyPlayers (players st)) <? 2)%nat eqn:Hlt.
    + simpl. congruence.
    + intros _. by apply Nat.ltb_ge in Hlt.
  - intros Hadmin Hactive Hlt%Nat.ltb_lt. unfold lockRoster.
    rewrite Hadmin, Hactive, Hlt. done.
  - intros Hun. unfold drawTeamsForTournament.
    destruct (isAdmin (role st)); simpl; [|by rewrite Hun].
    destruct (truthy (activeTournamentId st)); simpl; [|by rewrite Hun].
    rewrite Hun. done.
Qed.

Lemma roster_gate_witness :
  tpMsg (lockRoster true (Samples.admin_state [Samples.player "ana@x"] false))
    = Some msg_roster_too_small
  ∧ rosterLocked
      (lockRoster true (Samples.admin_state Samples.two_players false)) = true
  ∧ (2 ≤ length (onlyPlayers Samples.two_players))%nat
  ∧ tpMsg (drawTeamsForTournament Samples.always_first
             (Samples.admin_state Samples.two_players false))
    = Some msg_roster_not_locked
  ∧ tournament_players
      (drawTeamsForTournament Samples.always_first
         (Samples.admin_state Samples.two_players false))
    = [Samples.old_assignment].
Proof.
  pose proof (roster_gate true Samples.always_first
                (Samples.admin_state [Samples.player "ana@x"] false))
    as (_ & Hsmall & _).
  pose proof (roster_gate true Samples.always_first
                (Samples.admin_state Samples.two_players false))
    as (Honly & _ & Hdraw).
  split_and!.
  - apply Hsmall; [reflexivity|reflexivity|vm_compute; lia].
  - reflexivity.
  - apply Honly; reflexivity.
  - apply Hdraw; reflexivity.
  - apply Hdraw; reflexivity.
Defined.

End Draw.

(** ** Recording a result *)

Section Result.
Import JS Dashboard Props.















End Result.

(** ** Standings *)

Section MapFacts.
Import JS Dashboard Props.

Lemma Map_get_tab R ids k :
  Map_get (tab R ids) k = if decide (k ∈ ids) then Some (R k) else None.
Proof.
  induction ids as [|id ids IH]; simpl; [done|].
  destruct (String.eqb id k) eqn:E.
  - apply String.eqb_eq in E as ->. rewrite decide_True; [done|left].
  - apply String.eqb_neq in E. rewrite IH.
    destruct (decide (k ∈ ids)) as [Hin|Hin].
    + rewrite decide_True; [done|by right].
    + rewrite decide_False; [done|].
      intros [->|?]%elem_of_cons; done.
Qed.

Lemma Map_modify_tab f k R ids :
  NoDup ids →
  Map_modify f k (tab R ids)
  = tab (λ id, when (String.eqb id k) f (R id)) ids.
Proof.
  induction ids as [|id ids IH]; simpl; [done|].
  intros [Hid Hnd]%NoDup_cons.
  destruct (String.eqb id k) eqn:E.
  - apply String.eqb_eq in E as ->. f_equal.
    unfold tab. apply map_ext_in. intros id Hin%list_elem_of_In.
    destruct (String.eqb id k) eqn:E'; [|done].
    apply String.eqb_eq in E' as ->. done.
  - f_equal. by apply IH.
Qed.

Lemma tab_ext R R' ids :
  (∀ id, id ∈ ids → R id = R' id) → tab R ids = tab R' ids.
Proof.
  intros H. unfold tab. apply map_ext_in.
  intros id Hin%list_elem_of_In. by rewrite H.
Qed.

Lemma Map_values_tab R ids : Map_values (tab R ids) = map R ids.
Proof. unfold Map_values, tab. by rewrite map_map. Qed.

Lemma Map_set_fresh (m : list (string * StandingRow)) k v :
  k ∉ map fst m → Map_set m k v = m ++ [(k, v)].
Proof.
  induction m as [|[k' v'] m IH]; simpl; [done|].
  intros Hk. destruct (String.eqb k' k) eqn:E.
  - apply String.eqb_eq in E as ->. destruct Hk. left.
  - f_equal. apply IH. intros ?. apply Hk. by right.
Qed.

Lemma seed_tab byId ids :
  NoDup ids → seed byId ids = tab (zero_row byId) ids.
Proof.
  intros Hnd. unfold seed.
  enough (∀ acc, (∀ id, id ∈ ids → id ∉ map fst acc) →
            foldl (λ m teamId, Map_set m teamId (zero_row byId teamId)) acc ids
            = acc ++ tab (zero_row byId) ids) as H.
  { apply (H []). intros ? _ ?%elem_of_nil. done. }
  induction Hnd as [|id ids Hid Hnd IH]; intros acc Hacc; simpl.
  - by rewrite app_nil_r.
  - rewrite Map_set_fresh by (apply Hacc; left).
    rewrite IH, <- app_assoc; [done|].
    intros id' Hin. rewrite map_app, elem_of_app. simpl.
    intros [?| ->%list_elem_of_singleton]; [|done].
    apply (Hacc id'); [by right|done].
Qed.

End MapFacts.

Section StandingsFacts.
Import JS Dashboard Props.

Lemma eqb_swap a b : String.eqb a b = String.eqb b a.
Proof. apply String.eqb_sym. Qed.

Lemma counted_false_skip m R ids :
  counted ids m = false → apply_match m (tab R ids) = tab R ids.
Proof.
  unfold counted, apply_match. intros Hc.
  destruct (truthy (m_home_team_id m)); simpl in *; [|done].
  destruct (truthy (m_away_team_id m)); simpl in *; [|done].
  destruct (isPlayed m); simpl in *; [|done].
  destruct (m_player1_score m) as [s1|]; [|done].
  destruct (m_player2_score m) as [s2|]; [|done].
  rewrite !Map_get_tab.
  rewrite (bool_decide_eq_true_2 (is_Some (Some s1))) in Hc by eauto.
  rewrite (bool_decide_eq_true_2 (is_Some (Some s2))) in Hc by eauto.
  simpl in Hc.
  destruct (decide (or_empty (m_home_team_id m) ∈ ids)); [|done].
  destruct (decide (or_empty (m_away_team_id m) ∈ ids)); [|done].
  rewrite !bool_decide_eq_true_2 in Hc by done. done.
Qed.

Lemma counted_true_inv m ids :
  counted ids m = true →
  ∃ h a s1 s2,
    m_home_team_id m = Some h ∧ m_away_team_id m = Some a
    ∧ m_player1_score m = Some s1 ∧ m_player2_score m = Some s2
    ∧ truthy (Some h) = true ∧ truthy (Some a) = true ∧ isPlayed m = true
    ∧ h ∈ ids ∧ a ∈ ids.
Proof.
  unfold counted. rewrite !andb_true_iff, !bool_decide_eq_true.
  intros [[[[[[Hh Ha] Hp] [s1 Hs1]] [s2 Hs2]] Hhi] Hai].
  destruct (m_home_team_id m) as [h|]; [|done].
  destruct (m_away_team_id m) as [a|]; [|done].
  exists h, a, s1, s2. done.
Qed.

Lemma counted_true_apply m R ids :
  NoDup ids → counted ids m = true →
  apply_match m (tab R ids) = tab (λ id, credit id m (R id)) ids.
Proof.
  intros Hnd Hc.
  destruct (counted_true_inv m ids Hc)
    as (h & a & s1 & s2 & Hh & Ha & Hs1 & Hs2 & Hth & Hta & Hp & Hhi & Hai).
  unfold apply_match, credit. rewrite Hh, Ha, Hs1, Hs2, Hth, Hta, Hp.
  simpl. rewrite !Map_get_tab, !decide_True by done.
  destruct (Z.ltb_spec s2 s1); [|destruct (Z.ltb_spec s1 s2)];
    rewrite !Map_modify_tab by done; apply tab_ext; intros id _;
    rewrite (eqb_swap h id), (eqb_swap a id);
    destruct (String.eqb id h), (String.eqb id a); unfold when;
    destruct (R id);
    cbv -[Z.add Z.sub Z.ltb Z.eqb Z.lt Z.le];
    repeat match goal with
           | |- context [Z.ltb ?x ?y] => destruct (Z.ltb_spec x y); try lia
           | |- context [Z.eqb ?x ?y] => destruct (Z.eqb_spec x y); try lia
           end;
    f_equal; lia.
Qed.

End StandingsFacts.

Section SortFacts.
Import JS Props.
Context {A : Type} (cmp : A → A → Z).

Lemma sort_insert_Permutation x l : sort_insert cmp x l ≡ₚ x :: l.
Proof.
  induction l as [|y l IH]; simpl; [done|].
  destruct (0 <? cmp x y); [|done].
  rewrite IH. apply perm_swap.
Qed.

Lemma sort_Permutation l : sort cmp l ≡ₚ l.
Proof.
  induction l as [|x l IH]; simpl; [done|].
  by rewrite sort_insert_Permutation, IH.
Qed.

(** Sortedness, for a relation [R] that the comparator decides. *)
Lemma sort_insert_sorted (R : A → A → Prop) x l :
  Transitive R →
  (∀ a b, cmp a b ≤ 0 → R a b) → (∀ a b, 0 < cmp a b → R b a) →
  StronglySorted R l → StronglySorted R (sort_insert cmp x l).
Proof.
  intros Htrans Hle Hgt. induction 1 as [|y l Hl IH Hy]; simpl.
  - repeat constructor.
  - destruct (Z.ltb_spec 0 (cmp x y)) as [Hxy|Hxy].
    + constructor; [done|].
      rewrite sort_insert_Permutation. constructor; [by apply Hgt|done].
    + constructor; [by constructor|].
      constructor; [by apply Hle|].
      eapply Forall_impl; [exact Hy|]. intros z Hz.
      etrans; [by apply Hle|done].
Qed.

Lemma sort_sorted (R : A → A → Prop) l :
  Transitive R →
  (∀ a b, cmp a b ≤ 0 → R a b) → (∀ a b, 0 < cmp a b → R b a) →
  StronglySorted R (sort cmp l).
Proof.
  intros ???. induction l as [|x l IH]; simpl; [constructor|].
  by apply sort_insert_sorted.
Qed.

(** Insertion only moves [x] behind elements that compare strictly
    before it. *)
Lemma sort_insert_before a l x y :
  before x y (sort_insert cmp a l) →
  before x y (a :: l) ∨ (y = a ∧ 0 < cmp a x).
Proof.
  induction l as [|z l IH]; simpl; [by left|].
  destruct (Z.ltb_spec 0 (cmp a z)) as [Haz|Haz]; [|by left].
  inversion 1 as [l' Hy|z' l' Hb]; subst.
  - rewrite sort_insert_Permutation in Hy.
    apply elem_of_cons in Hy as [->|Hy]; [by right|].
    left. apply before_later. by apply before_here.
  - destruct (IH Hb) as [Hb'|?]; [|by right]. left.
    inversion Hb' as [l' Hy|z' l' Hb'']; subst.
    + apply before_here. by right.
    + by do 2 apply before_later.
Qed.

(** Stability: two elements that compare equal keep their order. *)
Lemma sort_stable l x y :
  cmp y x ≤ 0 → before x y (sort cmp l) → before x y l.
Proof.
  intros Hyx. induction l as [|a l IH]; simpl; [done|].
  intros [Hb|[-> ?]]%sort_insert_before; [|lia].
  inversion Hb as [l' Hy|z' l' Hb']; subst.
  - apply before_here. by rewrite sort_Permutation in Hy.
  - apply before_later. by apply IH.
Qed.

Lemma lookup_before (l : list A) i j x y :
  (i < j)%nat → l !! i = Some x → l !! j = Some y → before x y l.
Proof.
  revert i j. induction l as [|z l IH]; intros i j Hij Hi Hj; [done|].
  destruct i as [|i]; simplify_eq/=.
  - destruct j as [|j]; [lia|]. apply before_here.
    simpl in Hj. by eapply list_elem_of_lookup_2.
  - destruct j as [|j]; [lia|]. apply before_later.
    simpl in Hj. apply (IH i j); [lia|done|done].
Qed.

End SortFacts.

Section OrderFacts.
Import JS Props.

Lemma before_fmap {A B} (f : A → B) l (x y : B) :
  before x y (map f l) →
  ∃ a b, x = f a ∧ y = f b ∧ before a b l.
Proof.
  induction l as [|a l IH]; simpl; inversion 1 as [l' Hy|z l' Hb]; subst.
  - apply list_elem_of_fmap in Hy as (b & -> & Hb).
    exists a, b. split_and!; [done|done|by apply before_here].
  - destruct (IH Hb) as (a' & b' & -> & -> & Hb').
    exists a', b'. split_and!; [done|done|by apply before_later].
Qed.

Lemma before_snoc {A} (x y z : A) l :
  before x y (l ++ [z]) → before x y l ∨ (x ∈ l ∧ y = z).
Proof.
  induction l as [|a l IH]; simpl.
  - inversion 1 as [l' Hy|z' l' Hb]; subst.
    + by apply elem_of_nil in Hy.
    + inversion Hb.
  - inversion 1 as [l' Hy|z' l' Hb]; subst.
    + apply elem_of_app in Hy as [Hy| ->%list_elem_of_singleton].
      * left. by apply before_here.
      * right. split; [left|done].
    + destruct (IH Hb) as [?|[? ->]].
      * left. by apply before_later.
      * right. split; [by right|done].
Qed.

Lemma first_index_head x l : first_index x (x :: l) = 0%nat.
Proof. simpl. by rewrite String.eqb_refl. Qed.

Lemma first_index_tail x z l :
  z ≠ x → first_index x (z :: l) = S (first_index x l).
Proof. intros H. simpl. by rewrite (proj2 (String.eqb_neq _ _) H). Qed.

Lemma foldl_Set_add_before l acc x y :
  before x y (foldl Set_add acc l) →
  before x y acc
  ∨ (x ∈ acc ∧ (y ∉ acc))
  ∨ ((x ∉ acc) ∧ (y ∉ acc) ∧ (first_index x l < first_index y l)%nat).
Proof.
  revert acc. induction l as [|z l IH]; intros acc; cbn [foldl];
    [by left|].
  intros [Hb|[[Hx Hy]|(Hx & Hy & Hlt)]]%IH.
  - unfold Set_add in Hb. case_bool_decide as Hz; [by left|].
    apply before_snoc in Hb as [?|[? ->]]; [by left|].
    right; left. done.
  - rewrite elem_of_Set_add in Hx, Hy.
    destruct (decide (x ∈ acc)) as [Hxa|Hxa].
    + right; left. split; [done|]. intros ?. apply Hy. by left.
    + destruct Hx as [?| ->]; [done|]. right; right.
      assert (z ≠ y) by (intros ->; apply Hy; by right).
      split_and!; [done|intros ?; apply Hy; by left|].
      rewrite first_index_head, first_index_tail by done. lia.
  - rewrite elem_of_Set_add in Hx, Hy. right; right.
    assert (z ≠ x) by (intros ->; apply Hx; by right).
    assert (z ≠ y) by (intros ->; apply Hy; by right).
    split_and!; [intros ?; apply Hx; by left|intros ?; apply Hy; by left|].
    rewrite !first_index_tail by done. lia.
Qed.

(** A set lists its elements in the order of their first occurrence. *)
Lemma Set_from_before l x y :
  before x y (Set_from l) → (first_index x l < first_index y l)%nat.
Proof.
  intros [Hb|[[Hx _]|(_ & _ & ?)]]%foldl_Set_add_before.
  - inversion Hb.
  - by apply elem_of_nil in Hx.
  - done.
Qed.

End OrderFacts.

Section StandingsClaims.
Import JS Dashboard Props Samples.

Lemma apply_match_tab m R ids :
  NoDup ids →
  apply_match m (tab R ids)
  = tab (λ id, if counted ids m then credit id m (R id) else R id) ids.
Proof.
  intros Hnd. destruct (counted ids m) eqn:Hc.
  - by apply counted_true_apply.
  - by apply counted_false_skip.
Qed.

Lemma foldl_apply_match ids matches R :
  NoDup ids →
  foldl (λ mp m, apply_match m mp) (tab R ids) matches
  = tab (λ id, foldl (λ r m, if counted ids m then credit id m r else r)
                 (R id) matches) ids.
Proof.
  intros Hnd. revert R. induction matches as [|m ms IH]; intros R; simpl.
  - done.
  - by rewrite apply_match_tab, IH.
Qed.

Lemma counted_Set_from pool m : counted (Set_from pool) m = counted pool m.
Proof.
  unfold counted. f_equal; [f_equal|]; apply bool_decide_ext,
    elem_of_Set_from.
Qed.

Lemma tally_ext counts counts' byId matches id :
  (∀ m, counts m = counts' m) →
  tally counts byId matches id = tally counts' byId matches id.
Proof.
  intros Hext. unfold tally. f_equal. generalize (zero_row byId id).
  induction matches as [|m ms IH]; intros r; simpl; [done|].
  by rewrite Hext, IH.
Qed.

(** The table before sorting: the tallies, in pool order. *)
Lemma standings_unsorted teams tts matches :
  standings teams tts matches
  = sort compare_rows
      (map (tally (counted (map tt_team_id tts)) (teamById teams) matches)
         (Set_from (map tt_team_id tts))).
Proof.
  unfold standings.
  rewrite seed_tab by apply NoDup_Set_from.
  rewrite foldl_apply_match by apply NoDup_Set_from.
  rewrite Map_values_tab, map_map. f_equal.
  apply map_ext. intros id. apply (tally_ext (counted _)).
  apply counted_Set_from.
Qed.

Lemma tally_team_id counts byId matches id :
  team_id (tally counts byId matches id) = id.
Proof.
  unfold tally. simpl.
  enough (∀ r, team_id (foldl (λ r m, if counts m then credit id m r else r)
                          r matches) = team_id r) as H by apply H.
  induction matches as [|m ms IH]; intros r; simpl; [done|].
  rewrite IH. destruct (counts m); [|done]. unfold credit.
  repeat case_match; done.
Qed.

Lemma tally_gd counts byId matches id :
  gd (tally counts byId matches id)
  = gf (tally counts byId matches id) - ga (tally counts byId matches id).
Proof. done. Qed.

Lemma credit_not_involved id m r :
  m_home_team_id m ≠ Some id → m_away_team_id m ≠ Some id →
  credit id m r = r.
Proof.
  intros Hh Ha. unfold credit.
  destruct (m_home_team_id m) as [h|]; [|done].
  destruct (m_away_team_id m) as [a|]; [|done].
  destruct (m_player1_score m), (m_player2_score m); try done.
  rewrite (proj2 (String.eqb_neq h id)) by congruence.
  rewrite (proj2 (String.eqb_neq a id)) by congruence. done.
Qed.

Lemma tally_zero counts byId matches id :
  (∀ m, m ∈ matches → counts m = true →
        m_home_team_id m ≠ Some id ∧ m_away_team_id m ≠ Some id) →
  tally counts byId matches id = zero_row byId id.
Proof.
  intros H. unfold tally.
  enough (foldl (λ r m, if counts m then credit id m r else r)
            (zero_row byId id) matches = zero_row byId id) as -> by done.
  generalize (zero_row byId id). induction matches as [|m ms IH];
    intros r; simpl; [done|].
  destruct (counts m) eqn:Hc.
  - destruct (H m) as [? ?]; [left|done|].
    rewrite credit_not_involved by done. apply IH.
    intros m' ?. apply H. by right.
  - apply IH. intros m' ?. apply H. by right.
Qed.

Lemma compare_rows_le a b : compare_rows a b ≤ 0 → ranks_before a b.
Proof.
  unfold compare_rows, ranks_before.
  destruct (Z.eqb_spec (pts b) (pts a)); simpl; [|lia].
  destruct (Z.eqb_spec (gd b) (gd a)); simpl; lia.
Qed.

Lemma compare_rows_gt a b : 0 < compare_rows a b → ranks_before b a.
Proof.
  unfold compare_rows, ranks_before.
  destruct (Z.eqb_spec (pts b) (pts a)); simpl; [|lia].
  destruct (Z.eqb_spec (gd b) (gd a)); simpl; lia.
Qed.

Lemma compare_rows_same a b : same_keys a b → compare_rows b a ≤ 0.
Proof.
  unfold compare_rows, same_keys. intros (? & ? & ?).
  destruct (Z.eqb_spec (pts a) (pts b)); simpl; [|lia].
  destruct (Z.eqb_spec (gd a) (gd b)); simpl; lia.
Qed.

#[local] Instance ranks_before_trans : Transitive ranks_before.
Proof. unfold ranks_before. intros a b c ? ?. lia. Qed.

Lemma tally_snoc counts byId ms m id :
  tally counts byId (ms ++ [m]) id
  = set_gd (if counts m
            then credit id m
                   (foldl (λ r m, if counts m then credit id m r else r)
                      (zero_row byId id) ms)
            else foldl (λ r m, if counts m then credit id m r else r)
                   (zero_row byId id) ms).
Proof. unfold tally. by rewrite foldl_app. Qed.

Lemma tally_skip counts byId ms1 m ms2 id :
  counts m = false →
  tally counts byId (ms1 ++ m :: ms2) id = tally counts byId (ms1 ++ ms2) id.
Proof. intros H. unfold tally. rewrite !foldl_app. simpl. by rewrite H. Qed.

(** C2, as the code has it. The table holds one row per team of the
    pool, which is the tally of the matches that count: those with both
    team ids non-empty, played-at set, both scores present and both
    teams in the pool. Each such match gives either side a game played
    and its goals for and against, 3 points and a win to the strictly
    higher scorer, a loss to the other, or 1 point and a draw each on a
    tie. A team that no counting match involves keeps its all-zero row,
    and every row has goal difference = goals for - goals against. *)
Theorem standings_tally :
  table_tallies counted
  ∧ (∀ teams tts matches r,
       r ∈ standings teams tts matches → gd r = gf r - ga r)
  ∧ (∀ teams tts matches id,
       id ∈ map tt_team_id tts →
       (∀ m, m ∈ matches → counted (map tt_team_id tts) m = true →
             m_home_team_id m ≠ Some id ∧ m_away_team_id m ≠ Some id) →
       zero_row (teamById teams) id ∈ standings teams tts matches)
  ∧ (∀ pool byId ms m h a s1 s2,
       counted pool m = true →
       m_home_team_id m = Some h → m_away_team_id m = Some a → h ≠ a →
       m_player1_score m = Some s1 → m_player2_score m = Some s2 →
       let old := tally (counted pool) byId ms in
       let new := tally (counted pool) byId (ms ++ [m]) in
       played (new h) = played (old h) + 1
       ∧ played (new a) = played (old a) + 1
       ∧ gf (new h) = gf (old h) + s1 ∧ ga (new h) = ga (old h) + s2
       ∧ gf (new a) = gf (old a) + s2 ∧ ga (new a) = ga (old a) + s1
       ∧ (s2 < s1 → pts (new h) = pts (old h) + 3 ∧ pts (new a) = pts (old a)
                    ∧ wins (new h) = wins (old h) + 1
                    ∧ losses (new a) = losses (old a) + 1)
       ∧ (s1 < s2 → pts (new a) = pts (old a) + 3 ∧ pts (new h) = pts (old h)
                    ∧ wins (new a) = wins (old a) + 1
                    ∧ losses (new h) = losses (old h) + 1)
       ∧ (s1 = s2 → pts (new h) = pts (old h) + 1
                    ∧ pts (new a) = pts (old a) + 1
                    ∧ draws (new h) = draws (old h) + 1
                    ∧ draws (new a) = draws (old a) + 1)
       ∧ (∀ id, id ≠ h → id ≠ a → new id = old id)).
Proof.
  split_and!.
  - intros teams tts matches pool. rewrite standings_unsorted.
    apply sort_Permutation.
  - intros teams tts matches r. rewrite standings_unsorted.
    rewrite sort_Permutation.
    intros (id & -> & _)%list_elem_of_fmap. apply tally_gd.
  - intros teams tts matches id Hid Hfree. rewrite standings_unsorted.
    rewrite sort_Permutation.
    rewrite <- (tally_zero (counted (map tt_team_id tts)) _ matches id)
      by done.
    apply list_elem_of_fmap_2. by apply elem_of_Set_from.
  - intros pool byId ms m h a s1 s2 Hc Hh Ha Hne Hs1 Hs2 old new.
    unfold new. unfold old.
    assert (String.eqb h a = false) as Hha by by apply String.eqb_neq.
    assert (String.eqb a h = false) as Hah
      by (apply String.eqb_neq; congruence).
    split_and!; try intros ?;
      rewrite ?tally_snoc, ?Hc; unfold tally, credit;
      rewrite ?Hh, ?Ha, ?Hs1, ?Hs2, ?String.eqb_refl, ?Hha, ?Hah; simpl;
      repeat match goal with
             | |- context [Z.ltb ?x ?y] => destruct (Z.ltb_spec x y); try lia
             | |- context [Z.eqb ?x ?y] => destruct (Z.eqb_spec x y); try lia
             end; try done.
    intros Hidh Hida.
    rewrite (proj2 (String.eqb_neq h _)), (proj2 (String.eqb_neq a _));
      congruence.
Qed.

Lemma standings_tally_witness :
  standings [] pool_ABC season
  ≡ₚ map (tally (counted ["A"; "B"; "C"]) ∅ season) ["A"; "B"; "C"]
  ∧ map (λ r, (team_id r, played r, wins r, draws r, losses r,
               gf r, ga r, gd r, pts r))
      (map (tally (counted ["A"; "B"; "C"]) ∅ season) ["A"; "B"; "C"])
    = [("A", 2, 1, 1, 0, 2, 1, 1, 4); ("B", 1, 0, 0, 1, 1, 2, -1, 0);
       ("C", 1, 0, 1, 0, 0, 0, 0, 1)].
Proof.
  split; [|by vm_compute].
  apply (proj1 standings_tally [] pool_ABC season).
Defined.

(** C2 as stated fails: a match with both ids and both scores present
    is not counted when one of its teams is outside the pool (here A,
    the away side of a played 2-1 against the outsider X, keeps an
    all-zero row), nor when its played-at stamp is missing. *)
Lemma standings_uncounted_match :
  played_per_spec ["A"] outsider_game = true
  ∧ standings [] [pool_team "A"] [outsider_game] = [zero_row ∅ "A"]
  ∧ played (tally (played_per_spec ["A"]) ∅ [outsider_game] "A") = 1
  ∧ standings [] pool_ABC
      [game "m1" (Some "A") (Some "B") (Some 2) (Some 1) None]
    = [zero_row ∅ "A"; zero_row ∅ "B"; zero_row ∅ "C"]
  ∧ ¬ table_tallies played_per_spec.
Proof.
  split_and!; [by vm_compute..|].
  intros H. specialize (H [] [pool_team "A"] [outsider_game]).
  apply Permutation_length_1_inv in H. vm_compute in H. discriminate H.
Qed.

(** C3. The table is sorted by points, then goal difference, then
    goals for, all descending, and two rows that agree on the three keys
    stand in the order in which their teams first occur in the pool. *)
Theorem standings_sorted_stable teams tts matches :
  StronglySorted ranks_before (standings teams tts matches)
  ∧ ∀ i j ri rj,
      (i < j)%nat →
      standings teams tts matches !! i = Some ri →
      standings teams tts matches !! j = Some rj →
      same_keys ri rj →
      (first_index (team_id ri) (map tt_team_id tts)
       < first_index (team_id rj) (map tt_team_id tts))%nat.
Proof.
  rewrite standings_unsorted. split.
  - apply sort_sorted; [apply _|apply compare_rows_le|apply compare_rows_gt].
  - intros i j ri rj Hij Hi Hj Hsame.
    pose proof (lookup_before _ i j ri rj Hij Hi Hj) as Hb.
    apply sort_stable in Hb; [|by apply compare_rows_same].
    apply before_fmap in Hb as (a & b & -> & -> & Hb).
    rewrite !tally_team_id. by apply Set_from_before.
Qed.

Lemma standings_sorted_stable_witness :
  map team_id (standings [] pool_ABC []) = ["A"; "B"; "C"]
  ∧ (first_index "B" ["A"; "B"; "C"] < first_index "C" ["A"; "B"; "C"])%nat.
Proof.
  split; [by vm_compute|].
  apply (proj2 (standings_sorted_stable [] pool_ABC []) 1%nat 2%nat
           (zero_row ∅ "B") (zero_row ∅ "C"));
    [lia|by vm_compute|by vm_compute|by vm_compute].
Defined.

(** C10. A match whose home team or whose away team is not in the pool
    changes nothing: the table is the same with or without it. Every
    row of the table belongs to a team of the pool, each pool team
    having exactly one row. *)
Theorem standings_skip_outsiders teams tts :
  (∀ ms1 m ms2,
     (∀ h, m_home_team_id m = Some h → h ∉ map tt_team_id tts)
     ∨ (∀ a, m_away_team_id m = Some a → a ∉ map tt_team_id tts) →
     standings teams tts (ms1 ++ m :: ms2) = standings teams tts (ms1 ++ ms2))
  ∧ (∀ matches r,
       r ∈ standings teams tts matches → team_id r ∈ map tt_team_id tts)
  ∧ (∀ matches,
       map team_id (standings teams tts matches)
       ≡ₚ Set_from (map tt_team_id tts)).
Proof.
  split_and!.
  - intros ms1 m ms2 Hout. rewrite !standings_unsorted. f_equal.
    apply map_ext. intros id. apply tally_skip.
    destruct (counted (map tt_team_id tts) m) eqn:Hc; [|done].
    apply counted_true_inv in Hc
      as (h & a & ? & ? & Hh & Ha & _ & _ & _ & _ & _ & Hhi & Hai).
    destruct Hout as [Hout|Hout]; [destruct (Hout h)|destruct (Hout a)];
      done.
  - intros matches r. rewrite standings_unsorted, sort_Permutation.
    intros (id & -> & Hid)%list_elem_of_fmap.
    rewrite tally_team_id. by apply elem_of_Set_from.
  - intros matches. rewrite standings_unsorted, sort_Permutation.
    rewrite map_map. erewrite map_ext; [by rewrite map_id|].
    intros id. apply tally_team_id.
Qed.

Lemma standings_skip_outsiders_witness :
  standings [] pool_ABC (season ++ outsider_game :: [])
  = standings [] pool_ABC (season ++ [])
  ∧ map team_id (standings [] pool_ABC [outsider_game]) = ["A"; "B"; "C"].
Proof.
  split; [|by vm_compute].
  apply (proj1 (standings_skip_outsiders [] pool_ABC)).
  left. intros h [= <-]. vm_compute.
  intros H. repeat (apply elem_of_cons in H as [H|H]; [discriminate H|]).
  by apply elem_of_nil in H.
Defined.

End StandingsClaims.

(** ** Round robin *)

Section CircleArithmetic.
Import Props.

(** [m] is the number of rotating positions; it is odd,
    [m = 2 * h - 1]. *)

Lemma pos_0 m x : (x ≤ m)%nat → pos m 0 x = x.
Proof.
  intros Hx. unfold pos. destruct (Nat.eqb_spec x 0); [lia|].
  rewrite Nat.add_0_r. destruct (Nat.leb_spec x m); lia.
Qed.

Lemma pos_S m s x :
  (s < m)%nat → (x ≤ m)%nat → pos m (S s) x = rot_pos m (pos m s x).
Proof.
  intros Hs Hx. unfold pos, rot_pos.
  destruct (Nat.eqb_spec x 0); [done|].
  destruct (Nat.leb_spec (x + S s) m), (Nat.leb_spec (x + s) m);
    repeat match goal with
           | |- context [Nat.eqb ?a ?b] => destruct (Nat.eqb_spec a b)
           end; lia.
Qed.

Lemma meeting_round_spec m h x y :
  (S m = 2 * h)%nat → (x ≤ m)%nat → (y ≤ m)%nat → x ≠ y →
  (meeting_round m x y < m)%nat
  ∧ (pos m (meeting_round m x y) x + pos m (meeting_round m x y) y = m)%nat.
Proof.
  intros Hm Hx Hy Hne. unfold meeting_round, pos.
  destruct (Nat.eqb_spec x 0), (Nat.eqb_spec y 0); try lia.
  - destruct (Nat.leb_spec (y + (m - y)) m); lia.
  - destruct (Nat.leb_spec (x + (m - x)) m); lia.
  - destruct (Nat.eqb_spec ((x + y) mod 2) 0) as [Hev|Hodd].
    + assert (∃ k, x + y = 2 * k)%nat as [k Hk].
      { exists ((x + y) / 2)%nat.
        pose proof (Nat.div_mod_eq (x + y) 2). lia. }
      replace ((x + y) / 2)%nat with k
        by (rewrite Hk, Nat.mul_comm, Nat.div_mul; lia).
      destruct (Nat.leb_spec (x + (m - k)) m),
        (Nat.leb_spec (y + (m - k)) m); lia.
    + assert (∃ k, x + y = 2 * k + 1)%nat as [k Hk].
      { exists ((x + y) / 2)%nat.
        pose proof (Nat.div_mod_eq (x + y) 2).
        pose proof (Nat.mod_upper_bound (x + y) 2). lia. }
      destruct (Nat.leb_spec (x + y) m).
      * assert ((m - (x + y)) / 2 = h - 1 - k)%nat as ->.
        { replace (m - (x + y))%nat with ((h - 1 - k) * 2)%nat by lia.
          apply Nat.div_mul. lia. }
        destruct (Nat.leb_spec (x + (h - 1 - k)) m),
          (Nat.leb_spec (y + (h - 1 - k)) m); lia.
      * assert ((3 * m - (x + y)) / 2 = 3 * h - 2 - k)%nat as ->.
        { replace (3 * m - (x + y))%nat with ((3 * h - 2 - k) * 2)%nat
            by lia.
          apply Nat.div_mul. lia. }
        destruct (Nat.leb_spec (x + (3 * h - 2 - k)) m),
          (Nat.leb_spec (y + (3 * h - 2 - k)) m); lia.
Qed.

Lemma meeting_round_unique m h s s' x y :
  (S m = 2 * h)%nat → (s < m)%nat → (s' < m)%nat → (x ≤ m)%nat → (y ≤ m)%nat → x ≠ y →
  (pos m s x + pos m s y = m)%nat → (pos m s' x + pos m s' y = m)%nat →
  s = s'.
Proof.
  intros Hm Hs Hs' Hx Hy Hne. unfold pos.
  destruct (Nat.eqb_spec x 0), (Nat.eqb_spec y 0),
    (Nat.leb_spec (x + s) m), (Nat.leb_spec (y + s) m),
    (Nat.leb_spec (x + s') m), (Nat.leb_spec (y + s') m); lia.
Qed.

End CircleArithmetic.

Section Rotation.
Import JS Dashboard Props.

Lemma rotate_snoc fixed init x :
  rotate (fixed :: init ++ [x]) = fixed :: x :: init.
Proof. simpl. by rewrite last_snoc, removelast_last. Qed.

(** A list of at least two elements splits into its first element, its
    last element and what lies between. *)
Lemma two_or_more (arr : list string) :
  (2 ≤ length arr)%nat →
  ∃ fixed init x, arr = fixed :: init ++ [x].
Proof.
  destruct arr as [|fixed rest]; simpl; [lia|]. intros Hlen.
  destruct (exists_last (l := rest)) as (init & x & ->).
  - destruct rest; simpl in *; [lia|done].
  - by exists fixed, init, x.
Qed.

Lemma rotate_length arr :
  (2 ≤ length arr)%nat → length (rotate arr) = length arr.
Proof.
  intros (fixed & init & x & ->)%two_or_more. rewrite rotate_snoc.
  simpl. rewrite length_app. simpl. lia.
Qed.

Lemma rotate_Permutation arr :
  (2 ≤ length arr)%nat → rotate arr ≡ₚ arr.
Proof.
  intros (fixed & init & x & ->)%two_or_more. rewrite rotate_snoc.
  constructor. by rewrite Permutation_app_comm.
Qed.

(** Position 0 stays, the last element becomes second, every other
    element moves one step to the right. *)
Lemma rotate_lookup arr :
  (2 ≤ length arr)%nat →
  rotate arr !! 0%nat = arr !! 0%nat
  ∧ rotate arr !! 1%nat = arr !! (length arr - 1)%nat
  ∧ ∀ k, (1 ≤ k)%nat → (k < length arr - 1)%nat →
         rotate arr !! S k = arr !! k.
Proof.
  intros (fixed & init & x & ->)%two_or_more. rewrite rotate_snoc.
  simpl. rewrite length_app. simpl.
  replace (length init + 1 - 0)%nat with (S (length init)) by lia.
  split_and!; [done| |].
  - simpl. rewrite lookup_app_r by lia.
    by replace (length init - length init)%nat with 0%nat by lia.
  - intros [|k] Hk1 Hk2; [lia|]. simpl.
    rewrite lookup_app_l by lia. done.
Qed.

Lemma rotate_lookup_pos m arr p v :
  length arr = S m → (1 ≤ m)%nat →
  arr !! p = Some v → rotate arr !! rot_pos m p = Some v.
Proof.
  intros Hlen Hm Hp.
  destruct (rotate_lookup arr) as (H0 & H1 & Hk); [lia|].
  pose proof (lookup_lt_Some _ _ _ Hp) as Hlt.
  unfold rot_pos. destruct (Nat.eqb_spec p 0) as [->|Hp0]; [congruence|].
  destruct (Nat.eqb_spec p m) as [->|Hpm].
  - rewrite H1, Hlen. by replace (S m - 1)%nat with m by lia.
  - rewrite Hk; [done|lia|lia].
Qed.

Lemma iter_rotate_length s arr :
  (2 ≤ length arr)%nat → length (Nat.iter s rotate arr) = length arr.
Proof.
  intros Hlen. induction s as [|s IH]; simpl; [done|].
  rewrite rotate_length; lia.
Qed.

Lemma iter_rotate_Permutation s arr :
  (2 ≤ length arr)%nat → Nat.iter s rotate arr ≡ₚ arr.
Proof.
  intros Hlen. induction s as [|s IH]; simpl; [done|].
  rewrite rotate_Permutation; [done|].
  rewrite iter_rotate_length; lia.
Qed.

(** After [s] rotations the element that started at position [x] is at
    position [pos m s x]. *)
Lemma iter_rotate_lookup m s arr x v :
  length arr = S m → (1 ≤ m)%nat → (s ≤ m)%nat →
  arr !! x = Some v → Nat.iter s rotate arr !! pos m s x = Some v.
Proof.
  intros Hlen Hm Hs Hx.
  pose proof (lookup_lt_Some _ _ _ Hx) as Hlt.
  induction s as [|s IH]; simpl.
  - by rewrite pos_0 by lia.
  - rewrite pos_S by lia. apply rotate_lookup_pos; [|done|apply IH; lia].
    rewrite iter_rotate_length; lia.
Qed.

Lemma flat_map_shift {B} (f : nat → list B) start len :
  flat_map f (seq (S start) len) = flat_map (λ k, f (S k)) (seq start len).
Proof.
  revert start. induction len as [|len IH]; intros start; simpl; [done|].
  by rewrite IH.
Qed.

(** The outer loop, unrolled. *)
Lemma rounds_loop_unroll tid n half todo r arr rows :
  rounds_loop tid n half todo r arr rows
  = rows ++ flat_map
              (λ k, round_rows tid n half (Nat.iter k rotate arr) (r + k))
              (seq 0 todo).
Proof.
  revert r arr rows. induction todo as [|todo IH]; intros r arr rows.
  - simpl. by rewrite app_nil_r.
  - cbn [rounds_loop]. rewrite IH, <- app_assoc. f_equal.
    cbn [seq flat_map]. rewrite Nat.add_0_r. f_equal.
    rewrite flat_map_shift. apply flat_map_ext. intros k.
    rewrite Nat.iter_succ_r. f_equal. lia.
Qed.

End Rotation.

Section FlatMapFacts.
Context {A B : Type}.

Lemma filter_flat_map (p : B → bool) (f : A → list B) l :
  List.filter p (flat_map f l) = flat_map (λ x, List.filter p (f x)) l.
Proof.
  induction l as [|x l IH]; simpl; [done|].
  by rewrite List.filter_app, IH.
Qed.

Lemma flat_map_none (g : A → list B) l :
  (∀ x, x ∈ l → g x = []) → flat_map g l = [].
Proof.
  induction l as [|x l IH]; simpl; [done|]. intros H.
  rewrite (H x) by left. apply IH. intros y Hy. apply H. by right.
Qed.

Lemma flat_map_single (g : A → list B) l x0 :
  NoDup l → x0 ∈ l → (∀ x, x ∈ l → x ≠ x0 → g x = []) →
  flat_map g l = g x0.
Proof.
  induction l as [|x l IH]; simpl; [by intros _ ?%elem_of_nil|].
  intros [Hx Hnd]%NoDup_cons [->|Hin]%elem_of_cons Hnone.
  - rewrite flat_map_none; [by rewrite app_nil_r|].
    intros y Hy. apply Hnone; [by right|]. by intros ->.
  - rewrite (Hnone x); [|left|by intros ->]. simpl.
    apply IH; [done|done|]. intros y Hy. apply Hnone. by right.
Qed.

End FlatMapFacts.

Section OneRound.
Import JS Dashboard Props.

Variables (tid : string) (arr : list string) (m h r : nat).
Hypothesis Hlen : length arr = S m.
Hypothesis Hm : (S m = 2 * h)%nat.
Hypothesis Hnd : NoDup arr.

Lemma pair_lookup i :
  (i < h)%nat →
  ∃ t1 t2, arr !! i = Some t1 ∧ arr !! (m - i)%nat = Some t2 ∧ t1 ≠ t2.
Proof.
  intros Hi.
  destruct (lookup_lt_is_Some_2 arr i) as [t1 H1]; [lia|].
  destruct (lookup_lt_is_Some_2 arr (m - i)) as [t2 H2]; [lia|].
  exists t1, t2. split_and!; [done|done|]. intros ->.
  pose proof (NoDup_lookup _ _ _ _ Hnd H1 H2). lia.
Qed.

Lemma pair_rows_eq i t1 t2 :
  arr !! i = Some t1 → arr !! (m - i)%nat = Some t2 →
  pair_rows tid (S m) arr r i
  = if decide (t1 = BYE ∨ t2 = BYE) then [] else [fixture tid r t1 t2].
Proof.
  intros H1 H2. unfold pair_rows.
  replace (S m - 1 - i)%nat with (m - i)%nat by lia. rewrite H1, H2.
  destruct (decide (t1 = BYE ∨ t2 = BYE)) as [[->| ->]|Hd].
  - by rewrite String.eqb_refl.
  - by rewrite String.eqb_refl, orb_true_r.
  - rewrite (proj2 (String.eqb_neq t1 BYE)),
      (proj2 (String.eqb_neq t2 BYE)) by tauto.
    done.
Qed.

Lemma elem_of_round_rows row :
  row ∈ round_rows tid (S m) h arr r
  ↔ ∃ i t1 t2, (i < h)%nat ∧ arr !! i = Some t1
               ∧ arr !! (m - i)%nat = Some t2
               ∧ t1 ≠ BYE ∧ t2 ≠ BYE ∧ t1 ≠ t2
               ∧ row = fixture tid r t1 t2.
Proof.
  unfold round_rows. rewrite list_elem_of_In, in_flat_map. split.
  - intros (i & [_ Hi]%in_seq & Hrow%list_elem_of_In). simpl in Hi.
    destruct (pair_lookup i Hi) as (t1 & t2 & H1 & H2 & Hne).
    rewrite (pair_rows_eq i t1 t2 H1 H2) in Hrow.
    destruct (decide (t1 = BYE ∨ t2 = BYE)) as [|Hn];
      [by apply elem_of_nil in Hrow|].
    apply list_elem_of_singleton in Hrow as ->.
    exists i, t1, t2. split_and!; try done; intros ->; apply Hn; eauto.
  - intros (i & t1 & t2 & Hi & H1 & H2 & Hn1 & Hn2 & _ & ->).
    exists i. split; [apply in_seq; lia|]. apply list_elem_of_In.
    rewrite (pair_rows_eq i t1 t2 H1 H2).
    rewrite decide_False by (by intros [?|?]). left.
Qed.

Lemma meets_fixture a b t1 t2 :
  meets a b (fixture tid r t1 t2) = true
  ↔ (t1 = a ∧ t2 = b) ∨ (t1 = b ∧ t2 = a).
Proof.
  unfold meets, fixture. rewrite bool_decide_eq_true.
  cbn [s_home_team_id s_away_team_id].
  destruct (r mod 2 =? 1)%nat; split; intros [[? ?]|[? ?]];
    simplify_eq; auto.
Qed.

Section Pair.
Variables (a b : string) (pa pb : nat).
Hypothesis Ha : arr !! pa = Some a.
Hypothesis Hb : arr !! pb = Some b.
Hypothesis Hna : a ≠ BYE.
Hypothesis Hnb : b ≠ BYE.
Hypothesis Hab : a ≠ b.

Lemma pair_filter i :
  (i < h)%nat →
  List.filter (meets a b) (pair_rows tid (S m) arr r i)
  = if decide ((i = pa ∧ (m - i)%nat = pb) ∨ (i = pb ∧ (m - i)%nat = pa))
    then pair_rows tid (S m) arr r i else [].
Proof.
  intros Hi. destruct (pair_lookup i Hi) as (t1 & t2 & H1 & H2 & Hne).
  rewrite (pair_rows_eq i t1 t2 H1 H2).
  destruct (decide (t1 = BYE ∨ t2 = BYE)) as [Hbye|Hbye];
    [by destruct (decide _)|].
  simpl. destruct (meets a b (fixture tid r t1 t2)) eqn:Hmeet.
  - apply meets_fixture in Hmeet. rewrite decide_True; [done|].
    destruct Hmeet as [[-> ->]|[-> ->]]; [left|right]; split;
      eapply NoDup_lookup; eauto.
  - rewrite decide_False; [done|]. intros Hpos.
    apply not_true_iff_false in Hmeet. apply Hmeet, meets_fixture.
    destruct Hpos as [[-> <-]|[-> <-]]; simplify_eq; tauto.
Qed.

Lemma round_meets_once :
  (pa + pb = m)%nat →
  length (List.filter (meets a b) (round_rows tid (S m) h arr r)) = 1%nat.
Proof.
  intros Hsum. unfold round_rows. rewrite filter_flat_map.
  pose proof (lookup_lt_Some _ _ _ Ha). pose proof (lookup_lt_Some _ _ _ Hb).
  rewrite (flat_map_single _ _ (Nat.min pa pb)).
  - rewrite pair_filter by lia. rewrite decide_True by lia.
    destruct (pair_lookup (Nat.min pa pb)) as (t1 & t2 & H1 & H2 & _);
      [lia|].
    rewrite (pair_rows_eq _ t1 t2 H1 H2). rewrite decide_False; [done|].
    assert (t1 = a ∧ t2 = b ∨ t1 = b ∧ t2 = a) as Hts.
    { destruct (Nat.min_spec pa pb) as [[? E]|[? E]]; rewrite E in H1, H2.
      - left. replace (m - pa)%nat with pb in H2 by lia. by simplify_eq.
      - right. replace (m - pb)%nat with pa in H2 by lia. by simplify_eq. }
    intros [->| ->]; destruct Hts as [[? ?]|[? ?]]; congruence.
  - apply NoDup_seq.
  - apply elem_of_seq. lia.
  - intros i [_ Hi]%elem_of_seq Hne. simpl in Hi.
    rewrite pair_filter by lia. rewrite decide_False; [done|]. lia.
Qed.

Lemma round_meets_never :
  (pa + pb ≠ m)%nat →
  List.filter (meets a b) (round_rows tid (S m) h arr r) = [].
Proof.
  intros Hsum. unfold round_rows. rewrite filter_flat_map.
  apply flat_map_none. intros i [_ Hi]%elem_of_seq. simpl in Hi.
  rewrite pair_filter by lia. rewrite decide_False; [done|].
  pose proof (lookup_lt_Some _ _ _ Ha). pose proof (lookup_lt_Some _ _ _ Hb).
  lia.
Qed.
End Pair.

End OneRound.

Section Schedule.
Import JS Dashboard Props.

Variables (tid : string) (teamIds : list string).
Hypothesis Hsize : (2 ≤ length teamIds)%nat.
Hypothesis Hnodup : NoDup teamIds.
Hypothesis Hbye : BYE ∉ teamIds.

Lemma with_bye_cases :
  ((length teamIds mod 2)%nat = 0%nat ∧ with_bye teamIds = teamIds)
  ∨ ((length teamIds mod 2)%nat = 1%nat
     ∧ with_bye teamIds = teamIds ++ [BYE]).
Proof.
  unfold with_bye.
  pose proof (Nat.mod_upper_bound (length teamIds) 2).
  destruct (Nat.eqb_spec (length teamIds mod 2) 1); [right|left];
    split; try done; lia.
Qed.

Lemma with_bye_even : ∃ h, length (with_bye teamIds) = (2 * h)%nat.
Proof.
  pose proof (Nat.div_mod_eq (length teamIds) 2) as Hdiv.
  destruct with_bye_cases as [[Hmod ->]|[Hmod ->]].
  - exists (length teamIds / 2)%nat. lia.
  - exists (S (length teamIds / 2)). rewrite length_app.
    cbn [length]. lia.
Qed.

Lemma with_bye_length : (length teamIds ≤ length (with_bye teamIds))%nat.
Proof.
  destruct with_bye_cases as [[_ ->]|[_ ->]]; [done|].
  rewrite length_app. lia.
Qed.

Lemma with_bye_NoDup : NoDup (with_bye teamIds).
Proof.
  destruct with_bye_cases as [[_ ->]|[_ ->]]; [done|].
  apply NoDup_app. split_and!; [done| |apply NoDup_singleton].
  intros x Hx ->%list_elem_of_singleton. done.
Qed.

Lemma elem_of_with_bye t :
  t ∈ with_bye teamIds ↔ t ∈ teamIds ∨ (t = BYE ∧ BYE ∈ with_bye teamIds).
Proof.
  destruct with_bye_cases as [[_ ->]|[_ ->]].
  - split; [by left|]. intros [?|[-> ?]]; done.
  - rewrite !elem_of_app, !list_elem_of_singleton. split.
    + intros [?| ->]; [by left|]. right. split; [done|by right].
    + intros [?|[-> _]]; [by left|by right].
Qed.

(** The marker is only present when an odd list was padded, and then
    there are at least four places. *)
Lemma bye_present_size :
  BYE ∈ with_bye teamIds → (4 ≤ length (with_bye teamIds))%nat.
Proof.
  pose proof (Nat.div_mod_eq (length teamIds) 2) as Hdiv.
  destruct with_bye_cases as [[_ ->]|[Hmod ->]]; [done|].
  intros _. rewrite length_app. cbn [length]. lia.
Qed.

Variables (m h : nat).
Hypothesis Hlen : length (with_bye teamIds) = S m.
Hypothesis Hm : (S m = 2 * h)%nat.

Lemma round_arr_length k : length (Nat.iter k rotate (with_bye teamIds)) = S m.
Proof.
  rewrite iter_rotate_length; [done|]. pose proof with_bye_length. lia.
Qed.

Lemma round_arr_NoDup k : NoDup (Nat.iter k rotate (with_bye teamIds)).
Proof.
  rewrite iter_rotate_Permutation; [apply with_bye_NoDup|].
  pose proof with_bye_length. lia.
Qed.

Lemma round_arr_elem_of k t :
  t ∈ Nat.iter k rotate (with_bye teamIds) ↔ t ∈ with_bye teamIds.
Proof.
  rewrite iter_rotate_Permutation; [done|].
  pose proof with_bye_length. lia.
Qed.

Lemma first_leg_unfold :
  first_leg tid teamIds
  = flat_map
      (λ k, round_rows tid (S m) h (Nat.iter k rotate (with_bye teamIds))
              (S k))
      (seq 0 m).
Proof.
  unfold first_leg. rewrite rounds_loop_unroll, Hlen.
  assert (S m / 2 = h)%nat as Hhalf.
  { rewrite Hm, Nat.mul_comm. apply Nat.div_mul. lia. }
  rewrite Hhalf. cbn [app].
  replace (S m - 1)%nat with m by lia.
  apply flat_map_ext. intros k. done.
Qed.

Lemma elem_of_first_leg row :
  row ∈ first_leg tid teamIds
  ↔ ∃ k i t1 t2,
      (k < m)%nat ∧ (i < h)%nat
      ∧ Nat.iter k rotate (with_bye teamIds) !! i = Some t1
      ∧ Nat.iter k rotate (with_bye teamIds) !! (m - i)%nat = Some t2
      ∧ t1 ≠ BYE ∧ t2 ≠ BYE ∧ t1 ≠ t2
      ∧ row = fixture tid (S k) t1 t2.
Proof.
  rewrite first_leg_unfold, list_elem_of_In, in_flat_map. split.
  - intros (k & [_ Hk]%in_seq & Hrow%list_elem_of_In). simpl in Hk.
    apply (elem_of_round_rows tid _ m h (S k) (round_arr_length k) Hm
             (round_arr_NoDup k)) in Hrow
      as (i & t1 & t2 & ?). exists k, i, t1, t2. tauto.
  - intros (k & i & t1 & t2 & Hk & Hrest). exists k.
    split; [apply in_seq; lia|]. apply list_elem_of_In.
    apply (elem_of_round_rows tid _ m h (S k) (round_arr_length k) Hm
             (round_arr_NoDup k)).
    exists i, t1, t2. tauto.
Qed.

(** Every fixture is between two different teams of the list. *)
Lemma first_leg_teams row :
  row ∈ first_leg tid teamIds →
  ∃ a b, a ∈ teamIds ∧ b ∈ teamIds ∧ a ≠ b ∧ a ≠ BYE ∧ b ≠ BYE
         ∧ s_home_team_id row = Some a ∧ s_away_team_id row = Some b.
Proof.
  intros (k & i & t1 & t2 & _ & _ & H1 & H2 & Hn1 & Hn2 & Hne & ->)
    %elem_of_first_leg.
  assert (t1 ∈ teamIds) as Ht1.
  { apply list_elem_of_lookup_2, round_arr_elem_of, elem_of_with_bye in H1.
    destruct H1 as [?|[? _]]; done. }
  assert (t2 ∈ teamIds) as Ht2.
  { apply list_elem_of_lookup_2, round_arr_elem_of, elem_of_with_bye in H2.
    destruct H2 as [?|[? _]]; done. }
  unfold fixture. cbn [s_home_team_id s_away_team_id].
  destruct (S k mod 2 =? 1)%nat.
  - exists t1, t2. split_and!; done || congruence.
  - exists t2, t1. split_and!; done || congruence.
Qed.

(** Every pair of teams meets exactly once. *)
Lemma first_leg_meets_once a b :
  a ∈ teamIds → b ∈ teamIds → a ≠ b →
  length (List.filter (meets a b) (first_leg tid teamIds)) = 1%nat.
Proof.
  intros Ha Hb Hab.
  assert (a ≠ BYE) as Hna by (by intros ->).
  assert (b ≠ BYE) as Hnb by (by intros ->).
  assert (a ∈ with_bye teamIds) as Ha' by (apply elem_of_with_bye; by left).
  assert (b ∈ with_bye teamIds) as Hb' by (apply elem_of_with_bye; by left).
  apply list_elem_of_lookup in Ha' as [xa Hxa].
  apply list_elem_of_lookup in Hb' as [xb Hxb].
  pose proof (lookup_lt_Some _ _ _ Hxa) as Hxa_lt.
  pose proof (lookup_lt_Some _ _ _ Hxb) as Hxb_lt.
  assert (xa ≠ xb) as Hx by (intros ->; congruence).
  assert (1 ≤ m)%nat as Hm1 by (pose proof with_bye_length; lia).
  destruct (meeting_round_spec m h xa xb Hm) as [Hs0 Hsum]; [lia|lia|done|].
  set (s0 := meeting_round m xa xb) in *.
  rewrite first_leg_unfold, filter_flat_map.
  rewrite (flat_map_single _ _ s0).
  - apply (round_meets_once tid _ m h (S s0) (round_arr_length s0) Hm
             (round_arr_NoDup s0) a b (pos m s0 xa) (pos m s0 xb));
      try done; apply iter_rotate_lookup; try done; lia.
  - apply NoDup_seq.
  - apply elem_of_seq. lia.
  - intros s [_ Hs]%elem_of_seq Hne. simpl in Hs.
    apply (round_meets_never tid _ m h (S s) (round_arr_length s) Hm
             (round_arr_NoDup s) a b (pos m s xa) (pos m s xb));
      try done; try (apply iter_rotate_lookup; try done; lia).
    intros Hsum'. apply Hne.
    apply (meeting_round_unique m h s s0 xa xb); try done; lia.
Qed.

(** Every round has a fixture. *)
Lemma first_leg_round_inhabited k :
  (k < m)%nat →
  ∃ row, row ∈ first_leg tid teamIds ∧ s_round row = Z.of_nat (S k).
Proof.
  intros Hk. set (arr := Nat.iter k rotate (with_bye teamIds)).
  assert (1 ≤ h)%nat as Hh by (pose proof with_bye_length; lia).
  destruct (pair_lookup arr m h (round_arr_length k) Hm (round_arr_NoDup k) 0)
    as (t0 & tm & H0 & Hlast & Hne0); [lia|].
  assert (t0 ≠ BYE) as Hn0.
  { assert (with_bye teamIds !! 0%nat = Some t0) as Hfirst.
    { destruct (lookup_lt_is_Some_2 (with_bye teamIds) 0) as [v Hv]; [lia|].
      pose proof (iter_rotate_lookup m k _ 0 v Hlen) as Hit.
      unfold pos in Hit. simpl in Hit. fold arr in Hit.
      rewrite Hit in H0; [congruence|lia|lia|done]. }
    destruct with_bye_cases as [[_ E]|[_ E]]; rewrite E in Hfirst.
    - intros ->. by apply list_elem_of_lookup_2 in Hfirst.
    - rewrite lookup_app_l in Hfirst by lia.
      intros ->. by apply list_elem_of_lookup_2 in Hfirst. }
  destruct (decide (tm = BYE)) as [->|Hnm].
  - assert (4 ≤ S m)%nat as H4.
    { rewrite <- Hlen. apply bye_present_size.
      eapply round_arr_elem_of, list_elem_of_lookup_2, Hlast. }
    destruct (pair_lookup arr m h (round_arr_length k) Hm
                (round_arr_NoDup k) 1)
      as (t1 & t2 & H1 & H2 & Hne); [lia|].
    exists (fixture tid (S k) t1 t2). split; [|done].
    apply elem_of_first_leg. exists k, 1%nat, t1, t2.
    split_and!; try done; try lia.
    + intros ->.
      pose proof (NoDup_lookup _ _ _ _ (round_arr_NoDup k) H1 Hlast). lia.
    + intros ->.
      pose proof (NoDup_lookup _ _ _ _ (round_arr_NoDup k) H2 Hlast). lia.
  - exists (fixture tid (S k) t0 tm). split; [|done].
    apply elem_of_first_leg. exists k, 0%nat, t0, tm.
    split_and!; try done; lia.
Qed.

End Schedule.

Section CountFacts.
Context {A : Type}.

Lemma filter_length_le (p q : A → bool) l :
  (∀ x, x ∈ l → p x = true → q x = true) →
  (length (List.filter p l) ≤ length (List.filter q l))%nat.
Proof.
  induction l as [|x l IH]; simpl; [done|]. intros H.
  assert (length (List.filter p l) ≤ length (List.filter q l))%nat as IH'
    by (apply IH; intros y Hy; apply H; by right).
  destruct (p x) eqn:Hp.
  - rewrite (H x) by (done || left). simpl. lia.
  - destruct (q x); simpl; lia.
Qed.

Lemma filter_length_pos (p : A → bool) l x :
  x ∈ l → p x = true → (1 ≤ length (List.filter p l))%nat.
Proof.
  intros Hx Hp.
  assert (x ∈ List.filter p l) as Hin.
  { apply list_elem_of_In, filter_In. split; [by apply list_elem_of_In|done]. }
  destruct (List.filter p l); [by apply elem_of_nil in Hin|simpl; lia].
Qed.

End CountFacts.

Section RoundRobinClaims.
Import JS Dashboard Props Samples.

Lemma arr_at_S teamIds k :
  arr_at teamIds (S k) = Nat.iter k rotate (with_bye teamIds).
Proof. unfold arr_at. by rewrite Nat.sub_succ, Nat.sub_0_r. Qed.

(** The handler inserts the rows of [schedule_rows] when it gets that
    far, and nothing when fewer than two teams are registered. *)
Lemma generateSchedule_rows tid double teamsData count :
  nonempty tid = true →
  let teamIds := List.filter nonempty teamsData in
  ((length teamIds < 2)%nat →
     generateSchedule (Some "admin") (Some tid) double teamsData count
     = (Some msg_two_teams, []))
  ∧ ((2 ≤ length teamIds)%nat → count ≤ 0 →
     (generateSchedule (Some "admin") (Some tid) double teamsData count).2
     = schedule_rows tid double teamIds).
Proof.
  intros Htid teamIds. unfold generateSchedule. fold teamIds.
  cbn [isAdmin truthy negb]. unfold nonempty in Htid. rewrite Htid.
  change (String.eqb "admin" "admin") with true. cbn [negb].
  split.
  - intros Hlt%Nat.ltb_lt. by rewrite Hlt.
  - intros Hge%Nat.ltb_ge Hcount. rewrite Hge.
    destruct (Z.ltb_spec 0 count); [lia|done].
Qed.

(** C1. For a list of at least two distinct team ids, none of them the
    bye marker, and a single leg: the working list is the team list,
    padded with the marker when its length is odd; the rows are those of
    rounds 1 to N'-1 in order, round r being played on the working list
    rotated r-1 times; a rotation keeps position 0, moves the last
    element to position 1 and shifts the others by one; the rows of a
    round are the pairs read at positions i and N'-1-i, i below N'/2,
    neither of which is the marker; every round from 1 to N'-1 has a row
    and no other round number occurs; every two teams meet in exactly
    one row; no row involves the marker. *)
Theorem round_robin tid teamIds :
  (2 ≤ length teamIds)%nat → NoDup teamIds → BYE ∉ teamIds →
  let n := length (with_bye teamIds) in
  let rows := schedule_rows tid false teamIds in
  ((length teamIds mod 2 = 0)%nat ∧ with_bye teamIds = teamIds
   ∨ (length teamIds mod 2 = 1)%nat ∧ with_bye teamIds = teamIds ++ [BYE])
  ∧ rows = flat_map
             (λ r, round_rows tid n (n / 2) (arr_at teamIds r) r)
             (seq 1 (n - 1))
  ∧ arr_at teamIds 1 = with_bye teamIds
  ∧ (∀ r, (1 ≤ r)%nat →
       arr_at teamIds (S r) = rotate (arr_at teamIds r)
       ∧ arr_at teamIds (S r) !! 0%nat = arr_at teamIds r !! 0%nat
       ∧ arr_at teamIds (S r) !! 1%nat = arr_at teamIds r !! (n - 1)%nat
       ∧ ∀ k, (1 ≤ k)%nat → (k < n - 1)%nat →
              arr_at teamIds (S r) !! S k = arr_at teamIds r !! k)
  ∧ (∀ r row, (1 ≤ r)%nat →
       row ∈ round_rows tid n (n / 2) (arr_at teamIds r) r
       ↔ ∃ i t1 t2, (i < n / 2)%nat
           ∧ arr_at teamIds r !! i = Some t1
           ∧ arr_at teamIds r !! (n - 1 - i)%nat = Some t2
           ∧ t1 ≠ BYE ∧ t2 ≠ BYE
           ∧ row = fixture tid r t1 t2)
  ∧ (∀ row, row ∈ rows → 1 ≤ s_round row ≤ Z.of_nat (n - 1))
  ∧ (∀ r, (1 ≤ r ≤ n - 1)%nat →
       ∃ row, row ∈ rows ∧ s_round row = Z.of_nat r)
  ∧ (∀ a b, a ∈ teamIds → b ∈ teamIds → a ≠ b →
       length (List.filter (meets a b) rows) = 1%nat)
  ∧ (∀ row, row ∈ rows → ¬ involves BYE row).
Proof.
  intros Hsize Hnd Hbye n rows.
  destruct (with_bye_even teamIds Hsize) as [h Hh].
  pose proof (with_bye_length teamIds Hsize) as Hge.
  assert (∃ m, n = S m) as [m Hn] by (exists (n - 1)%nat; lia).
  assert (length (with_bye teamIds) = S m) as Hlen by done.
  assert (S m = 2 * h)%nat as Hm by (unfold n in Hn; lia).
  assert (n / 2 = h)%nat as Hhalf.
  { rewrite Hn, Hm, Nat.mul_comm. apply Nat.div_mul. lia. }
  assert (n - 1 = m)%nat as Hpred by lia.
  assert (rows = first_leg tid teamIds) as Hrows by done.
  assert (∀ r, (1 ≤ r)%nat → length (arr_at teamIds r) = S m
                             ∧ NoDup (arr_at teamIds r)) as Harr.
  { intros [|k] Hr; [lia|]. rewrite arr_at_S. split.
    - by apply (round_arr_length teamIds Hsize m h).
    - by apply (round_arr_NoDup teamIds Hsize Hnd Hbye m h). }
  rewrite Hhalf, Hpred, Hrows. split_and!.
  - by apply with_bye_cases.
  - rewrite (first_leg_unfold tid teamIds Hsize m h Hlen Hm).
    rewrite flat_map_shift. apply flat_map_ext. intros k.
    by rewrite arr_at_S, Hn.
  - done.
  - intros r Hr. destruct (Harr r Hr) as [Hl _].
    assert (arr_at teamIds (S r) = rotate (arr_at teamIds r)) as ->.
    { destruct r as [|k]; [lia|]. by rewrite !arr_at_S. }
    destruct (rotate_lookup (arr_at teamIds r)) as (H0 & H1 & Hk); [lia|].
    rewrite Hl in H1, Hk. replace (S m - 1)%nat with m in H1, Hk by lia.
    done.
  - intros r row Hr. destruct (Harr r Hr) as [Hl Hndr]. rewrite Hn.
    rewrite (elem_of_round_rows tid _ m h r Hl Hm Hndr).
    split.
    + intros (i & t1 & t2 & Hi & H1 & H2 & ? & ? & _ & ->).
      exists i, t1, t2. replace (S m - 1 - i)%nat with (m - i)%nat by lia.
      done.
    + intros (i & t1 & t2 & Hi & H1 & H2 & ? & ? & ->).
      replace (S m - 1 - i)%nat with (m - i)%nat in H2 by lia.
      exists i, t1, t2. split_and!; try done. intros ->.
      pose proof (NoDup_lookup _ _ _ _ Hndr H1 H2). lia.
  - intros row
      (k & i & t1 & t2 & Hk & _ & _ & _ & _ & _ & _ & ->)
      %(elem_of_first_leg tid teamIds Hsize Hnd Hbye m h Hlen Hm).
    unfold fixture. cbn [s_round]. lia.
  - intros [|k] Hr; [lia|].
    apply (first_leg_round_inhabited tid teamIds Hsize Hnd Hbye m h Hlen Hm).
    lia.
  - intros a b Ha Hb Hab.
    by apply (first_leg_meets_once tid teamIds Hsize Hnd Hbye m h Hlen Hm).
  - intros row
      (a & b & _ & _ & _ & Hna & Hnb & Hh' & Ha')
      %(first_leg_teams tid teamIds Hsize Hnd Hbye m h Hlen Hm).
    unfold involves. rewrite Hh', Ha'. intros [?|?]; congruence.
Qed.

Lemma round_robin_witness :
  length (List.filter (meets "A" "C")
            (schedule_rows "T" false ["A"; "B"; "C"])) = 1%nat
  ∧ ∃ row, row ∈ schedule_rows "T" false ["A"; "B"; "C"]
           ∧ s_round row = 3.
Proof.
  assert (2 ≤ length ["A"; "B"; "C"])%nat as Hsize by (simpl; lia).
  assert (NoDup ["A"; "B"; "C"]) as Hnd
    by (apply (bool_decide_unpack _); by vm_compute).
  assert (BYE ∉ ["A"; "B"; "C"]) as Hbye
    by (apply (bool_decide_unpack _); by vm_compute).
  destruct (round_robin "T" ["A"; "B"; "C"] Hsize Hnd Hbye)
    as (_ & _ & _ & _ & _ & _ & Hround & Hmeet & _).
  split.
  - apply Hmeet; [| |done]; apply (bool_decide_unpack _); by vm_compute.
  - apply (Hround 3%nat). vm_compute. lia.
Defined.

(** C9. With the double flag the rows are the first leg followed by
    its mirror: each first-leg row has exactly one second-leg row with
    the sides swapped and the round moved by N'-1, and each second-leg
    row is the mirror of exactly one first-leg row. *)
Theorem double_round_robin tid teamIds :
  (2 ≤ length teamIds)%nat → NoDup teamIds → BYE ∉ teamIds →
  let offset := Z.of_nat (length (with_bye teamIds) - 1) in
  let first := schedule_rows tid false teamIds in
  let second := secondLeg offset first in
  schedule_rows tid true teamIds = first ++ second
  ∧ length second = length first
  ∧ (∀ f, f ∈ first →
       length (List.filter (is_second_leg_of offset f) second) = 1%nat)
  ∧ (∀ g, g ∈ second →
       length (List.filter (λ f, is_second_leg_of offset f g) first) = 1%nat)
  ∧ (∀ g, g ∈ second → offset < s_round g ≤ 2 * offset).
Proof.
  intros Hsize Hnd Hbye offset first second.
  destruct (with_bye_even teamIds Hsize) as [h Hh].
  pose proof (with_bye_length teamIds Hsize) as Hge.
  assert (∃ m, length (with_bye teamIds) = S m) as [m Hlen]
    by (exists (length (with_bye teamIds) - 1)%nat; lia).
  assert (S m = 2 * h)%nat as Hm by lia.
  assert (first = first_leg tid teamIds) as Hfirst by done.
  assert (∀ f0 (p : ScheduleRow → bool),
            f0 ∈ first → p f0 = true →
            (∀ f', p f' = true →
                   s_home_team_id f' = s_home_team_id f0
                   ∧ s_away_team_id f' = s_away_team_id f0) →
            length (List.filter p first) = 1%nat) as Hone.
  { intros f0 p Hf0 Hp0 Hp.
    pose proof Hf0 as Hteams. rewrite Hfirst in Hteams.
    apply (first_leg_teams tid teamIds Hsize Hnd Hbye m h Hlen Hm) in Hteams
      as (a & b & Ha & Hb & Hab & _ & _ & Hha & Haa).
    pose proof (first_leg_meets_once tid teamIds Hsize Hnd Hbye m h Hlen Hm
                  a b Ha Hb Hab) as Honce.
    rewrite <- Hfirst in Honce.
    pose proof (filter_length_pos p first f0 Hf0 Hp0).
    pose proof (filter_length_le p (meets a b) first) as Hle.
    enough (length (List.filter p first) ≤ 1)%nat by lia.
    rewrite <- Honce. apply Hle. intros f' _ Hf'.
    destruct (Hp f' Hf') as [E1 E2]. unfold meets.
    apply bool_decide_eq_true. left. by rewrite E1, E2. }
  split_and!.
  - done.
  - unfold second, secondLeg. apply length_map.
  - intros f Hf. unfold second, secondLeg. rewrite filter_map_length.
    apply (Hone f _ Hf).
    + unfold is_second_leg_of. by apply bool_decide_eq_true.
    + intros f'. unfold is_second_leg_of. rewrite bool_decide_eq_true.
      simpl. intros (_ & ? & ?). done.
  - intros g (f0 & -> & Hf0)%list_elem_of_fmap.
    apply (Hone f0 _ Hf0).
    + unfold is_second_leg_of. by apply bool_decide_eq_true.
    + intros f'. unfold is_second_leg_of. rewrite bool_decide_eq_true.
      simpl. intros (_ & ? & ?). done.
  - intros g (f0 & -> & Hf0)%list_elem_of_fmap.
    rewrite Hfirst in Hf0.
    apply (elem_of_first_leg tid teamIds Hsize Hnd Hbye m h Hlen Hm) in Hf0
      as (k & i & t1 & t2 & Hk & _ & _ & _ & _ & _ & _ & ->).
    unfold fixture. cbn [s_round]. unfold offset. lia.
Qed.

Lemma double_round_robin_witness :
  map (λ r, (s_round r, s_home_team_id r, s_away_team_id r))
    (schedule_rows "T" true ["A"; "B"])
  = [(1, Some "A", Some "B"); (2, Some "B", Some "A")]
  ∧ ∀ f, f ∈ schedule_rows "T" false ["A"; "B"] →
      length (List.filter (is_second_leg_of 1 f)
                (secondLeg 1 (schedule_rows "T" false ["A"; "B"]))) = 1%nat.
Proof.
  split; [by vm_compute|].
  assert (2 ≤ length ["A"; "B"])%nat as Hsize by (simpl; lia).
  assert (NoDup ["A"; "B"]) as Hnd
    by (apply (bool_decide_unpack _); by vm_compute).
  assert (BYE ∉ ["A"; "B"]) as Hbye
    by (apply (bool_decide_unpack _); by vm_compute).
  apply (double_round_robin "T" ["A"; "B"] Hsize Hnd Hbye).
Defined.

End RoundRobinClaims.

(** ** Worked examples *)

Section Examples.
Import JS Fixtures Dashboard Props Samples.

(** Four teams, single leg: three rounds of two fixtures, sides swapped
    in the even round. *)
Example schedule_four_teams :
  map (λ r, (s_round r, s_home_team_id r, s_away_team_id r))
    (schedule_rows "T" false ["A"; "B"; "C"; "D"])
  = [(1, Some "A", Some "D"); (1, Some "B", Some "C");
     (2, Some "C", Some "A"); (2, Some "B", Some "D");
     (3, Some "A", Some "B"); (3, Some "C", Some "D")].
Proof. reflexivity. Qed.

(** Three teams: the marker fills the fourth place and its pair is
    dropped, one fixture per round. *)
Example schedule_three_teams :
  map (λ r, (s_round r, s_home_team_id r, s_away_team_id r))
    (schedule_rows "T" false ["A"; "B"; "C"])
  = [(1, Some "B", Some "C"); (2, Some "C", Some "A");
     (3, Some "A", Some "B")].
Proof. reflexivity. Qed.

Example rotate_four : rotate ["A"; "B"; "C"; "D"] = ["A"; "D"; "B"; "C"].
Proof. reflexivity. Qed.

(** A team whose id is the marker string is dropped like the marker. *)
Example schedule_marker_id : schedule_rows "T" false ["A"; BYE] = [].
Proof. reflexivity. Qed.

Example two_round_example :
  (saveRound1AndGenerateRound2 [stored_row] "T" [draft_AB; draft_CD]).1
  = inr true
  ∧ map (λ f, (f_round_number f, f_match_number f,
               f_home_team_id f, f_away_team_id f, f_source f))
      (saveRound1AndGenerateRound2 [stored_row] "T" [draft_AB; draft_CD]).2
    = [(1, 1, Some "A", Some "B", manual);
       (1, 2, Some "C", Some "D", manual);
       (2, 1, Some "B", Some "A", auto_reverse);
       (2, 2, Some "D", Some "C", auto_reverse)].
Proof. split; reflexivity. Qed.

Example standings_season :
  map (λ r, (team_id r, played r, wins r, draws r, losses r,
             gf r, ga r, gd r, pts r))
    (standings [] pool_ABC season)
  = [("A", 2, 1, 1, 0, 2, 1, 1, 4); ("C", 1, 0, 1, 0, 0, 0, 0, 1);
     ("B", 1, 0, 0, 1, 1, 2, -1, 0)].
Proof. by vm_compute. Qed.

(** A match of a team against itself credits the one row twice. *)
Example standings_self_match :
  map (λ r, (team_id r, played r, wins r, draws r, losses r,
             gf r, ga r, gd r, pts r))
    (standings [] [pool_team "A"] [played_game "m1" "A" "A" 2 1])
  = [("A", 2, 1, 0, 1, 3, 3, 0, 3)].
Proof. by vm_compute. Qed.

Example Number_examples :
  map Number
    ["2.5"; "1e1"; "0x10"; "Infinity"; "-Infinity"; "-3"; " 12 "; ".5";
     "5."; "1e-1"; "10e-1"; "0b101"; ""; nbsp +:+ "7"]
  = [Frac 25 1; Num 10; Num 16; Infinity false; Infinity true; Num (-3);
     Num 12; Frac 5 1; Num 5; Frac 1 1; Num 1; Num 5; Num 0; Num 7]
  ∧ Forall (λ v, Number v = NaN)
      ["-"; "+"; "."; "1e"; "0x"; "-0x10"; "12px"; "1 2"; "1.5.2";
       "infinity"; "e5"].
Proof. split; [by vm_compute|]. repeat constructor. Qed.

Example trim_examples :
  trim ("A" +:+ nbsp) = "A" ∧ trim (nbsp +:+ " A b " +:+ nbsp) = "A b".
Proof. by vm_compute. Qed.

Example clampInt_examples :
  clampInt "-3" 0 99 = "0" ∧ clampInt "150" 0 99 = "99"
  ∧ clampInt " 7 " 0 99 = "7" ∧ clampInt "x" 0 99 = ""
  ∧ clampInt "" 0 99 = "0" ∧ clampInt "2.5" 0 99 = "2"
  ∧ clampInt "1e1" 0 99 = "10" ∧ clampInt "0x10" 0 99 = "16"
  ∧ clampInt "Infinity" 0 99 = "99" ∧ clampInt "-Infinity" 0 99 = "0"
  ∧ clampInt "-0.5" 0 99 = "0" ∧ clampInt "-" 0 99 = "".
Proof. by vm_compute. Qed.

(** Typed key by key, -3 does not reach the field: the minus sign
    alone is no number and empties the field, and the 3 that follows is
    stored. *)
Example typed_minus_three :
  let events :=
    [StartEdit unplayed; ChangeHome (typed "" "-");
     ChangeHome (typed (clampInt "-" 0 99) "3"); ChangeAway (typed "" "1")] in
  foldl (form_step (Some "admin")) closed_form events
  = {| editingMatchId := Some "m1"; editHomeGoals := "3";
       editAwayGoals := "1" |}
  ∧ submit_result (Some "admin") (Some "T") events "2024-05-01" [unplayed]
    = (None, [game "m1" (Some "A") (Some "B") (Some 3) (Some 1)
                (Some "2024-05-01")]).
Proof. by vm_compute. Qed.

(** A field that holds a number in another notation is not refused as
    a non-number. *)
Example save_other_notations :
  (saveMatchResult (Some "admin") (Some "T") "2.5" "1" "2024-05-01" "m1"
     [unplayed]).1
  ≠ Some msg_enter_numbers
  ∧ saveMatchResult (Some "admin") (Some "T") "0x10" "1e1" "2024-05-01" "m1"
      [unplayed]
    = (None, [game "m1" (Some "A") (Some "B") (Some 16) (Some 10)
                (Some "2024-05-01")]).
Proof. split; by vm_compute. Qed.

(** An id followed by a no-break space is the id. *)
Example two_round_no_break_space :
  saveRound1AndGenerateRound2 [stored_row] "T" [draft_A_nbsp]
  = (inl (SelfPairing 4), [stored_row]).
Proof. reflexivity. Qed.

Example shuffle_example :
  shuffle always_first ["A"; "B"; "C"; "D"] = ["B"; "C"; "D"; "A"].
Proof. reflexivity. Qed.

Example lock_then_draw :
  let st := lockRoster true (admin_state two_players false) in
  rosterLocked st = true
  ∧ localStorage st !! "rosterLocked:T" = Some "1"
  ∧ map (λ r, (tp_player_email r, tp_team_id r))
      (tournament_players (drawTeamsForTournament always_first st))
    = [("ana@x", "B"); ("bo@x", "C")].
Proof. by vm_compute. Qed.

End Examples.

(** ** Further properties: two-round fixtures *)

Section TwoRoundMore.
Import JS Fixtures Dashboard Props Samples Admin ScheduleCard PropsMore SamplesMore.

(** X1. [uniq] returns the distinct elements of its argument, in the
    order of their first occurrence: it has no duplicate, the same
    elements, never more of them, as many exactly when the argument has
    no duplicate, in which case it is returned unchanged. *)
Theorem uniq_first_occurrences arr :
  NoDup (uniq arr)
  ∧ (∀ x, x ∈ uniq arr ↔ x ∈ arr)
  ∧ (length (uniq arr) ≤ length arr)%nat
  ∧ (length (uniq arr) = length arr ↔ NoDup arr)
  ∧ (NoDup arr → uniq arr = arr)
  ∧ (∀ x y, before x y (uniq arr) →
            (first_index x arr < first_index y arr)%nat).
Proof.
  unfold uniq. split_and!.
  - apply NoDup_Set_from.
  - apply elem_of_Set_from.
  - pose proof (length_foldl_Set_add_le arr []) as H. simpl in H. done.
  - apply length_Set_from.
  - apply Set_from_NoDup.
  - apply Set_from_before.
Qed.

Lemma uniq_first_occurrences_witness :
  uniq ["B"; "A"; "B"; "C"; "A"] = ["B"; "A"; "C"]
  ∧ uniq ["A"; "B"] = ["A"; "B"].
Proof.
  split; [reflexivity|].
  apply (uniq_first_occurrences ["A"; "B"]).
  apply (bool_decide_unpack _). by vm_compute.
Defined.

Lemma filter_tid_rows (P : FixtureRow → Prop) `{∀ f, Decision (P f)}
    (rows : list FixtureRow) :
  Forall P rows → filter P rows = rows.
Proof.
  induction 1 as [|f rows Hf _ IH]; [done|].
  rewrite filter_cons_True by done. by rewrite IH.
Qed.

Lemma filter_tid_none (P : FixtureRow → Prop) `{∀ f, Decision (P f)}
    (rows : list FixtureRow) :
  Forall (λ f, ¬ P f) rows → filter P rows = [].
Proof.
  induction 1 as [|f rows Hf _ IH]; [done|].
  rewrite filter_cons_False by done. by rewrite IH.
Qed.

Lemma round_rows_tid tid cleaned :
  Forall (λ f, f_tournament_id f = tid)
    (round1Rows tid cleaned ++ round2Rows tid cleaned).
Proof.
  apply Forall_app. split; apply Forall_fmap, Forall_true; done.
Qed.

(** X2. An accepted submission replaces the fixtures of the tournament
    and nothing else: afterwards the fixtures of the tournament are
    exactly the new round 1 followed by the new round 2, two per draft,
    whatever was stored for it before, and the fixtures of every other
    tournament are what they were. *)
Theorem two_round_full_replace db tid drafts db' :
  saveRound1AndGenerateRound2 db tid drafts = (inr true, db') →
  filter (λ f, f_tournament_id f = tid) db'
  = round1Rows tid (map clean drafts) ++ round2Rows tid (map clean drafts)
  ∧ filter (λ f, f_tournament_id f ≠ tid) db'
    = filter (λ f, f_tournament_id f ≠ tid) db
  ∧ length (filter (λ f, f_tournament_id f = tid) db')
    = (2 * length drafts)%nat.
Proof.
  intros Hsave. rewrite save_result_cases in Hsave.
  destruct (validate (map clean drafts)); [done|].
  destruct (decide (NoDup (used (map clean drafts)))); [|done].
  injection Hsave as <-.
  pose proof (round_rows_tid tid (map clean drafts)) as Hnew.
  assert (filter (λ f, f_tournament_id f = tid)
            (delete_tournament tid db) = []) as Hold.
  { apply filter_tid_none. unfold delete_tournament.
    apply Forall_forall. intros f Hf.
    apply list_elem_of_filter in Hf as [? _]. done. }
  split_and!.
  - rewrite filter_app, Hold. simpl. by apply filter_tid_rows.
  - rewrite filter_app.
    rewrite (filter_tid_none (λ f, f_tournament_id f ≠ tid)
               (round1Rows _ _ ++ round2Rows _ _)).
    + rewrite app_nil_r. unfold delete_tournament.
      apply filter_tid_rows, Forall_forall.
      intros f Hf. by apply list_elem_of_filter in Hf as [? _].
    + eapply Forall_impl; [exact Hnew|]. intros f Hf Hn. done.
  - rewrite filter_app, Hold. simpl. rewrite filter_tid_rows by done.
    unfold round1Rows, round2Rows. rewrite length_app, !length_map. lia.
Qed.

Lemma two_round_full_replace_witness :
  filter (λ f, f_tournament_id f = "T")
    (saveRound1AndGenerateRound2 [stored_row] "T" [draft_AB; draft_CD]).2
  = round1Rows "T" (map clean [draft_AB; draft_CD])
    ++ round2Rows "T" (map clean [draft_AB; draft_CD]).
Proof.
  apply (two_round_full_replace [stored_row] "T" [draft_AB; draft_CD] _
           eq_refl).
Defined.

Lemma not_used_no_side cleaned t :
  t ∉ used cleaned →
  List.filter (λ d, String.eqb (home_team_id d) t) cleaned = []
  ∧ List.filter (λ d, String.eqb (away_team_id d) t) cleaned = [].
Proof.
  intros Ht. split; apply filter_none; intros d Hd;
    apply String.eqb_neq; intros <-; apply Ht;
    apply list_elem_of_In, in_flat_map; exists d;
    (split; [by apply list_elem_of_In|]); simpl; auto.
Qed.

(** A team of an accepted list is on exactly one side of exactly one
    draft. *)
Lemma used_once cleaned t :
  NoDup (used cleaned) → t ∈ used cleaned →
  (length (List.filter (λ d, String.eqb (home_team_id d) t) cleaned)
   + length (List.filter (λ d, String.eqb (away_team_id d) t) cleaned)
   = 1)%nat.
Proof.
  induction cleaned as [|d rest IH]; [by intros _ ?%elem_of_nil|].
  change (used (d :: rest))
    with (home_team_id d :: away_team_id d :: used rest).
  intros [Hh [Ha Hnd]%NoDup_cons]%NoDup_cons Ht. cbn [List.filter].
  destruct (String.eqb_spec (home_team_id d) t) as [Eh|Eh].
  - subst t.
    destruct (String.eqb_spec (away_team_id d) (home_team_id d)) as [Ea|Ea].
    { destruct Hh. rewrite Ea. left. }
    destruct (not_used_no_side rest (home_team_id d)) as [-> ->]; [|done].
    intros ?. apply Hh. by right.
  - destruct (String.eqb_spec (away_team_id d) t) as [Ea|Ea].
    + subst t. destruct (not_used_no_side rest (away_team_id d)) as [-> ->];
        done.
    + apply IH; [done|].
      apply elem_of_cons in Ht as [?|Ht]; [congruence|].
      apply elem_of_cons in Ht as [?|Ht]; [congruence|done].
Qed.

Lemma filter_side_rows (side : Cleaned → string) (g : Cleaned → FixtureRow)
    (proj : FixtureRow → option string) t cleaned :
  (∀ d, proj (g d) = Some (side d)) →
  length (List.filter (λ f, bool_decide (proj f = Some t)) (map g cleaned))
  = length (List.filter (λ d, String.eqb (side d) t) cleaned).
Proof.
  intros Hg. rewrite filter_map_length.
  induction cleaned as [|d rest IH]; [done|]. cbn [List.filter].
  rewrite Hg.
  destruct (String.eqb_spec (side d) t) as [->|Hne].
  - rewrite bool_decide_eq_true_2 by done. simpl. by rewrite IH.
  - rewrite bool_decide_eq_false_2 by congruence. done.
Qed.

(** X3. In the fixtures of an accepted submission every team that was
    entered is at home exactly once and away exactly once over the two
    rounds. *)
Theorem two_round_home_and_away db tid drafts db' t :
  saveRound1AndGenerateRound2 db tid drafts = (inr true, db') →
  t ∈ used (map clean drafts) →
  let rows := round1Rows tid (map clean drafts)
              ++ round2Rows tid (map clean drafts) in
  length (List.filter (λ f, bool_decide (f_home_team_id f = Some t)) rows)
  = 1%nat
  ∧ length (List.filter (λ f, bool_decide (f_away_team_id f = Some t)) rows)
    = 1%nat.
Proof.
  intros Hsave Ht rows. rewrite save_result_cases in Hsave.
  destruct (validate (map clean drafts)); [done|].
  destruct (decide (NoDup (used (map clean drafts)))) as [Hnd|]; [|done].
  pose proof (used_once _ t Hnd Ht) as Honce.
  unfold rows, round1Rows, round2Rows.
  rewrite !List.filter_app, !length_app.
  rewrite (filter_side_rows home_team_id _ f_home_team_id) by done.
  rewrite (filter_side_rows away_team_id _ f_home_team_id) by done.
  rewrite (filter_side_rows away_team_id _ f_away_team_id) by done.
  rewrite (filter_side_rows home_team_id _ f_away_team_id) by done.
  lia.
Qed.

Lemma two_round_home_and_away_witness :
  length (List.filter (λ f, bool_decide (f_home_team_id f = Some "D"))
            (round1Rows "T" (map clean [draft_AB; draft_CD])
             ++ round2Rows "T" (map clean [draft_AB; draft_CD]))) = 1%nat.
Proof.
  apply (two_round_home_and_away [stored_row] "T" [draft_AB; draft_CD] _ "D"
           eq_refl).
  apply (bool_decide_unpack _). by vm_compute.
Defined.

End TwoRoundMore.

Section FormMore.
Import JS Fixtures Dashboard Props Samples Admin ScheduleCard PropsMore SamplesMore.

Lemma save_error_keeps db tid drafts e db' :
  saveRound1AndGenerateRound2 db tid drafts = (inl e, db') → db' = db.
Proof.
  rewrite save_result_cases.
  destruct (validate _); [by intros [= _ <-]|].
  destruct (decide _); [done|]. by intros [= _ <-].
Qed.

Lemma complete_fill_blank d :
  complete (fill_blank d) = true
  ↔ or_empty (d_home_team_id d) ≠ "" ∧ or_empty (d_away_team_id d) ≠ "".
Proof.
  unfold complete, fill_blank. simpl.
  rewrite andb_true_iff, !negb_true_iff, !String.eqb_neq. done.
Qed.

Lemma handle_save_fixtures role tid drafts err db db' :
  isAdmin role = true → truthy tid = true →
  handleSaveScheduleRound1 role tid drafts err db = (None, db') →
  let kept := List.filter complete (map fill_blank drafts) in
  kept ≠ []
  ∧ db' = delete_tournament (or_empty tid) db
          ++ (round1Rows (or_empty tid) (map clean kept)
              ++ round2Rows (or_empty tid) (map clean kept)).
Proof.
  intros Hadmin Hactive Hsave kept. unfold handleSaveScheduleRound1 in Hsave.
  rewrite Hadmin, Hactive in Hsave. cbn [negb] in Hsave. fold kept in Hsave.
  destruct (length kept =? 0)%nat eqn:Hlen; [done|].
  destruct (saveRound1AndGenerateRound2 _ _ _) as [[e'|b] db0] eqn:Hsave0;
    [done|].
  injection Hsave as <-. split.
  - intros E. rewrite E in Hlen. done.
  - rewrite save_result_cases in Hsave0.
    destruct (validate _); [done|]. destruct (decide _); [|done].
    by injection Hsave0 as _ <-.
Qed.

(** X4. The handler behind the save button drops the drafts with a blank
    side instead of reporting them: a form with no complete draft is
    refused with the enter-at-least-one-match error; whenever an error is
    shown the fixtures table is what it was; when the chosen ids carry no
    surrounding white space the incomplete-pairing error cannot occur;
    and on success the table holds two fixtures per complete draft in
    place of the tournament's old ones. *)
Theorem handle_save_round1 role tid drafts err db :
  isAdmin role = true → truthy tid = true →
  let res := handleSaveScheduleRound1 role tid drafts err db in
  let kept := List.filter complete (map fill_blank drafts) in
  (Forall (λ d, complete (fill_blank d) = false) drafts →
     res = (Some NoMatchEntered, db))
  ∧ (∀ e, res.1 = Some e → res.2 = db)
  ∧ ((∀ d, d ∈ drafts → trimmed (or_empty (d_home_team_id d))
                        ∧ trimmed (or_empty (d_away_team_id d))) →
     ∀ m, res.1 ≠ Some (Thrown (IncompletePairing m)))
  ∧ (res.1 = None →
     kept ≠ []
     ∧ res.2 = delete_tournament (or_empty tid) db
               ++ (round1Rows (or_empty tid) (map clean kept)
                   ++ round2Rows (or_empty tid) (map clean kept))).
Proof.
  intros Hadmin Hactive res kept. unfold res, handleSaveScheduleRound1.
  rewrite Hadmin, Hactive. cbn [negb]. fold kept. split_and!.
  - intros Hblank.
    assert (kept = []) as ->; [|done].
    unfold kept. apply filter_none. intros d (d0 & -> & Hd0)%list_elem_of_fmap.
    by apply (proj1 (Forall_forall _ _) Hblank).
  - intros e. destruct (length kept =? 0)%nat; [done|].
    destruct (saveRound1AndGenerateRound2 _ _ _) as [[e'|b] db'] eqn:Hsave;
      [|done].
    intros _. simpl. by apply save_error_keeps in Hsave.
  - intros Htrim m. destruct (length kept =? 0)%nat; [done|].
    destruct (saveRound1AndGenerateRound2 _ _ _) as [[e'|b] db'] eqn:Hsave;
      [|done].
    simpl. intros [= ->]. rewrite save_result_cases in Hsave.
    destruct (validate (map clean kept)) as [e|] eqn:Hval;
      [|by destruct (decide _)].
    injection Hsave as -> _.
    apply validate_IncompletePairing in Hval
      as (pre & c & post & Hsplit & _ & Hinc & _).
    assert (c ∈ map clean kept) as Hc.
    { rewrite Hsplit. apply elem_of_app. right. left. }
    apply list_elem_of_fmap in Hc as (d & -> & Hd).
    apply list_elem_of_In, filter_In in Hd as [Hd Hcomp].
    apply list_elem_of_In, list_elem_of_fmap in Hd as (d0 & -> & Hd0).
    apply complete_fill_blank in Hcomp as [Hh Ha].
    destruct (Htrim d0 Hd0) as [Th Ta]. unfold trimmed in Th, Ta.
    unfold incomplete, clean, fill_blank in Hinc. simpl in Hinc.
    destruct Hinc as [Hi|Hi]; congruence.
  - intros Hnone.
    apply (handle_save_fixtures role tid drafts err db); try done.
    unfold handleSaveScheduleRound1. rewrite Hadmin, Hactive. cbn [negb].
    fold kept. apply injective_projections; [done|reflexivity].
Qed.

Lemma handle_save_round1_witness :
  handleSaveScheduleRound1 (Some "admin") (Some "T")
    [draft_AB; draft_half] None [stored_row]
  = (None,
     round1Rows "T" (map clean [draft_AB])
     ++ round2Rows "T" (map clean [draft_AB]))
  ∧ handleSaveScheduleRound1 (Some "admin") (Some "T")
      [draft_half] None [stored_row]
    = (Some NoMatchEntered, [stored_row]).
Proof.
  pose proof (handle_save_round1 (Some "admin") (Some "T")
                [draft_half] None [stored_row] eq_refl eq_refl)
    as (Hblank & _).
  split; [reflexivity|]. apply Hblank. by repeat constructor.
Defined.

Lemma setDraft_match_numbers idx patch drafts :
  patch_match_number patch = None →
  map d_match_number (setDraft idx patch drafts) = map d_match_number drafts.
Proof.
  intros Hp. unfold setDraft.
  assert (∀ (f : nat → nat) l,
            map d_match_number
              (imap (λ i d, if (f i =? idx)%nat then apply_patch patch d else d) l)
            = map d_match_number l) as Hgen.
  { intros f l. revert f. induction l as [|d l IH]; intros f; [done|].
    rewrite imap_cons. cbn [map]. f_equal.
    - destruct (f 0%nat =? idx)%nat; [|done].
      unfold apply_patch. simpl. by rewrite Hp.
    - apply (IH (f ∘ S)). }
  apply (Hgen id).
Qed.

Lemma form_match_numbers n drafts :
  form_drafts n drafts →
  map d_match_number drafts = map (λ i, Z.of_nat i + 1) (seq 0 (n / 2)).
Proof.
  induction 1 as [|idx v drafts _ IH|idx v drafts _ IH].
  - unfold initial_drafts. by rewrite map_map.
  - by rewrite setDraft_match_numbers.
  - by rewrite setDraft_match_numbers.
Qed.

Lemma kept_match_numbers drafts :
  map match_number (map clean (List.filter complete (map fill_blank drafts)))
  `sublist_of` map d_match_number drafts.
Proof.
  induction drafts as [|d drafts IH]; [done|]. cbn [map List.filter].
  destruct (complete (fill_blank d)); cbn [map].
  - by apply sublist_skip.
  - by apply sublist_cons.
Qed.

Lemma numbering_NoDup k : NoDup (map (λ i, Z.of_nat i + 1) (seq 0 k)).
Proof.
  apply NoDup_fmap_2; [|apply NoDup_seq]. intros i j ?. lia.
Qed.

(** X5. Fixtures saved from the form have distinct match numbers within
    each round: the form numbers its drafts 1, 2, ... and a choice of
    team never changes a number, so in the table that a successful save
    leaves no two fixtures of the tournament share round and match
    number, and every match number lies between 1 and half the number
    of teams. *)
Theorem form_fixture_numbers n drafts role tid err db db' :
  isAdmin role = true → truthy tid = true →
  form_drafts n drafts →
  handleSaveScheduleRound1 role tid drafts err db = (None, db') →
  ∀ round,
    NoDup (map f_match_number
             (List.filter
                (λ f, String.eqb (f_tournament_id f) (or_empty tid)
                      && (f_round_number f =? round)) db'))
    ∧ Forall (λ f, 1 ≤ f_match_number f ≤ Z.of_nat (n / 2))
        (List.filter
           (λ f, String.eqb (f_tournament_id f) (or_empty tid)
                 && (f_round_number f =? round)) db').
Proof.
  intros Hadmin Hactive Hform Hsave round.
  destruct (handle_save_fixtures role tid drafts err db db' Hadmin Hactive Hsave)
    as [Hkept ->].
  set (kept := List.filter complete (map fill_blank drafts)) in *.
  pose proof (form_match_numbers n drafts Hform) as Hnum.
  pose proof (kept_match_numbers drafts) as Hsub. fold kept in Hsub.
  rewrite Hnum in Hsub.
  assert (NoDup (map match_number (map clean kept))) as Hnd.
  { eapply sublist_NoDup; [apply numbering_NoDup|exact Hsub]. }
  assert (Forall (λ z, 1 ≤ z ≤ Z.of_nat (n / 2))
            (map match_number (map clean kept))) as Hrange.
  { apply Forall_forall. intros z Hz.
    eapply elem_of_sublist in Hz; [|exact Hsub].
    apply list_elem_of_fmap in Hz as (i & -> & [_ Hi]%elem_of_seq).
    lia. }
  set (p := λ f, String.eqb (f_tournament_id f) (or_empty tid)
                 && (f_round_number f =? round)).
  assert (List.filter p (delete_tournament (or_empty tid) db) = []) as Hdel.
  { apply filter_none. intros f Hf. unfold delete_tournament in Hf.
    apply list_elem_of_filter in Hf as [Hne _]. unfold p.
    by rewrite (proj2 (String.eqb_neq _ _) Hne). }
  rewrite !List.filter_app, Hdel. cbn [app].
  assert (∀ (r : Z) (g : Cleaned → FixtureRow),
            (∀ d, f_tournament_id (g d) = or_empty tid
                  ∧ f_round_number (g d) = r
                  ∧ f_match_number (g d) = match_number d) →
            map f_match_number (List.filter p (map g (map clean kept)))
            = if r =? round then map match_number (map clean kept) else [])
    as Hside.
  { intros r g Hg. generalize (map clean kept). intros l.
    induction l as [|d l IH]; [by destruct (r =? round)|].
    cbn [map List.filter]. destruct (Hg d) as (E1 & E2 & E3).
    unfold p at 1. rewrite E1, E2, String.eqb_refl. cbn [andb].
    destruct (r =? round); cbn [map]; by rewrite ?IH, ?E3. }
  enough (NoDup (map f_match_number
                   (List.filter p (round1Rows (or_empty tid) (map clean kept))
                    ++ List.filter p
                         (round2Rows (or_empty tid) (map clean kept))))
          ∧ Forall (λ z, 1 ≤ z ≤ Z.of_nat (n / 2))
              (map f_match_number
                 (List.filter p (round1Rows (or_empty tid) (map clean kept))
                  ++ List.filter p
                       (round2Rows (or_empty tid) (map clean kept)))))
    as [H1 H2].
  { split; [done|]. by apply Forall_fmap in H2. }
  rewrite map_app. unfold round1Rows, round2Rows.
  rewrite (Hside 1) by done. rewrite (Hside 2) by done.
  destruct (Z.eqb_spec 1 round) as [E1|E1], (Z.eqb_spec 2 round) as [E2|E2];
    try lia; rewrite ?app_nil_r; cbn [app]; split; done || constructor.
Qed.

Lemma form_fixture_numbers_witness :
  NoDup (map f_match_number
           (List.filter
              (λ f, String.eqb (f_tournament_id f) "T"
                    && (f_round_number f =? 1))
              (handleSaveScheduleRound1 (Some "admin") (Some "T")
                 form_ABCD None [stored_row]).2)).
Proof.
  apply (form_fixture_numbers 4 form_ABCD (Some "admin") (Some "T") None
           [stored_row] _ eq_refl eq_refl).
  - unfold form_ABCD. repeat constructor.
  - reflexivity.
Defined.

End FormMore.

(** ** Further properties: round robin *)

Section FlatMapLength.
Context {A B : Type}.

Lemma flat_map_length_const (f : A → list B) l c :
  (∀ x, x ∈ l → length (f x) = c) →
  length (flat_map f l) = (length l * c)%nat.
Proof.
  induction l as [|x l IH]; intros H; simpl; [done|].
  rewrite length_app, (H x) by left. rewrite IH; [lia|].
  intros y Hy. apply H. by right.
Qed.

Lemma flat_map_length_but_one (f : A → list B) l x0 :
  NoDup l → x0 ∈ l → f x0 = [] →
  (∀ x, x ∈ l → x ≠ x0 → length (f x) = 1%nat) →
  length (flat_map f l) = (length l - 1)%nat.
Proof.
  induction l as [|x l IH]; [by intros _ ?%elem_of_nil|].
  intros [Hx Hnd]%NoDup_cons Hin H0 Hone. simpl. rewrite length_app.
  apply elem_of_cons in Hin as [->|Hin].
  - rewrite H0. simpl.
    rewrite (flat_map_length_const f l 1); [lia|].
    intros y Hy. apply Hone; [by right|]. by intros ->.
  - rewrite (Hone x); [|left|by intros ->].
    rewrite IH; try done.
    + destruct l; [by apply elem_of_nil in Hin|simpl; lia].
    + intros y Hy. apply Hone. by right.
Qed.

Lemma filter_length_one_eq (p : A → bool) l x y :
  length (List.filter p l) = 1%nat →
  x ∈ l → y ∈ l → p x = true → p y = true → x = y.
Proof.
  induction l as [|z l IH]; [by intros _ ?%elem_of_nil|].
  cbn [List.filter]. intros Hone Hx Hy Hpx Hpy.
  assert (∀ w, w ∈ l → p w = true → w ∈ List.filter p l) as Hin.
  { intros w Hw Hpw. apply list_elem_of_In, filter_In.
    by rewrite <- list_elem_of_In. }
  destruct (p z) eqn:Hpz.
  - cbn [length] in Hone.
    assert (List.filter p l = []) as Hnil
      by (apply length_zero_iff_nil; lia).
    rewrite Hnil in Hin.
    apply elem_of_cons in Hx as [->|Hx], Hy as [->|Hy]; try done.
    + by apply Hin, elem_of_nil in Hy.
    + by apply Hin, elem_of_nil in Hx.
    + by apply Hin, elem_of_nil in Hx.
  - apply elem_of_cons in Hx as [->|Hx]; [congruence|].
    apply elem_of_cons in Hy as [->|Hy]; [congruence|].
    by apply IH.
Qed.

End FlatMapLength.

Section RoundMore.
Import JS Dashboard Props PropsMore.

Variables (tid : string) (arr : list string) (m h r : nat).
Hypothesis Hlen : length arr = S m.
Hypothesis Hm : (S m = 2 * h)%nat.
Hypothesis Hnd : NoDup arr.

Lemma round_rows_length_full :
  BYE ∉ arr → length (round_rows tid (S m) h arr r) = h.
Proof.
  intros Hbye. unfold round_rows.
  rewrite (flat_map_length_const _ _ 1); [rewrite length_seq; lia|].
  intros i [_ Hi]%elem_of_seq.
  destruct (pair_lookup arr m h Hlen Hm Hnd i) as (t1 & t2 & H1 & H2 & _);
    [lia|].
  rewrite (pair_rows_eq tid arr m h r Hlen Hm i t1 t2 H1 H2).
  rewrite decide_False; [done|].
  intros [->| ->]; apply Hbye; by eapply list_elem_of_lookup_2.
Qed.

Lemma round_rows_length_bye :
  BYE ∈ arr → length (round_rows tid (S m) h arr r) = (h - 1)%nat.
Proof.
  intros [P HP]%list_elem_of_lookup.
  pose proof (lookup_lt_Some _ _ _ HP) as HPlt.
  unfold round_rows.
  rewrite (flat_map_length_but_one _ _ (Nat.min P (m - P)));
    [by rewrite length_seq|apply NoDup_seq|apply elem_of_seq; lia| |].
  - destruct (pair_lookup arr m h Hlen Hm Hnd (Nat.min P (m - P)))
      as (t1 & t2 & H1 & H2 & _); [lia|].
    rewrite (pair_rows_eq tid arr m h r Hlen Hm _ t1 t2 H1 H2).
    rewrite decide_True; [done|].
    destruct (Nat.min_spec P (m - P)) as [[? E]|[? E]]; rewrite E in H1, H2.
    + left. congruence.
    + right. replace (m - (m - P))%nat with P in H2 by lia. congruence.
  - intros i [_ Hi]%elem_of_seq Hne.
    destruct (pair_lookup arr m h Hlen Hm Hnd i) as (t1 & t2 & H1 & H2 & _);
      [lia|].
    rewrite (pair_rows_eq tid arr m h r Hlen Hm i t1 t2 H1 H2).
    rewrite decide_False; [done|].
    intros [->| ->].
    + pose proof (NoDup_lookup _ _ _ _ Hnd H1 HP). lia.
    + pose proof (NoDup_lookup _ _ _ _ Hnd H2 HP). lia.
Qed.

End RoundMore.

Section ScheduleMore.
Import JS Dashboard Props PropsMore Samples.

Lemma round_rows_round tid n half arr r row :
  row ∈ round_rows tid n half arr r → s_round row = Z.of_nat r.
Proof.
  unfold round_rows. rewrite list_elem_of_In, in_flat_map.
  intros (i & _ & Hrow). unfold pair_rows in Hrow.
  destruct (arr !! i); [|done]. destruct (arr !! _); [|done].
  destruct (_ || _); [done|]. by destruct Hrow as [<-|[]].
Qed.

Lemma of_round_filter tid n half arr r r' :
  List.filter (of_round r') (round_rows tid n half arr r)
  = if decide (r = r') then round_rows tid n half arr r else [].
Proof.
  destruct (decide (r = r')) as [->|Hne].
  - apply forallb_filter_id, forallb_forall.
    intros row Hrow%list_elem_of_In%round_rows_round.
    unfold of_round. rewrite Hrow. apply Z.eqb_refl.
  - apply filter_none. intros row Hrow%round_rows_round.
    unfold of_round. rewrite Hrow. apply Z.eqb_neq. lia.
Qed.

Lemma involves_fixture tid r t t1 t2 :
  involves t (fixture tid r t1 t2) ↔ t = t1 ∨ t = t2.
Proof.
  unfold involves, fixture. cbn [s_home_team_id s_away_team_id].
  destruct (r mod 2 =? 1)%nat; split; intros [?|?]; simplify_eq; auto.
Qed.

Lemma meets_hosts_row a b row :
  a ≠ b →
  (if meets a b row then 1 else 0)%nat
  = ((if hosts a b row then 1 else 0) + (if hosts b a row then 1 else 0))%nat.
Proof.
  intros Hab. unfold meets, hosts.
  repeat case_bool_decide; try done; exfalso; intuition congruence.
Qed.

Lemma hosts_meets a b row :
  hosts a b row = true ∨ hosts b a row = true → meets a b row = true.
Proof.
  unfold hosts, meets. rewrite !bool_decide_eq_true. tauto.
Qed.

Lemma hosts_mirror a b off row :
  hosts a b {| s_tournament_id := s_tournament_id row;
               s_round := s_round row + off;
               s_home_team_id := s_away_team_id row;
               s_away_team_id := s_home_team_id row |} = true →
  hosts b a row = true.
Proof.
  unfold hosts. rewrite !bool_decide_eq_true.
  cbn [s_home_team_id s_away_team_id]. tauto.
Qed.

Lemma meets_hosts a b rows :
  a ≠ b →
  length (List.filter (meets a b) rows)
  = (length (List.filter (hosts a b) rows)
     + length (List.filter (hosts b a) rows))%nat.
Proof.
  intros Hab. induction rows as [|row rows IH]; [done|].
  cbn [List.filter]. pose proof (meets_hosts_row a b row Hab) as Hrow.
  destruct (meets a b row), (hosts a b row), (hosts b a row);
    cbn [length]; lia.
Qed.

Variables (tid : string) (teamIds : list string).
Hypothesis Hsize : (2 ≤ length teamIds)%nat.
Hypothesis Hnodup : NoDup teamIds.
Hypothesis Hbye : BYE ∉ teamIds.
Variables (m h : nat).
Hypothesis Hlen : length (with_bye teamIds) = S m.
Hypothesis Hm : (S m = 2 * h)%nat.

Lemma half_of_teams : (length teamIds / 2 = if decide (BYE ∈ with_bye teamIds)
                                            then h - 1 else h)%nat.
Proof.
  pose proof (Nat.div_mod_eq (length teamIds) 2) as Hdiv.
  destruct (with_bye_cases teamIds Hsize) as [[Hmod E]|[Hmod E]].
  - rewrite decide_False by (by rewrite E). rewrite E in Hlen. lia.
  - rewrite decide_True by (rewrite E; apply elem_of_app; right; left).
    rewrite E, length_app in Hlen. cbn [length] in Hlen. lia.
Qed.

Lemma round_length k :
  length (round_rows tid (S m) h (Nat.iter k rotate (with_bye teamIds)) (S k))
  = (length teamIds / 2)%nat.
Proof.
  pose proof (round_arr_length teamIds Hsize m h Hlen Hm k) as Hl.
  pose proof (round_arr_NoDup teamIds Hsize Hnodup Hbye m h Hlen Hm k) as Hn.
  rewrite half_of_teams.
  destruct (decide (BYE ∈ with_bye teamIds)) as [Hin|Hout].
  - apply (round_rows_length_bye tid _ m h (S k) Hl Hm Hn).
    by apply (round_arr_elem_of teamIds Hsize m h Hlen Hm).
  - apply (round_rows_length_full tid _ m h (S k) Hl Hm Hn).
    intros ?%(round_arr_elem_of teamIds Hsize m h Hlen Hm). done.
Qed.

Lemma first_leg_round_count k :
  (k < m)%nat →
  length (List.filter (of_round (S k)) (first_leg tid teamIds))
  = (length teamIds / 2)%nat.
Proof.
  intros Hk. rewrite (first_leg_unfold tid teamIds Hsize m h Hlen Hm).
  rewrite filter_flat_map, (flat_map_single _ _ k).
  - rewrite of_round_filter, decide_True by done. apply round_length.
  - apply NoDup_seq.
  - apply elem_of_seq. lia.
  - intros k' _ Hne. rewrite of_round_filter, decide_False; [done|lia].
Qed.

Lemma first_leg_length :
  length (first_leg tid teamIds) = (m * (length teamIds / 2))%nat.
Proof.
  rewrite (first_leg_unfold tid teamIds Hsize m h Hlen Hm).
  rewrite (flat_map_length_const _ _ (length teamIds / 2)).
  - by rewrite length_seq.
  - intros k _. apply round_length.
Qed.

Lemma first_leg_total :
  (2 * length (first_leg tid teamIds)
   = length teamIds * (length teamIds - 1))%nat.
Proof.
  rewrite first_leg_length, half_of_teams.
  pose proof (Nat.div_mod_eq (length teamIds) 2) as Hdiv.
  destruct (with_bye_cases teamIds Hsize) as [[Hmod E]|[Hmod E]].
  - rewrite decide_False by (by rewrite E). rewrite E in Hlen. nia.
  - rewrite decide_True by (rewrite E; apply elem_of_app; right; left).
    rewrite E, length_app in Hlen. cbn [length] in Hlen. nia.
Qed.

(** No team is in two fixtures of a round. *)
Lemma first_leg_matching f g t :
  f ∈ first_leg tid teamIds → g ∈ first_leg tid teamIds →
  s_round f = s_round g → involves t f → involves t g → f = g.
Proof.
  intros (k & i & t1 & t2 & Hk & Hi & H1 & H2 & _ & _ & _ & ->)
    %(elem_of_first_leg tid teamIds Hsize Hnodup Hbye m h Hlen Hm).
  intros (k' & i' & t1' & t2' & Hk' & Hi' & H1' & H2' & _ & _ & _ & ->)
    %(elem_of_first_leg tid teamIds Hsize Hnodup Hbye m h Hlen Hm).
  unfold fixture at 1 2. cbn [s_round]. intros Hr.
  assert (k' = k) as -> by lia.
  pose proof (round_arr_NoDup teamIds Hsize Hnodup Hbye m h Hlen Hm k) as Hn.
  pose proof (lookup_lt_Some _ _ _ H1). pose proof (lookup_lt_Some _ _ _ H2).
  intros [->| ->]%involves_fixture [E|E]%involves_fixture; subst.
  - pose proof (NoDup_lookup _ _ _ _ Hn H1 H1'). subst i'. congruence.
  - pose proof (NoDup_lookup _ _ _ _ Hn H1 H2'). lia.
  - pose proof (NoDup_lookup _ _ _ _ Hn H2 H1'). lia.
  - pose proof (NoDup_lookup _ _ _ _ Hn H2 H2').
    assert (i' = i) as -> by lia. congruence.
Qed.

(** The first team of the list is always read at position 0. *)
Lemma first_leg_first_team t0 rest row :
  teamIds = t0 :: rest → row ∈ first_leg tid teamIds → involves t0 row →
  ∃ k t2, row = fixture tid (S k) t0 t2.
Proof.
  intros Hteams
    (k & i & t1 & t2 & Hk & Hi & H1 & H2 & _ & _ & _ & ->)
    %(elem_of_first_leg tid teamIds Hsize Hnodup Hbye m h Hlen Hm) Hinv.
  pose proof (round_arr_NoDup teamIds Hsize Hnodup Hbye m h Hlen Hm k) as Hn.
  assert (with_bye teamIds !! 0%nat = Some t0) as Hfirst.
  { destruct (with_bye_cases teamIds Hsize) as [[_ ->]|[_ ->]];
      by rewrite Hteams. }
  assert (Nat.iter k rotate (with_bye teamIds) !! 0%nat = Some t0) as H0.
  { exact (iter_rotate_lookup m k _ 0%nat t0 Hlen ltac:(lia) ltac:(lia)
             Hfirst). }
  apply involves_fixture in Hinv as [->| ->].
  - by exists k, t2.
  - pose proof (NoDup_lookup _ _ _ _ Hn H2 H0). lia.
Qed.

Lemma first_leg_everyone_plays k t :
  BYE ∉ with_bye teamIds → (k < m)%nat → t ∈ teamIds →
  ∃ row, row ∈ first_leg tid teamIds
         ∧ s_round row = Z.of_nat (S k) ∧ involves t row.
Proof.
  intros Hfull Hk Ht.
  pose proof (round_arr_length teamIds Hsize m h Hlen Hm k) as Hl.
  pose proof (round_arr_NoDup teamIds Hsize Hnodup Hbye m h Hlen Hm k) as Hn.
  assert (t ∈ Nat.iter k rotate (with_bye teamIds)) as [P HP]%list_elem_of_lookup.
  { apply (round_arr_elem_of teamIds Hsize m h Hlen Hm).
    apply elem_of_with_bye; auto. }
  pose proof (lookup_lt_Some _ _ _ HP) as HPlt.
  destruct (pair_lookup _ m h Hl Hm Hn (Nat.min P (m - P)))
    as (t1 & t2 & H1 & H2 & Hne); [lia|].
  exists (fixture tid (S k) t1 t2). split_and!.
  - apply (elem_of_first_leg tid teamIds Hsize Hnodup Hbye m h Hlen Hm).
    exists k, (Nat.min P (m - P)), t1, t2. split_and!; try done; [lia| |].
    + intros ->. apply Hfull.
      eapply (round_arr_elem_of teamIds Hsize m h Hlen Hm).
      by eapply list_elem_of_lookup_2.
    + intros ->. apply Hfull.
      eapply (round_arr_elem_of teamIds Hsize m h Hlen Hm).
      by eapply list_elem_of_lookup_2.
  - done.
  - apply involves_fixture.
    destruct (Nat.min_spec P (m - P)) as [[? E]|[? E]]; rewrite E in H1, H2.
    + left. congruence.
    + right. replace (m - (m - P))%nat with P in H2 by lia. congruence.
Qed.

End ScheduleMore.

Section ScheduleIntegrity.
Import JS Dashboard Props PropsMore Samples.

Lemma schedule_shape teamIds :
  (2 ≤ length teamIds)%nat →
  ∃ m h, length (with_bye teamIds) = S m ∧ (S m = 2 * h)%nat.
Proof.
  intros Hsize. destruct (with_bye_even teamIds Hsize) as [h Hh].
  pose proof (with_bye_length teamIds Hsize) as Hge.
  exists (length (with_bye teamIds) - 1)%nat, h. lia.
Qed.

Lemma round_rows_inv tid n half arr r row :
  row ∈ round_rows tid n half arr r →
  ∃ t1 t2, t1 ∈ arr ∧ t2 ∈ arr ∧ t1 ≠ BYE ∧ t2 ≠ BYE
           ∧ row = fixture tid r t1 t2.
Proof.
  unfold round_rows. rewrite list_elem_of_In, in_flat_map.
  intros (i & _ & Hrow). unfold pair_rows in Hrow.
  destruct (arr !! i) as [t1|] eqn:H1; [|done].
  destruct (arr !! (n - 1 - i)%nat) as [t2|] eqn:H2; [|done].
  destruct (String.eqb_spec t1 BYE) as [|Hn1]; [done|].
  destruct (String.eqb_spec t2 BYE) as [|Hn2]; cbn [orb] in Hrow; [done|].
  destruct Hrow as [<-|[]]. exists t1, t2.
  split_and!; try done; by eapply list_elem_of_lookup_2.
Qed.

(** Whatever the team list, a row of the first leg belongs to the
    tournament, has a positive round number and two teams of the list. *)
Lemma first_leg_inv tid teamIds row :
  (2 ≤ length teamIds)%nat → row ∈ first_leg tid teamIds →
  ∃ k a b, row = {| s_tournament_id := tid; s_round := Z.of_nat (S k);
                    s_home_team_id := Some a; s_away_team_id := Some b |}
           ∧ (k < length (with_bye teamIds) - 1)%nat
           ∧ a ∈ teamIds ∧ b ∈ teamIds.
Proof.
  intros Hsize. destruct (schedule_shape teamIds Hsize) as (m & h & Hlen & Hm).
  rewrite (first_leg_unfold tid teamIds Hsize m h Hlen Hm).
  rewrite list_elem_of_In, in_flat_map.
  intros (k & [_ Hk]%in_seq & (t1 & t2 & H1 & H2 & Hn1 & Hn2 & ->)
                               %list_elem_of_In%round_rows_inv).
  apply (round_arr_elem_of teamIds Hsize m h Hlen Hm),
    (elem_of_with_bye teamIds Hsize) in H1, H2.
  destruct H1 as [H1|[? _]]; [|done]. destruct H2 as [H2|[? _]]; [|done].
  unfold fixture. destruct (S k mod 2 =? 1)%nat.
  - exists k, t1, t2. split_and!; try done. lia.
  - exists k, t2, t1. split_and!; try done. lia.
Qed.

End ScheduleIntegrity.

Section RoundRobinMore.
Import JS Dashboard Props PropsMore Samples.

(** X6. Size of a single round robin of N distinct teams: every round
    from 1 to N'-1 has exactly floor(N/2) fixtures (N' is N rounded up to
    an even number), and the schedule has N(N-1)/2 fixtures in all. *)
Theorem round_robin_sizes tid teamIds :
  (2 ≤ length teamIds)%nat → NoDup teamIds → BYE ∉ teamIds →
  let N := length teamIds in
  let n := length (with_bye teamIds) in
  let rows := schedule_rows tid false teamIds in
  (∀ r, (1 ≤ r ≤ n - 1)%nat →
     length (List.filter (of_round r) rows) = (N / 2)%nat)
  ∧ (2 * length rows = N * (N - 1))%nat.
Proof.
  intros Hsize Hnd Hbye N n rows.
  destruct (schedule_shape teamIds Hsize) as (m & h & Hlen & Hm).
  split.
  - intros [|k] Hr; [lia|].
    apply (first_leg_round_count tid teamIds Hsize Hnd Hbye m h Hlen Hm).
    unfold n in Hr. lia.
  - apply (first_leg_total tid teamIds Hsize Hnd Hbye m h Hlen Hm).
Qed.

Lemma round_robin_sizes_witness :
  length (List.filter (of_round 2)
            (schedule_rows "T" false ["A"; "B"; "C"; "D"; "E"])) = 2%nat
  ∧ (2 * length (schedule_rows "T" false ["A"; "B"; "C"; "D"; "E"])
     = 5 * 4)%nat.
Proof.
  assert (2 ≤ length ["A"; "B"; "C"; "D"; "E"])%nat as Hsize
    by (simpl; lia).
  assert (NoDup ["A"; "B"; "C"; "D"; "E"]) as Hnd
    by (apply (bool_decide_unpack _); by vm_compute).
  assert (BYE ∉ ["A"; "B"; "C"; "D"; "E"]) as Hbye
    by (apply (bool_decide_unpack _); by vm_compute).
  destruct (round_robin_sizes "T" ["A"; "B"; "C"; "D"; "E"] Hsize Hnd Hbye)
    as [Hround Htotal].
  split.
  - apply (Hround 2%nat). vm_compute. lia.
  - exact Htotal.
Defined.

(** X7. A round of the single round robin is a matching: two fixtures
    of the same round that share a team are the same fixture.  When the
    number of teams is even, every team has a fixture in every round. *)
Theorem round_robin_rounds_are_matchings tid teamIds :
  (2 ≤ length teamIds)%nat → NoDup teamIds → BYE ∉ teamIds →
  let n := length (with_bye teamIds) in
  let rows := schedule_rows tid false teamIds in
  (∀ f g t, f ∈ rows → g ∈ rows → s_round f = s_round g →
     involves t f → involves t g → f = g)
  ∧ ((length teamIds mod 2 = 0)%nat →
     ∀ r t, (1 ≤ r ≤ n - 1)%nat → t ∈ teamIds →
       ∃ row, row ∈ rows ∧ s_round row = Z.of_nat r ∧ involves t row).
Proof.
  intros Hsize Hnd Hbye n rows.
  destruct (schedule_shape teamIds Hsize) as (m & h & Hlen & Hm).
  split.
  - intros f g t.
    apply (first_leg_matching tid teamIds Hsize Hnd Hbye m h Hlen Hm).
  - intros Heven [|k] t Hr Ht; [lia|].
    apply (first_leg_everyone_plays tid teamIds Hsize Hnd Hbye m h Hlen Hm);
      [|unfold n in Hr; lia|done].
    destruct (with_bye_cases teamIds Hsize) as [[_ ->]|[? _]]; [done|lia].
Qed.

Lemma round_robin_rounds_are_matchings_witness :
  ∃ row, row ∈ schedule_rows "T" false ["A"; "B"; "C"; "D"]
         ∧ s_round row = 3 ∧ involves "C" row.
Proof.
  assert (2 ≤ length ["A"; "B"; "C"; "D"])%nat as Hsize by (simpl; lia).
  assert (NoDup ["A"; "B"; "C"; "D"]) as Hnd
    by (apply (bool_decide_unpack _); by vm_compute).
  assert (BYE ∉ ["A"; "B"; "C"; "D"]) as Hbye
    by (apply (bool_decide_unpack _); by vm_compute).
  destruct (round_robin_rounds_are_matchings "T" ["A"; "B"; "C"; "D"]
              Hsize Hnd Hbye) as [_ Hplays].
  apply (Hplays eq_refl 3%nat "C").
  - vm_compute. lia.
  - apply (bool_decide_unpack _). by vm_compute.
Defined.

(** X8. The team listed first never moves in the working list, so it
    is always the first of its pair: it plays at home in the odd rounds
    and away in the even rounds of the first leg. *)
Theorem first_team_alternates tid t0 rest row :
  (1 ≤ length rest)%nat → NoDup (t0 :: rest) → BYE ∉ t0 :: rest →
  row ∈ schedule_rows tid false (t0 :: rest) → involves t0 row →
  (s_round row mod 2 = 1 → s_home_team_id row = Some t0)
  ∧ (s_round row mod 2 = 0 → s_away_team_id row = Some t0).
Proof.
  intros Hrest Hnd Hbye Hrow Hinv.
  assert (2 ≤ length (t0 :: rest))%nat as Hsize by (cbn [length]; lia).
  destruct (schedule_shape _ Hsize) as (m & h & Hlen & Hm).
  destruct (first_leg_first_team tid _ Hsize Hnd Hbye m h Hlen Hm
              t0 rest row eq_refl Hrow Hinv) as (k & t2 & ->).
  unfold fixture. cbn [s_round s_home_team_id s_away_team_id].
  pose proof (Nat.mod_upper_bound (S k) 2) as Hup.
  destruct (Nat.eqb_spec (S k mod 2) 1) as [E|E]; split; intros Hz;
    try done; exfalso; change 2 with (Z.of_nat 2) in Hz;
    rewrite <- Nat2Z.inj_mod in Hz; lia.
Qed.

Lemma first_team_alternates_witness :
  s_away_team_id (fixture "T" 2 "A" "C") = Some "A".
Proof.
  assert (NoDup ["A"; "B"; "C"]) as Hnd
    by (apply (bool_decide_unpack _); by vm_compute).
  assert (BYE ∉ ["A"; "B"; "C"]) as Hbye
    by (apply (bool_decide_unpack _); by vm_compute).
  assert (fixture "T" 2 "A" "C" ∈ schedule_rows "T" false ["A"; "B"; "C"])
    as Hrow by (apply list_elem_of_In; vm_compute; tauto).
  assert (involves "A" (fixture "T" 2 "A" "C")) as Hinv by (by right).
  assert (1 ≤ length ["B"; "C"])%nat as Hrest by (simpl; lia).
  destruct (first_team_alternates "T" "A" ["B"; "C"] _
              Hrest Hnd Hbye Hrow Hinv) as [_ Heven].
  apply Heven. reflexivity.
Defined.

(** X9. With the double flag every ordered pair of distinct teams has
    exactly one fixture, the first at home against the second; there are
    N(N-1) fixtures; the rounds run from 1 to 2(N'-1), and the return
    fixture of a pair is played N'-1 rounds after their first one. *)
Theorem double_round_robin_home_and_away tid teamIds :
  (2 ≤ length teamIds)%nat → NoDup teamIds → BYE ∉ teamIds →
  let N := length teamIds in
  let n := length (with_bye teamIds) in
  let rows := schedule_rows tid true teamIds in
  (∀ a b, a ∈ teamIds → b ∈ teamIds → a ≠ b →
     length (List.filter (hosts a b) rows) = 1%nat)
  ∧ length rows = (N * (N - 1))%nat
  ∧ (∀ row, row ∈ rows → 1 ≤ s_round row ≤ 2 * Z.of_nat (n - 1))
  ∧ (∀ f g a b, f ∈ rows → g ∈ rows → hosts a b f = true →
       hosts b a g = true →
       s_round g = s_round f + Z.of_nat (n - 1)
       ∨ s_round f = s_round g + Z.of_nat (n - 1)).
Proof.
  intros Hsize Hnd Hbye N n rows.
  destruct (schedule_shape teamIds Hsize) as (m & h & Hlen & Hm).
  pose proof (first_leg_meets_once tid teamIds Hsize Hnd Hbye m h Hlen Hm)
    as Honce.
  pose proof (first_leg_total tid teamIds Hsize Hnd Hbye m h Hlen Hm)
    as Htotal.
  assert (rows = first_leg tid teamIds
                 ++ secondLeg (Z.of_nat (n - 1)) (first_leg tid teamIds))
    as Hrows by done.
  assert (∀ a b off l,
    length (List.filter (hosts a b) (secondLeg off l))
    = length (List.filter (hosts b a) l)) as Hswap.
  { intros a b off l. unfold secondLeg. rewrite filter_map_length.
    f_equal. apply List.filter_ext. intros row. unfold hosts.
    cbn [s_home_team_id s_away_team_id]. apply bool_decide_ext. tauto. }
  assert (∀ row, row ∈ first_leg tid teamIds →
            1 ≤ s_round row ≤ Z.of_nat (n - 1)) as Hrange.
  { intros row
      (k & i & t1 & t2 & Hk & _ & _ & _ & _ & _ & _ & ->)
      %(elem_of_first_leg tid teamIds Hsize Hnd Hbye m h Hlen Hm).
    unfold fixture, n. cbn [s_round]. lia. }
  assert (∀ f g a b, f ∈ first_leg tid teamIds → g ∈ first_leg tid teamIds →
            meets a b f = true → meets a b g = true → f = g ∧ a ≠ b)
    as Hsame.
  { intros f g a b Hf Hg Hmf Hmg.
    destruct (first_leg_teams tid teamIds Hsize Hnd Hbye m h Hlen Hm f Hf)
      as (a' & b' & Ha' & Hb' & Hd & _ & _ & E1 & E2).
    assert (a ∈ teamIds ∧ b ∈ teamIds ∧ a ≠ b) as (Ha & Hb & Hab).
    { apply bool_decide_eq_true in Hmf as [[? ?]|[? ?]];
        split_and!; congruence. }
    split; [|done].
    by apply (filter_length_one_eq (meets a b) (first_leg tid teamIds));
      [apply Honce|..]. }
  split_and!.
  - intros a b Ha Hb Hab. rewrite Hrows, List.filter_app, length_app, Hswap.
    rewrite <- meets_hosts by done. by apply Honce.
  - rewrite Hrows, length_app. unfold secondLeg. rewrite length_map.
    fold N in Htotal. lia.
  - intros row. rewrite Hrows, elem_of_app. intros [Hrow|Hrow].
    + apply Hrange in Hrow. lia.
    + unfold secondLeg in Hrow. apply list_elem_of_fmap in Hrow
        as (f & -> & Hf%Hrange). cbn [s_round]. lia.
  - intros f g a b Hf Hg Hab Hba.
    rewrite Hrows, !elem_of_app in Hf, Hg. unfold secondLeg in Hf, Hg.
    destruct Hf as [Hf|(f' & -> & Hf)%list_elem_of_fmap],
             Hg as [Hg|(g' & -> & Hg)%list_elem_of_fmap].
    + exfalso.
      destruct (Hsame f g a b Hf Hg) as [-> Hne];
        [by apply hosts_meets; left|by apply hosts_meets; right|].
      apply bool_decide_eq_true in Hab, Hba. destruct Hab, Hba. congruence.
    + left. apply hosts_mirror in Hba.
      destruct (Hsame f g' a b Hf Hg) as [-> _];
        [by apply hosts_meets; left|by apply hosts_meets; left|].
      done.
    + right. apply hosts_mirror in Hab.
      destruct (Hsame f' g a b Hf Hg) as [-> _];
        [by apply hosts_meets; right|by apply hosts_meets; right|].
      done.
    + exfalso. apply hosts_mirror in Hab, Hba.
      destruct (Hsame f' g' a b Hf Hg) as [-> Hne];
        [by apply hosts_meets; right|by apply hosts_meets; left|].
      apply bool_decide_eq_true in Hab, Hba. destruct Hab, Hba. congruence.
Qed.

Lemma double_round_robin_home_and_away_witness :
  length (List.filter (hosts "C" "A")
            (schedule_rows "T" true ["A"; "B"; "C"])) = 1%nat
  ∧ length (schedule_rows "T" true ["A"; "B"; "C"]) = (3 * 2)%nat.
Proof.
  assert (2 ≤ length ["A"; "B"; "C"])%nat as Hsize by (simpl; lia).
  assert (NoDup ["A"; "B"; "C"]) as Hnd
    by (apply (bool_decide_unpack _); by vm_compute).
  assert (BYE ∉ ["A"; "B"; "C"]) as Hbye
    by (apply (bool_decide_unpack _); by vm_compute).
  destruct (double_round_robin_home_and_away "T" ["A"; "B"; "C"]
              Hsize Hnd Hbye) as (Hhosts & Htotal & _).
  split.
  - apply Hhosts; [| |done]; apply (bool_decide_unpack _); by vm_compute.
  - exact Htotal.
Defined.

(** X10. The schedule handler is guarded: it inserts rows only for an
    admin with an active tournament, at least two registered teams and
    no match yet; whatever the team list, every inserted row belongs to
    the active tournament, has a round number from 1 up and two teams of
    the registered list with non-empty ids. *)
Theorem generateSchedule_guarded role active double teamsData count msg rows :
  generateSchedule role active double teamsData count = (msg, rows) →
  (rows ≠ [] →
     isAdmin role = true ∧ truthy active = true
     ∧ (2 ≤ length (List.filter nonempty teamsData))%nat ∧ count ≤ 0)
  ∧ (∀ row, row ∈ rows →
       s_tournament_id row = or_empty active ∧ 1 ≤ s_round row
       ∧ ∃ a b, s_home_team_id row = Some a ∧ s_away_team_id row = Some b
                ∧ a ∈ teamsData ∧ b ∈ teamsData ∧ a ≠ "" ∧ b ≠ "").
Proof.
  unfold generateSchedule.
  destruct (isAdmin role); cbn [negb];
    [|intros [= <- <-]; split; [done|by intros ? ?%elem_of_nil]].
  destruct (truthy active); cbn [negb];
    [|intros [= <- <-]; split; [done|by intros ? ?%elem_of_nil]].
  destruct (Nat.ltb_spec (length (List.filter nonempty teamsData)) 2)
    as [|Hsize];
    [intros [= <- <-]; split; [done|by intros ? ?%elem_of_nil]|].
  destruct (Z.ltb_spec 0 count) as [|Hcount];
    [intros [= <- <-]; split; [done|by intros ? ?%elem_of_nil]|].
  intros [= <- <-]. split; [done|].
  assert (∀ row, row ∈ first_leg (or_empty active)
                         (List.filter nonempty teamsData) →
     s_tournament_id row = or_empty active ∧ 1 ≤ s_round row
     ∧ ∃ a b, s_home_team_id row = Some a ∧ s_away_team_id row = Some b
              ∧ a ∈ teamsData ∧ b ∈ teamsData ∧ a ≠ "" ∧ b ≠ "") as Hfirst.
  { intros row (k & a & b & -> & _ & Ha & Hb)%first_leg_inv; [|done].
    cbn [s_tournament_id s_round s_home_team_id s_away_team_id].
    apply list_elem_of_In, filter_In in Ha as [Ha%list_elem_of_In Hea].
    apply list_elem_of_In, filter_In in Hb as [Hb%list_elem_of_In Heb].
    split_and!; [done|lia|]. exists a, b. split_and!; try done.
    - by intros ->.
    - by intros ->. }
  intros row. unfold schedule_rows. destruct double; [|apply Hfirst].
  rewrite elem_of_app. intros [Hrow|Hrow]; [by apply Hfirst|].
  unfold secondLeg in Hrow.
  apply list_elem_of_fmap in Hrow as (f & -> & Hf).
  destruct (Hfirst f Hf) as (Ht & Hr & a & b & Ha & Hb & ? & ? & ? & ?).
  cbn [s_tournament_id s_round s_home_team_id s_away_team_id].
  split_and!; [done|lia|]. exists b, a. by split_and!.
Qed.

Lemma generateSchedule_guarded_witness :
  isAdmin (Some "admin") = true ∧ 0 ≤ 0
  ∧ ∀ row,
      row ∈ (generateSchedule (Some "admin") (Some "T") true
               ["A"; ""; "B"; "C"] 0).2 →
      s_tournament_id row = "T".
Proof.
  destruct (generateSchedule_guarded (Some "admin") (Some "T") true
              ["A"; ""; "B"; "C"] 0 _ _ eq_refl) as [Hguard Hrows].
  destruct Hguard as (Hadmin & _ & _ & Hcount).
  - by vm_compute.
  - split_and!; [done|lia|]. intros row Hrow. by apply Hrows.
Defined.

End RoundRobinMore.

(** ** Further properties: roster gate and draw *)

Section GateMore.
Import JS Dashboard Props Samples Views Admin PropsMore SamplesMore.

Lemma rosterKey_inj a b : rosterKey a = rosterKey b → a = b.
Proof. unfold rosterKey. apply (inj (String.app _)). Qed.

Lemma rosterKey_not_active tid : rosterKey tid ≠ "activeTournamentId".
Proof. unfold rosterKey. cbn. discriminate. Qed.

Lemma stored_lock_active ls v tid :
  stored_lock (<["activeTournamentId" := v]> ls) tid = stored_lock ls tid.
Proof.
  unfold stored_lock. rewrite lookup_insert_ne; [done|].
  intros E. by apply (rosterKey_not_active tid).
Qed.

Lemma stored_lock_insert ls tid tid' :
  stored_lock (<[rosterKey tid := "1"]> ls) tid'
  = if decide (tid = tid') then true else stored_lock ls tid'.
Proof.
  unfold stored_lock. destruct (decide (tid = tid')) as [->|Hne].
  - by rewrite lookup_insert_eq, bool_decide_eq_true_2.
  - rewrite lookup_insert_ne; [done|]. by intros ?%rosterKey_inj.
Qed.

Lemma stored_lock_delete ls tid tid' :
  stored_lock (delete (rosterKey tid) ls) tid'
  = if decide (tid = tid') then false else stored_lock ls tid'.
Proof.
  unfold stored_lock. destruct (decide (tid = tid')) as [->|Hne].
  - by rewrite lookup_delete_eq, bool_decide_eq_false_2.
  - rewrite lookup_delete_ne; [done|]. by intros ?%rosterKey_inj.
Qed.

(** What a step leaves alone. *)
Lemma gate_step_frame st a :
  role (gate_step st a) = role st
  ∧ players (gate_step st a) = players st
  ∧ (¬ is_select a →
     activeTournamentId (gate_step st a) = activeTournamentId st
     ∧ tournamentTeams (gate_step st a) = tournamentTeams st).
Proof.
  destruct a as [c|c|random|c|id pool]; cbn [gate_step is_select].
  - unfold lockRoster. repeat case_match; done.
  - unfold unlockRoster. repeat case_match; done.
  - unfold drawTeamsForTournament. repeat case_match; done.
  - unfold resetDraw. repeat case_match; done.
  - unfold select, syncRosterLocked.
    repeat case_match; split_and!; try done; tauto.
Qed.

Lemma gate_step_storage st a tid :
  tid ≠ or_empty (activeTournamentId st) →
  stored_lock (localStorage (gate_step st a)) tid
  = stored_lock (localStorage st) tid.
Proof.
  intros Hne. destruct a as [c|c|random|c|id pool]; cbn [gate_step].
  - unfold lockRoster. repeat case_match; try done.
    cbn [localStorage setTpMsg setRosterLocked setLocalStorage].
    rewrite stored_lock_insert, decide_False; [done|]. by intros <-.
  - unfold unlockRoster. repeat case_match; try done.
    cbn [localStorage setTpMsg setRosterLocked setLocalStorage].
    rewrite stored_lock_delete, decide_False; [done|]. by intros <-.
  - unfold drawTeamsForTournament. repeat case_match; done.
  - unfold resetDraw. repeat case_match; done.
  - unfold select, syncRosterLocked. repeat case_match; try done;
      cbn [localStorage setLocalStorage]; by rewrite stored_lock_active.
Qed.

Lemma select_gate id pool st :
  activeTournamentId (select id pool st) = id
  ∧ rosterLocked (select id pool st)
    = truthy id && stored_lock (localStorage st) (or_empty id)
  ∧ ∀ tid, stored_lock (localStorage (select id pool st)) tid
           = stored_lock (localStorage st) tid.
Proof.
  unfold select, syncRosterLocked.
  cbn [activeTournamentId setActiveTournamentId].
  destruct (truthy id) eqn:Ht; cbn [negb andb].
  - cbn [activeTournamentId rosterLocked localStorage setLocalStorage
         setTournamentTeams loadTournamentPlayers setTournamentPlayers
         setTpMsg setRosterLocked setActiveTournamentId].
    split_and!; try done. intros tid. apply stored_lock_active.
  - done.
Qed.

Lemma gate_step_agrees st a : gate_agrees st → gate_agrees (gate_step st a).
Proof.
  unfold gate_agrees. intros Hst.
  destruct a as [c|c|random|c|id pool]; cbn [gate_step].
  - unfold lockRoster.
    destruct (isAdmin (role st)); cbn [negb]; [|done].
    destruct (truthy (activeTournamentId st)) eqn:Ht; cbn [negb];
      [|by rewrite Ht].
    destruct (_ <? _)%nat.
    { cbn [rosterLocked localStorage activeTournamentId setTpMsg
           setInviteMsg]. by rewrite Ht. }
    destruct c; cbn [negb]; [|by rewrite Ht].
    cbn [rosterLocked localStorage activeTournamentId setTpMsg
         setRosterLocked setLocalStorage].
    by rewrite Ht, stored_lock_insert, decide_True.
  - unfold unlockRoster.
    destruct (isAdmin (role st)); cbn [negb]; [|done].
    destruct (truthy (activeTournamentId st)) eqn:Ht; cbn [negb];
      [|by rewrite Ht].
    destruct c; cbn [negb]; [|by rewrite Ht].
    cbn [rosterLocked localStorage activeTournamentId setTpMsg
         setRosterLocked setLocalStorage].
    by rewrite Ht, stored_lock_delete, decide_True.
  - unfold drawTeamsForTournament. repeat case_match; done.
  - unfold resetDraw. repeat case_match; done.
  - case_bool_decide; [done|].
    destruct (select_gate id pool st) as (-> & -> & ->). done.
Qed.

(** X11. The gate shown by the page follows the stored flag of the
    active tournament through any sequence of locking, unlocking,
    drawing, resetting the draw and switching tournament; the steps
    never change the role or the roster; and as long as the tournament
    is not switched, the pool and the stored flag of every other
    tournament stay as they were. *)
Theorem gate_follows_storage st steps :
  gate_agrees st →
  gate_agrees (gate_run st steps)
  ∧ role (gate_run st steps) = role st
  ∧ players (gate_run st steps) = players st
  ∧ ((∀ a, a ∈ steps → ¬ is_select a) →
     activeTournamentId (gate_run st steps) = activeTournamentId st
     ∧ tournamentTeams (gate_run st steps) = tournamentTeams st
     ∧ ∀ tid, tid ≠ or_empty (activeTournamentId st) →
         stored_lock (localStorage (gate_run st steps)) tid
         = stored_lock (localStorage st) tid).
Proof.
  unfold gate_run. revert st.
  induction steps as [|a steps IH]; intros st Hst; [done|].
  cbn [foldl].
  destruct (IH (gate_step st a) (gate_step_agrees st a Hst))
    as (Hag & Hrole & Hps & Hrest).
  destruct (gate_step_frame st a) as (Hr1 & Hp1 & Ha1).
  split_and!; [done|congruence|congruence|].
  intros Hno.
  assert (¬ is_select a) as Hna by (apply Hno; left).
  destruct (Ha1 Hna) as [Hact1 Hteams1].
  destruct Hrest as (Hactive & Hteams & Hlocks).
  { intros b Hb. apply Hno. by right. }
  rewrite Hactive, Hteams, Hact1, Hteams1. split_and!; [done|done|].
  intros tid Htid. rewrite Hlocks by (by rewrite Hact1).
  by apply gate_step_storage.
Qed.

Lemma gate_follows_storage_witness :
  rosterLocked
    (gate_run (admin_state two_players false)
       [Lock true; Select (Some "U") []; Lock false;
        Select (Some "T") pool_ABC])
  = true.
Proof.
  destruct (gate_follows_storage (admin_state two_players false)
              [Lock true; Select (Some "U") []; Lock false;
               Select (Some "T") pool_ABC])
    as (Hag & _).
  - reflexivity.
  - rewrite Hag. reflexivity.
Defined.

(** X12. Locking and then unlocking the roster of a tournament leaves
    no stored flag for it, whatever was stored before, and the gate
    open; a lock is found again when the administrator comes back to the
    tournament after looking at another one. *)
Theorem lock_then_unlock st :
  isAdmin (role st) = true → truthy (activeTournamentId st) = true →
  (2 ≤ length (onlyPlayers (players st)))%nat →
  let key := rosterKey (or_empty (activeTournamentId st)) in
  let locked := lockRoster true st in
  let unlocked := unlockRoster true locked in
  rosterLocked locked = true
  ∧ localStorage locked !! key = Some "1"
  ∧ rosterLocked unlocked = false
  ∧ localStorage unlocked = delete key (localStorage st)
  ∧ tournament_players unlocked = tournament_players st
  ∧ tournamentPlayers unlocked = tournamentPlayers st
  ∧ (∀ other pool pool', other ≠ activeTournamentId st →
       rosterLocked
         (gate_run locked
            [Select other pool; Select (activeTournamentId st) pool'])
       = true).
Proof.
  intros Hadmin Hactive Hsize key locked unlocked.
  assert (locked
          = setTpMsg (Some msg_roster_locked)
              (setRosterLocked true
                 (setLocalStorage (<[key := "1"]> (localStorage st)) st)))
    as Hlocked.
  { unfold locked, lockRoster. rewrite Hadmin, Hactive. cbn [negb].
    by destruct (Nat.ltb_spec (length (onlyPlayers (players st))) 2);
      [lia|]. }
  assert (unlocked
          = setTpMsg (Some msg_roster_unlocked)
              (setRosterLocked false
                 (setLocalStorage
                    (delete key (<[key := "1"]> (localStorage st))) locked)))
    as Hunlocked.
  { unfold unlocked, unlockRoster. rewrite Hlocked.
    cbn [role activeTournamentId localStorage setTpMsg setRosterLocked
         setLocalStorage].
    by rewrite Hadmin, Hactive. }
  split_and!.
  - by rewrite Hlocked.
  - rewrite Hlocked. cbn [localStorage setTpMsg setRosterLocked
                          setLocalStorage]. apply lookup_insert_eq.
  - by rewrite Hunlocked.
  - rewrite Hunlocked. cbn [localStorage setTpMsg setRosterLocked
                            setLocalStorage]. apply delete_insert_eq.
  - by rewrite Hunlocked, Hlocked.
  - by rewrite Hunlocked, Hlocked.
  - intros other pool pool' Hother. unfold gate_run. cbn [foldl gate_step].
    assert (activeTournamentId locked = activeTournamentId st) as Hact
      by (by rewrite Hlocked).
    rewrite Hact. rewrite (bool_decide_eq_false_2 (other = _)) by done.
    destruct (select_gate other pool locked) as (Hsw & _ & Hls).
    rewrite Hsw. rewrite bool_decide_eq_false_2 by done.
    destruct (select_gate (activeTournamentId st) pool'
                (select other pool locked)) as (_ & -> & _).
    rewrite Hactive, Hls, Hlocked.
    cbn [andb localStorage setTpMsg setRosterLocked setLocalStorage].
    apply bool_decide_eq_true_2, lookup_insert_eq.
Qed.

Lemma lock_then_unlock_witness :
  localStorage
    (unlockRoster true (lockRoster true (admin_state two_players false)))
  = ∅
  ∧ rosterLocked
      (gate_run (lockRoster true (admin_state two_players false))
         [Select None []; Select (Some "T") pool_ABC])
    = true.
Proof.
  destruct (lock_then_unlock (admin_state two_players false))
    as (_ & _ & _ & Hls & _ & _ & Hback).
  - reflexivity.
  - reflexivity.
  - vm_compute. lia.
  - split.
    + rewrite Hls. apply delete_empty.
    + apply (Hback None). done.
Defined.

End GateMore.

Section DrawMore.
Import JS Dashboard Props Samples Views Admin PropsMore SamplesMore.

Lemma draw_of_others tid table : draw_of tid (others_of tid table) = [].
Proof.
  unfold draw_of, others_of. apply filter_none.
  intros r [_ Hr]%list_elem_of_In%filter_In. by destruct (String.eqb _ _).
Qed.

Lemma others_of_idemp tid table :
  others_of tid (others_of tid table) = others_of tid table.
Proof.
  unfold others_of. apply forallb_filter_id, forallb_forall.
  by intros r [_ Hr]%filter_In.
Qed.

Lemma draw_of_rows tid rows :
  Forall (λ r, tp_tournament_id r = tid) rows →
  draw_of tid rows = rows ∧ others_of tid rows = [].
Proof.
  intros Hall. rewrite Forall_forall in Hall. split.
  - apply forallb_filter_id, forallb_forall.
    intros r Hr%list_elem_of_In%Hall. by apply String.eqb_eq.
  - apply filter_none. intros r Hr%Hall.
    by rewrite (proj2 (String.eqb_eq _ _) Hr).
Qed.

Lemma draw_rows_tid random tid ps teams :
  Forall (λ r, tp_tournament_id r = tid) (draw_rows random tid ps teams).
Proof.
  rewrite draw_rows_zip. generalize (take (length ps) (shuffle random teams)).
  induction ps as [|p ps IH]; intros [|t l]; simpl; constructor;
    [done|apply IH].
Qed.

(** The state after a draw that passes the guards. *)
Lemma draw_success random st :
  isAdmin (role st) = true → truthy (activeTournamentId st) = true →
  rosterLocked st = true →
  (2 ≤ length (onlyPlayers (players st)))%nat →
  (length (onlyPlayers (players st)) ≤ length (tournamentTeams st))%nat →
  let tid := or_empty (activeTournamentId st) in
  let rows := draw_rows random tid (onlyPlayers (players st))
                (tournamentTeams st) in
  let st' := drawTeamsForTournament random st in
  tournament_players st' = others_of tid (tournament_players st) ++ rows
  ∧ tournamentPlayers st' = rows
  ∧ tpMsg st' = None
  ∧ rosterLocked st' = true ∧ localStorage st' = localStorage st.
Proof.
  intros Hadmin Hactive Hlocked Hsize Hpool tid rows st'.
  unfold st', drawTeamsForTournament.
  rewrite Hadmin, Hactive, Hlocked. cbn [negb].
  destruct (Nat.ltb_spec (length (onlyPlayers (players st))) 2); [lia|].
  destruct (Nat.ltb_spec (length (tournamentTeams st))
              (length (onlyPlayers (players st)))); [lia|].
  cbn [tournament_players tournamentPlayers tpMsg rosterLocked localStorage
       players tournamentTeams loadTournamentPlayers setTpMsg
       setTournamentPlayers store_tournament_players].
  split_and!; try done.
  change (draw_of tid (others_of tid (tournament_players st) ++ rows) = rows).
  unfold draw_of. rewrite List.filter_app.
  change (draw_of tid (others_of tid (tournament_players st))
          ++ draw_of tid rows = rows).
  rewrite draw_of_others.
  by destruct (draw_of_rows tid rows (draw_rows_tid _ _ _ _)) as [-> _].
Qed.

Lemma reset_success st :
  isAdmin (role st) = true → truthy (activeTournamentId st) = true →
  let tid := or_empty (activeTournamentId st) in
  let st' := resetDraw true st in
  tournament_players st' = others_of tid (tournament_players st)
  ∧ tournamentPlayers st' = []
  ∧ tpMsg st' = None
  ∧ rosterLocked st' = rosterLocked st ∧ localStorage st' = localStorage st
  ∧ role st' = role st ∧ activeTournamentId st' = activeTournamentId st
  ∧ players st' = players st ∧ tournamentTeams st' = tournamentTeams st.
Proof.
  intros Hadmin Hactive tid st'. unfold st', resetDraw.
  rewrite Hadmin, Hactive. cbn [negb].
  cbn [tournament_players tournamentPlayers tpMsg rosterLocked localStorage
       players tournamentTeams role activeTournamentId
       loadTournamentPlayers setTpMsg
       setTournamentPlayers store_tournament_players].
  split_and!; try done.
  change (draw_of tid (others_of tid (tournament_players st)) = []).
  apply draw_of_others.
Qed.

Lemma teamToPlayerEmail_snoc rows r :
  teamToPlayerEmail (rows ++ [r])
  = <[tp_team_id r := tp_player_email r]> (teamToPlayerEmail rows).
Proof. unfold teamToPlayerEmail. by rewrite foldl_app. Qed.

Lemma teamToPlayerEmail_None rows t :
  t ∉ map tp_team_id rows → teamToPlayerEmail rows !! t = None.
Proof.
  induction rows as [|r rows IH] using rev_ind; [done|].
  rewrite map_app, elem_of_app. cbn [map]. intros Hnot.
  rewrite teamToPlayerEmail_snoc, lookup_insert_ne.
  - apply IH. tauto.
  - intros <-. apply Hnot. right. left.
Qed.

Lemma teamToPlayerEmail_lookup rows r :
  NoDup (map tp_team_id rows) → r ∈ rows →
  teamToPlayerEmail rows !! tp_team_id r = Some (tp_player_email r).
Proof.
  induction rows as [|x rows IH] using rev_ind;
    [by intros _ ?%elem_of_nil|].
  rewrite map_app. cbn [map].
  intros (Hnd & Hx & _)%NoDup_app [Hr|Hr]%elem_of_app;
    rewrite teamToPlayerEmail_snoc.
  2: { apply list_elem_of_singleton in Hr as ->. apply lookup_insert_eq. }
  - rewrite lookup_insert_ne; [by apply IH|].
    intros E. apply (Hx (tp_team_id r)).
    + by apply list_elem_of_fmap_2.
    + rewrite E. left.
Qed.

(** X13. A draw that passes the guards replaces the rows of the
    tournament in the table by the new rows and leaves the rows of the
    other tournaments as they were; the page then holds exactly the new
    rows, the message set on success is cleared again by the reload, and
    the gate is untouched. With distinct pool teams the map from team to
    player built from the page's rows finds the player of every row. *)
Theorem draw_publishes random st :
  isAdmin (role st) = true → truthy (activeTournamentId st) = true →
  rosterLocked st = true →
  (2 ≤ length (onlyPlayers (players st)))%nat →
  (length (onlyPlayers (players st)) ≤ length (tournamentTeams st))%nat →
  let tid := or_empty (activeTournamentId st) in
  let rows := draw_rows random tid (onlyPlayers (players st))
                (tournamentTeams st) in
  let st' := drawTeamsForTournament random st in
  draw_of tid (tournament_players st') = rows
  ∧ others_of tid (tournament_players st')
    = others_of tid (tournament_players st)
  ∧ tournamentPlayers st' = rows
  ∧ tpMsg st' = None
  ∧ rosterLocked st' = true ∧ localStorage st' = localStorage st
  ∧ (NoDup (map tt_team_id (tournamentTeams st)) →
     ∀ r, r ∈ rows →
       teamToPlayerEmail (tournamentPlayers st') !! tp_team_id r
       = Some (tp_player_email r)).
Proof.
  intros Hadmin Hactive Hlocked Hsize Hpool tid rows st'.
  destruct (draw_success random st Hadmin Hactive Hlocked Hsize Hpool)
    as (Htable & Hview & Hmsg & Hgate & Hls).
  fold tid rows st' in Htable, Hview, Hmsg, Hgate, Hls.
  destruct (draw_of_rows tid rows (draw_rows_tid _ _ _ _)) as [Hin Hout].
  split_and!; try done.
  - rewrite Htable. unfold draw_of. rewrite List.filter_app.
    change (draw_of tid (others_of tid (tournament_players st))
            ++ draw_of tid rows = rows).
    by rewrite draw_of_others, Hin.
  - rewrite Htable. unfold others_of at 1. rewrite List.filter_app.
    change (others_of tid (others_of tid (tournament_players st))
            ++ others_of tid rows = others_of tid (tournament_players st)).
    by rewrite others_of_idemp, Hout, app_nil_r.
  - intros Hnd r Hr. rewrite Hview. apply teamToPlayerEmail_lookup; [|done].
    by apply (draw_rows_bijective random tid _ _ Hpool Hnd).
Qed.

Lemma draw_publishes_witness :
  tournamentPlayers (drawTeamsForTournament always_first locked_state)
  = draw_rows always_first "T" (onlyPlayers two_players) pool_ABC
  ∧ tpMsg (drawTeamsForTournament always_first locked_state) = None.
Proof.
  destruct (draw_publishes always_first locked_state)
    as (_ & _ & Hview & Hmsg & _).
  - reflexivity.
  - reflexivity.
  - reflexivity.
  - vm_compute. lia.
  - vm_compute. lia.
  - split; [exact Hview|exact Hmsg].
Defined.

(** X14. Resetting the draw removes the rows of the active tournament
    and no other row, and empties the page's list; doing it twice changes
    nothing more, and declining the confirmation changes nothing at all.
    A draw made after a reset gives what the same draw gives without
    the reset. *)
Theorem reset_draw random st :
  isAdmin (role st) = true → truthy (activeTournamentId st) = true →
  let tid := or_empty (activeTournamentId st) in
  let st' := resetDraw true st in
  tournament_players st' = others_of tid (tournament_players st)
  ∧ draw_of tid (tournament_players st') = []
  ∧ tournamentPlayers st' = []
  ∧ tpMsg st' = None
  ∧ rosterLocked st' = rosterLocked st ∧ localStorage st' = localStorage st
  ∧ tournament_players (resetDraw true st') = tournament_players st'
  ∧ resetDraw false st = st
  ∧ (rosterLocked st = true →
     (2 ≤ length (onlyPlayers (players st)))%nat →
     (length (onlyPlayers (players st)) ≤ length (tournamentTeams st))%nat →
     tournament_players (drawTeamsForTournament random st')
     = tournament_players (drawTeamsForTournament random st)
     ∧ tournamentPlayers (drawTeamsForTournament random st')
       = tournamentPlayers (drawTeamsForTournament random st)).
Proof.
  intros Hadmin Hactive tid st'.
  destruct (reset_success st Hadmin Hactive)
    as (Htable & Hview & Hmsg & Hgate & Hls & Hrole & Hact & Hps & Hteams).
  fold tid st' in Htable, Hview, Hmsg, Hgate, Hls, Hrole, Hact, Hps, Hteams.
  split_and!; try done.
  - rewrite Htable. apply draw_of_others.
  - destruct (reset_success st') as (Htable' & _); [congruence..|].
    rewrite Htable', Hact. fold tid. rewrite Htable. apply others_of_idemp.
  - unfold resetDraw. by repeat case_match.
  - intros Hlocked Hsize Hpool.
    destruct (draw_success random st Hadmin Hactive Hlocked Hsize Hpool)
      as (Ht1 & Hv1 & _).
    destruct (draw_success random st') as (Ht2 & Hv2 & _);
      [congruence..|].
    rewrite Ht1, Hv1, Ht2, Hv2, Hact, Hps, Hteams, Htable.
    fold tid. by rewrite others_of_idemp.
Qed.

Lemma reset_draw_witness :
  tournament_players (resetDraw true (admin_state two_players true)) = []
  ∧ tournament_players
      (drawTeamsForTournament always_first
         (resetDraw true (admin_state two_players true)))
    = tournament_players
        (drawTeamsForTournament always_first (admin_state two_players true)).
Proof.
  destruct (reset_draw always_first (admin_state two_players true))
    as (Htable & _ & _ & _ & _ & _ & _ & _ & Hredraw).
  - reflexivity.
  - reflexivity.
  - split.
    + rewrite Htable. reflexivity.
    + apply Hredraw; [reflexivity|vm_compute; lia|vm_compute; lia].
Defined.

Lemma swap_same {A} (a : list A) i : swap a i i = a.
Proof.
  unfold swap. destruct (a !! i) as [ai|] eqn:Hi; [|done].
  rewrite list_insert_insert_eq. by apply list_insert_id.
Qed.

Lemma shuffle_loop_id {A} random i (a : list A) :
  (∀ k, random k = k) → shuffle_loop random i a = a.
Proof.
  intros Hid. induction i as [|i IH]; [done|].
  cbn [shuffle_loop]. by rewrite Hid, swap_same.
Qed.

(** X15. Whatever indices the random source gives, [shuffle] returns a
    rearrangement of its argument: same length, same elements with the
    same multiplicities, so no repetition appears. A source that always
    draws the current index leaves the list as it is. *)
Theorem shuffle_permutes {A} random (arr : list A) :
  shuffle random arr ≡ₚ arr
  ∧ length (shuffle random arr) = length arr
  ∧ (∀ x, x ∈ shuffle random arr ↔ x ∈ arr)
  ∧ (NoDup arr → NoDup (shuffle random arr))
  ∧ ((∀ k, random k = k) → shuffle random arr = arr).
Proof.
  pose proof (shuffle_Permutation random arr) as Hperm.
  split_and!.
  - done.
  - by rewrite Hperm.
  - intros x. by rewrite Hperm.
  - by rewrite Hperm.
  - apply shuffle_loop_id.
Qed.

Lemma shuffle_permutes_witness :
  NoDup (shuffle always_first ["A"; "B"; "C"])
  ∧ shuffle (λ k, k) ["A"; "B"; "C"] = ["A"; "B"; "C"].
Proof.
  split.
  - apply (shuffle_permutes always_first ["A"; "B"; "C"]).
    apply (bool_decide_unpack _). by vm_compute.
  - by apply (shuffle_permutes (λ k, k) ["A"; "B"; "C"]).
Defined.

End DrawMore.

Section AssignMore.
Import JS Dashboard Props Samples Views Admin PropsMore SamplesMore.

Lemma set_players_same m :
  set_players (m_player1_email m) (m_player2_email m) m = m.
Proof. by destruct m. Qed.

Lemma foldl_apply_update us matches :
  foldl apply_update matches us = map (λ m, foldl updated m us) matches.
Proof.
  revert matches. induction us as [|u us IH]; intros matches; cbn [foldl].
  - by rewrite map_id.
  - rewrite IH. unfold apply_update. by rewrite map_map.
Qed.

Lemma foldl_updated_id m us : m_id (foldl updated m us) = m_id m.
Proof.
  revert m. induction us as [|u us IH]; intros m; cbn [foldl]; [done|].
  rewrite IH. unfold updated. by destruct (String.eqb _ _).
Qed.

Lemma foldl_updated_other m us :
  (∀ u, u ∈ us → u_id u ≠ m_id m) → foldl updated m us = m.
Proof.
  induction us as [|u us IH]; intros Hne; cbn [foldl]; [done|].
  unfold updated at 2.
  rewrite (proj2 (String.eqb_neq _ _)) by (intros E; by apply (Hne u); [left|]).
  apply IH. intros v Hv. apply Hne. by right.
Qed.

Lemma updates_app owners l1 l2 :
  updates owners (l1 ++ l2) = updates owners l1 ++ updates owners l2.
Proof. unfold updates. by rewrite List.filter_app, omap_app. Qed.

Lemma updates_ids owners l u :
  u ∈ updates owners l → u_id u ∈ map m_id l.
Proof.
  unfold updates. rewrite list_elem_of_omap.
  intros (m & [Hm _]%list_elem_of_In%filter_In & Hu).
  unfold update_of in Hu. destruct (_ || _); [|done].
  injection Hu as <-. cbn [u_id]. by apply list_elem_of_fmap_2, list_elem_of_In.
Qed.

Lemma updates_single owners m :
  foldl updated m (updates owners [m]) = assigned owners m.
Proof.
  unfold updates, assigned. cbn [List.filter].
  destruct (truthy (m_home_team_id m) && truthy (m_away_team_id m)); [|done].
  cbn [omap list_omap]. unfold update_of. cbv zeta.
  destruct (decide (m_player1_email m = owner owners (m_home_team_id m)))
    as [E1|E1];
    destruct (decide (m_player2_email m = owner owners (m_away_team_id m)))
      as [E2|E2].
  - rewrite !bool_decide_eq_true_2 by done. cbn [negb orb foldl].
    by rewrite <- E1, <- E2, set_players_same.
  - rewrite bool_decide_eq_true_2, bool_decide_eq_false_2 by done.
    cbn [negb orb foldl]. unfold updated. cbn [u_id]. by rewrite String.eqb_refl.
  - rewrite bool_decide_eq_false_2 by done.
    cbn [negb orb foldl]. unfold updated. cbn [u_id]. by rewrite String.eqb_refl.
  - rewrite bool_decide_eq_false_2 by done.
    cbn [negb orb foldl]. unfold updated. cbn [u_id]. by rewrite String.eqb_refl.
Qed.

Lemma assigned_id owners m : m_id (assigned owners m) = m_id m.
Proof. unfold assigned. by destruct (_ && _). Qed.

Lemma foldl_updates owners matches m :
  NoDup (map m_id matches) → m ∈ matches →
  foldl updated m (updates owners matches) = assigned owners m.
Proof.
  intros Hnd (l1 & l2 & ->)%list_elem_of_split.
  rewrite map_app in Hnd. cbn [map] in Hnd.
  apply NoDup_app in Hnd as (_ & Hl1 & [Hl2 _]%NoDup_cons).
  change (m :: l2) with ([m] ++ l2). rewrite !updates_app, !foldl_app.
  rewrite (foldl_updated_other m).
  - rewrite updates_single. apply foldl_updated_other.
    intros u Hu%updates_ids. rewrite assigned_id. intros E.
    apply Hl2. by rewrite <- E.
  - intros u Hu%updates_ids E. apply (Hl1 (u_id u)); [done|].
    rewrite E. left.
Qed.

Lemma updates_assigned owners matches :
  updates owners (map (assigned owners) matches) = [].
Proof.
  induction matches as [|m ms IH]; [done|].
  cbn [map]. change (?x :: ?l) with ([x] ++ l). rewrite updates_app, IH.
  rewrite app_nil_r. unfold updates, assigned. cbn [List.filter].
  destruct (truthy (m_home_team_id m) && truthy (m_away_team_id m)) eqn:Hb.
  - cbn [m_home_team_id m_away_team_id set_players]. rewrite Hb.
    cbn [omap list_omap]. unfold update_of. cbv zeta.
    cbn [m_home_team_id m_away_team_id m_player1_email m_player2_email
         set_players].
    by rewrite !bool_decide_eq_true_2.
  - by rewrite Hb.
Qed.

(** X16. After the guards, assigning the players gives every match
    with both teams the players that the draw gives to these teams,
    whatever it held before, and changes nothing else: not the order of
    the matches, their scores or a match that lacks a team. Match ids are
    distinct. Run again on the result, the handler finds nothing to do. *)
Theorem assign_players role tid tournamentPlayers matches :
  isAdmin role = true → truthy tid = true →
  tournamentPlayers ≠ [] → matches ≠ [] → NoDup (map m_id matches) →
  let owners := teamToPlayerEmail tournamentPlayers in
  let result := assignPlayersToMatches role tid tournamentPlayers matches in
  result.2 = map (assigned owners) matches
  ∧ (∀ m', m' ∈ result.2 →
       truthy (m_home_team_id m') = true →
       truthy (m_away_team_id m') = true →
       m_player1_email m' = owners !! or_empty (m_home_team_id m')
       ∧ m_player2_email m' = owners !! or_empty (m_away_team_id m'))
  ∧ map m_player1_score result.2 = map m_player1_score matches
  ∧ map m_player2_score result.2 = map m_player2_score matches
  ∧ map m_played_at result.2 = map m_played_at matches
  ∧ assignPlayersToMatches role tid tournamentPlayers result.2
    = (Some msg_all_assigned, result.2).
Proof.
  intros Hadmin Hactive Htps Hms Hnd owners result.
  assert (∀ l, l ≠ [] →
    assignPlayersToMatches role tid tournamentPlayers l
    = if (length (updates owners l) =? 0)%nat
      then (Some msg_all_assigned, l)
      else (None, foldl apply_update l (updates owners l))) as Hrun.
  { intros l Hl. unfold assignPlayersToMatches.
    rewrite Hadmin, Hactive. cbn [negb].
    destruct tournamentPlayers; [done|]. destruct l; [done|]. done. }
  assert (result.2 = map (assigned owners) matches) as Hres.
  { unfold result. rewrite (Hrun matches Hms).
    destruct (Nat.eqb_spec (length (updates owners matches)) 0) as [E|E];
      cbn [snd].
    - apply length_zero_iff_nil in E.
      rewrite <- (map_id matches) at 1. apply map_ext_in.
      intros m Hm%list_elem_of_In.
      by rewrite <- (foldl_updates owners matches m Hnd Hm), E.
    - rewrite foldl_apply_update. apply map_ext_in.
      intros m Hm%list_elem_of_In. by apply foldl_updates. }
  split_and!.
  - done.
  - intros m'. rewrite Hres. intros (m & -> & _)%list_elem_of_fmap.
    unfold assigned.
    destruct (truthy (m_home_team_id m) && truthy (m_away_team_id m)) eqn:Hb.
    + cbn [m_home_team_id m_away_team_id m_player1_email m_player2_email
           set_players]. intros Hh Ha. unfold owner. by rewrite Hh, Ha.
    + intros Hh Ha. by rewrite Hh, Ha in Hb.
  - rewrite Hres, map_map. apply map_ext. intros m. unfold assigned.
    by destruct (_ && _).
  - rewrite Hres, map_map. apply map_ext. intros m. unfold assigned.
    by destruct (_ && _).
  - rewrite Hres, map_map. apply map_ext. intros m. unfold assigned.
    by destruct (_ && _).
  - rewrite Hrun.
    + by rewrite Hres, updates_assigned.
    + rewrite Hres. by destruct matches.
Qed.

Lemma assign_players_witness :
  (assignPlayersToMatches (Some "admin") (Some "T") draw_AB season).2
  = map (assigned (teamToPlayerEmail draw_AB)) season
  ∧ assignPlayersToMatches (Some "admin") (Some "T") draw_AB
      (assignPlayersToMatches (Some "admin") (Some "T") draw_AB season).2
    = (Some msg_all_assigned,
       (assignPlayersToMatches (Some "admin") (Some "T") draw_AB season).2).
Proof.
  destruct (assign_players (Some "admin") (Some "T") draw_AB season)
    as (Hres & _ & _ & _ & _ & Hagain); try done.
  apply (bool_decide_unpack _). by vm_compute.
Defined.

End AssignMore.

(** ** Further properties: results *)

Section ResultMore.
Import JS Dashboard Props Samples Views Admin PropsMore SamplesMore.

Lemma clear_run role tid matchId matches :
  isAdmin role = true → truthy tid = true →
  (clearMatchResult role tid true matchId matches).2
  = map (λ m, if String.eqb (m_id m) matchId then clear_result m else m)
      matches.
Proof.
  intros Hadmin Hactive. unfold clearMatchResult.
  by rewrite Hadmin, Hactive.
Qed.

Lemma save_run role tid h a now matchId matches :
  (saveMatchResult role tid h a now matchId matches).2 = matches
  ∨ ∃ hg ag,
      (saveMatchResult role tid h a now matchId matches).2
      = update_result matchId hg ag now matches.
Proof.
  unfold saveMatchResult. repeat case_match; eauto.
Qed.

Lemma clear_update matchId hg ag now matches :
  map (λ m, if String.eqb (m_id m) matchId then clear_result m else m)
    (update_result matchId hg ag now matches)
  = map (λ m, if String.eqb (m_id m) matchId then clear_result m else m)
      matches.
Proof.
  unfold update_result. rewrite map_map. apply map_ext. intros m.
  destruct (String.eqb (m_id m) matchId) eqn:E; [|by rewrite E].
  cbn [m_id set_result]. by rewrite E.
Qed.

Lemma clear_result_blank m :
  m_player1_score m = None → m_player2_score m = None →
  m_played_at m = None → clear_result m = m.
Proof. destruct m. cbn. by intros -> -> ->. Qed.

Lemma clear_not_counted pool m : counted pool (clear_result m) = false.
Proof.
  unfold counted, isPlayed. cbn [m_played_at clear_result truthy].
  by rewrite !andb_false_r.
Qed.

(** For the table, a cleared match is a match that is not there. *)
Lemma tally_cleared counts byId matchId matches id :
  (∀ m, counts (clear_result m) = false) →
  tally counts byId
    (map (λ m, if String.eqb (m_id m) matchId then clear_result m else m)
       matches) id
  = tally counts byId (without matchId matches) id.
Proof.
  intros Hclear. unfold tally, without. f_equal.
  generalize (zero_row byId id).
  induction matches as [|m ms IH]; intros r; [done|].
  cbn [map List.filter foldl].
  destruct (String.eqb (m_id m) matchId); cbn [negb foldl].
  - by rewrite Hclear.
  - apply IH.
Qed.

(** X17. Clearing a result undoes saving it: the table of matches
    after save-then-clear is the one after clear alone, and is the
    original table when the match held no result before; clearing twice
    is clearing once, and a later save replaces an earlier one. For the
    standings a cleared match counts as if it had been deleted. *)
Theorem clear_undoes_save role tid h a now matchId matches :
  isAdmin role = true → truthy tid = true →
  let save := λ h a ms, (saveMatchResult role tid h a now matchId ms).2 in
  let clear := λ ms, (clearMatchResult role tid true matchId ms).2 in
  clear (save h a matches) = clear matches
  ∧ ((∀ m, m ∈ matches → m_id m = matchId →
        m_player1_score m = None ∧ m_player2_score m = None
        ∧ m_played_at m = None) →
     clear (save h a matches) = matches)
  ∧ clear (clear matches) = clear matches
  ∧ (clearMatchResult role tid false matchId matches).2 = matches
  ∧ (∀ h' a' hg ag, parse_goals h' = Some (Num hg) →
       parse_goals a' = Some (Num ag) →
       save h' a' (save h a matches) = save h' a' matches)
  ∧ (∀ teams tts,
       standings teams tts (clear matches)
       = standings teams tts (without matchId matches)).
Proof.
  intros Hadmin Hactive save clear.
  assert (clear (save h a matches) = clear matches) as Hcs.
  { unfold clear, save. rewrite !clear_run by done.
    destruct (save_run role tid h a now matchId matches)
      as [->|(hg & ag & ->)]; [done|]. apply clear_update. }
  split_and!.
  - done.
  - intros Hblank. rewrite Hcs. unfold clear. rewrite clear_run by done.
    rewrite <- (map_id matches) at 2. apply map_ext_in.
    intros m Hm%list_elem_of_In.
    destruct (String.eqb_spec (m_id m) matchId) as [E|E]; [|done].
    destruct (Hblank m Hm E) as (? & ? & ?). by apply clear_result_blank.
  - unfold clear. rewrite !clear_run by done. rewrite map_map.
    apply map_ext. intros m.
    destruct (String.eqb (m_id m) matchId) eqn:E; [|by rewrite E].
    cbn [m_id clear_result]. by rewrite E.
  - unfold clearMatchResult. by repeat case_match.
  - intros h' a' hg ag Hh Ha. unfold save, saveMatchResult.
    rewrite Hadmin, Hactive, Hh, Ha. cbn [negb snd].
    destruct (parse_goals h) as [[|hg0|m0 k0|n0]|]; try done;
      destruct (parse_goals a) as [[|ag0|m1 k1|n1]|]; try done.
    cbn [snd]. unfold update_result. rewrite map_map.
    apply map_ext. intros m.
    destruct (String.eqb (m_id m) matchId) eqn:E; [|by rewrite E].
    cbn [m_id set_result]. by rewrite E.
  - intros teams tts. unfold clear. rewrite clear_run by done.
    rewrite !standings_unsorted. f_equal. apply map_ext. intros id.
    apply tally_cleared, clear_not_counted.
Qed.

Lemma clear_undoes_save_witness :
  (clearMatchResult (Some "admin") (Some "T") true "m3"
     (saveMatchResult (Some "admin") (Some "T") "3" "1" "2024-05-02" "m3"
        season).2).2
  = season
  ∧ standings [] pool_ABC
      (clearMatchResult (Some "admin") (Some "T") true "m1" season).2
    = standings [] pool_ABC (without "m1" season).
Proof.
  destruct (clear_undoes_save (Some "admin") (Some "T") "3" "1" "2024-05-02"
              "m3" season eq_refl eq_refl) as (_ & Hback & _).
  destruct (clear_undoes_save (Some "admin") (Some "T") "3" "1" "2024-05-02"
              "m1" season eq_refl eq_refl) as (_ & _ & _ & _ & _ & Htable).
  split.
  - apply Hback. intros m Hm E.
    repeat (apply elem_of_cons in Hm as [->|Hm]; [by vm_compute in E|]).
    by apply elem_of_nil in Hm.
  - apply Htable.
Defined.

Lemma settled_clear m : settled (clear_result m).
Proof. by left. Qed.

Lemma settled_set_result hg ag now m :
  now ≠ "" → settled (set_result hg ag now m).
Proof.
  intros Hnow. right. unfold isPlayed.
  cbn [m_player1_score m_player2_score m_played_at set_result truthy].
  split_and!; [by eexists|by eexists|].
  by apply negb_true_iff, String.eqb_neq.
Qed.

Lemma settled_set_players p1 p2 m : settled m → settled (set_players p1 p2 m).
Proof. by destruct m. Qed.

Lemma settled_updated m u : settled m → settled (updated m u).
Proof.
  unfold updated. destruct (String.eqb _ _); [|done].
  apply settled_set_players.
Qed.

Lemma result_step_settled role tid matches a :
  stamped a → Forall settled matches →
  Forall settled (result_step role tid matches a).
Proof.
  intros Hstamp Hall. destruct a as [h a now matchId|c matchId|tps];
    cbn [result_step stamped] in *.
  - destruct (save_run role tid h a now matchId matches)
      as [->|(hg & ag & ->)]; [done|].
    unfold update_result. apply Forall_fmap.
    eapply Forall_impl; [exact Hall|]. intros m Hm. cbn.
    destruct (String.eqb _ _); [by apply settled_set_result|done].
  - unfold clearMatchResult. repeat case_match; try done. cbn [snd].
    apply Forall_fmap. eapply Forall_impl; [exact Hall|]. intros m Hm. cbn.
    destruct (String.eqb _ _); [apply settled_clear|done].
  - unfold assignPlayersToMatches. repeat case_match; try done. cbn [snd].
    rewrite foldl_apply_update. apply Forall_fmap.
    eapply Forall_impl; [exact Hall|]. intros m Hm. cbn.
    generalize (updates (teamToPlayerEmail tps) matches). intros us.
    revert m Hm. induction us as [|u us IH]; intros m Hm; [done|].
    cbn [foldl]. by apply IH, settled_updated.
Qed.

(** X18. Saving and clearing results and assigning players keep every
    match settled: both scores and the played-at stamp are there
    together or absent together, the stamp of a save being a non-empty
    string. On a settled table the standings count exactly the matches
    with two non-empty team ids of the pool and both scores. *)
Theorem results_stay_settled role tid matches steps :
  Forall stamped steps → Forall settled matches →
  let matches' := foldl (result_step role tid) matches steps in
  Forall settled matches'
  ∧ ∀ pool m, m ∈ matches' →
      (counted pool m = true
       ↔ truthy (m_home_team_id m) = true ∧ truthy (m_away_team_id m) = true
         ∧ is_Some (m_player1_score m) ∧ is_Some (m_player2_score m)
         ∧ or_empty (m_home_team_id m) ∈ pool
         ∧ or_empty (m_away_team_id m) ∈ pool).
Proof.
  intros Hsteps. revert matches.
  assert (∀ ms, Forall settled ms →
            Forall settled (foldl (result_step role tid) ms steps)) as Hgen.
  { induction Hsteps as [|a steps Ha _ IH]; intros ms Hall; [done|].
    cbn [foldl]. by apply IH, result_step_settled. }
  intros matches Hall matches'.
  pose proof (Hgen matches Hall) as Hset. fold matches' in Hset.
  split; [done|]. intros pool m Hm.
  rewrite Forall_forall in Hset. specialize (Hset m Hm).
  unfold counted. rewrite !andb_true_iff, !bool_decide_eq_true.
  split; [tauto|]. intros (? & ? & H1 & H2 & ? & ?). split_and!; try done.
  destruct Hset as [(E & _ & _)|(_ & _ & ?)]; [|done].
  rewrite E in H1. by destruct H1.
Qed.

Lemma results_stay_settled_witness :
  Forall settled
    (foldl (result_step (Some "admin") (Some "T")) season
       [SaveResult "2" "2" "2024-05-03" "m3"; ClearResult true "m1";
        AssignPlayers draw_AB]).
Proof.
  apply (results_stay_settled (Some "admin") (Some "T") season
           [SaveResult "2" "2" "2024-05-03" "m3"; ClearResult true "m1";
            AssignPlayers draw_AB]).
  - repeat (apply Forall_cons_2 || apply Forall_nil_2); done.
  - repeat (apply Forall_cons_2 || apply Forall_nil_2).
    + right. split_and!; [by eexists|by eexists|done].
    + right. split_and!; [by eexists|by eexists|done].
    + by left.
Defined.

End ResultMore.

(** ** Further properties: standings *)

Section StandingsMore.
Import JS Dashboard Props Samples Views Admin PropsMore SamplesMore.

Lemma elem_of_standings teams tts matches r :
  r ∈ standings teams tts matches
  ↔ ∃ id, id ∈ map tt_team_id tts
          ∧ r = tally (counted (map tt_team_id tts)) (teamById teams)
                  matches id.
Proof.
  rewrite standings_unsorted, sort_Permutation, list_elem_of_fmap.
  split; intros (id & ? & ?); exists id.
  - by rewrite <- elem_of_Set_from.
  - by rewrite elem_of_Set_from.
Qed.

Lemma credit_side_consistent x y r :
  pts r = 3 * wins r + draws r ∧ played r = wins r + draws r + losses r
  ∧ 0 ≤ wins r ∧ 0 ≤ draws r ∧ 0 ≤ losses r →
  let r' := credit_side x y r in
  pts r' = 3 * wins r' + draws r' ∧ played r' = wins r' + draws r' + losses r'
  ∧ 0 ≤ wins r' ∧ 0 ≤ draws r' ∧ 0 ≤ losses r'.
Proof.
  intros H. cbn [credit_side pts wins draws losses played].
  destruct (Z.ltb_spec y x), (Z.eqb_spec x y), (Z.ltb_spec x y); lia.
Qed.

Lemma credit_consistent id m r :
  pts r = 3 * wins r + draws r ∧ played r = wins r + draws r + losses r
  ∧ 0 ≤ wins r ∧ 0 ≤ draws r ∧ 0 ≤ losses r →
  let r' := credit id m r in
  pts r' = 3 * wins r' + draws r' ∧ played r' = wins r' + draws r' + losses r'
  ∧ 0 ≤ wins r' ∧ 0 ≤ draws r' ∧ 0 ≤ losses r'.
Proof.
  intros H. unfold credit.
  destruct (m_home_team_id m) as [h|]; [|done].
  destruct (m_away_team_id m) as [a|]; [|done].
  destruct (m_player1_score m) as [s1|]; [|done].
  destruct (m_player2_score m) as [s2|]; [|done].
  destruct (String.eqb h id), (String.eqb a id); cbv zeta;
    auto using credit_side_consistent.
Qed.

Lemma tally_consistent counts byId matches id :
  consistent_row (tally counts byId matches id).
Proof.
  unfold consistent_row. rewrite tally_gd.
  enough (∀ r,
    pts r = 3 * wins r + draws r ∧ played r = wins r + draws r + losses r
    ∧ 0 ≤ wins r ∧ 0 ≤ draws r ∧ 0 ≤ losses r →
    let r' := foldl (λ r m, if counts m then credit id m r else r) r matches in
    pts r' = 3 * wins r' + draws r' ∧ played r' = wins r' + draws r' + losses r'
    ∧ 0 ≤ wins r' ∧ 0 ≤ draws r' ∧ 0 ≤ losses r') as Hfold.
  { specialize (Hfold (zero_row byId id)). unfold tally.
    cbn [pts wins draws losses played set_gd] in *.
    destruct Hfold as (? & ? & ? & ? & ?); [cbn; lia|]. by split_and!. }
  induction matches as [|m ms IH]; intros r Hr; [done|].
  cbn [foldl]. apply IH. destruct (counts m); [|done].
  by apply credit_consistent.
Qed.

Lemma myStats_step_consistent id s m :
  consistent_stats s → consistent_stats (myStats_step id s m).
Proof.
  unfold consistent_stats, myStats_step. intros H.
  destruct (_ || _); [done|]. destruct (negb _); [done|].
  destruct (m_player1_score m) as [s1|]; [|done].
  destruct (m_player2_score m) as [s2|]; [|done].
  cbv zeta. destruct (_ && _); [done|].
  repeat match goal with
         | |- context [if ?a <? ?b then _ else _] => destruct (Z.ltb_spec a b)
         end;
    cbn [s_pts s_wins s_draws s_losses s_played]; lia.
Qed.

Lemma credit_side_goals x y r :
  0 ≤ x → 0 ≤ y → 0 ≤ gf r ∧ 0 ≤ ga r →
  0 ≤ gf (credit_side x y r) ∧ 0 ≤ ga (credit_side x y r).
Proof. cbn [credit_side gf ga]. lia. Qed.

Lemma tally_goals counts byId matches id :
  (∀ m s, m ∈ matches →
     m_player1_score m = Some s ∨ m_player2_score m = Some s → 0 ≤ s) →
  0 ≤ gf (tally counts byId matches id)
  ∧ 0 ≤ ga (tally counts byId matches id).
Proof.
  intros Hpos. unfold tally. cbn [gf ga set_gd].
  enough (∀ r, 0 ≤ gf r ∧ 0 ≤ ga r →
    let r' := foldl (λ r m, if counts m then credit id m r else r) r matches in
    0 ≤ gf r' ∧ 0 ≤ ga r') as Hfold by (apply Hfold; cbn; lia).
  induction matches as [|m ms IH]; intros r Hr; [done|].
  cbn [foldl]. apply IH; [intros m' s Hm'; apply Hpos; by right|].
  destruct (counts m); [|done]. unfold credit.
  destruct (m_home_team_id m) as [h|]; [|done].
  destruct (m_away_team_id m) as [a|]; [|done].
  destruct (m_player1_score m) as [s1|] eqn:E1; [|done].
  destruct (m_player2_score m) as [s2|] eqn:E2; [|done].
  assert (0 ≤ s1) by (apply (Hpos m); [left|by left]).
  assert (0 ≤ s2) by (apply (Hpos m); [left|by right]).
  destruct (String.eqb h id), (String.eqb a id); cbv zeta;
    auto using credit_side_goals.
Qed.

(** X19. In every row of the table the points are three times the
    wins plus the draws, the games played are wins plus draws plus
    losses, none of the counts is negative, the goal difference is goals
    for minus goals against, and a team cannot have played more than
    twice the number of matches; goals for and against are not negative
    when no score is. The counters of [myStats] add up in the same
    way. *)
Theorem standings_rows_consistent teams tts matches :
  (∀ r, r ∈ standings teams tts matches →
     consistent_row r ∧ played r ≤ 2 * Z.of_nat (length matches))
  ∧ ((∀ m s, m ∈ matches →
        m_player1_score m = Some s ∨ m_player2_score m = Some s → 0 ≤ s) →
     ∀ r, r ∈ standings teams tts matches → 0 ≤ gf r ∧ 0 ≤ ga r)
  ∧ (∀ myTeamId, consistent_stats (myStats myTeamId matches)).
Proof.
  split_and!.
  - intros r (id & _ & ->)%elem_of_standings. split.
    + apply tally_consistent.
    + unfold tally. cbn [played set_gd].
      enough (∀ r0,
        played (foldl (λ r m, if counted (map tt_team_id tts) m
                              then credit id m r else r) r0 matches)
        ≤ played r0 + 2 * Z.of_nat (length matches)) as Hfold
        by (etrans; [apply Hfold|cbn; lia]).
      induction matches as [|m ms IH]; intros r0; [cbn; lia|].
      cbn [foldl length]. etrans; [apply IH|].
      destruct (counted _ m); [|lia]. unfold credit.
      repeat case_match; cbn [credit_side played]; lia.
  - intros Hpos r (id & _ & ->)%elem_of_standings. by apply tally_goals.
  - intros myTeamId. unfold myStats.
    assert (consistent_stats no_stats) as H0
      by (unfold consistent_stats; cbn; lia).
    destruct (negb _); [done|].
    revert H0. generalize no_stats.
    induction matches as [|m ms IH]; intros s Hs; [done|].
    cbn [foldl]. by apply IH, myStats_step_consistent.
Qed.

Lemma standings_rows_consistent_witness :
  Forall (λ r, 0 ≤ gf r ∧ 0 ≤ ga r) (standings [] pool_ABC season).
Proof.
  apply Forall_forall.
  apply (standings_rows_consistent [] pool_ABC season).
  intros m s Hm Hs.
  repeat (apply elem_of_cons in Hm as [->|Hm];
          [destruct Hs as [Hs|Hs]; vm_compute in Hs; simplify_eq; lia|]).
  by apply elem_of_nil in Hm.
Defined.

Lemma total_Permutation column rows rows' :
  rows ≡ₚ rows' → total column rows = total column rows'.
Proof.
  unfold total. induction 1; cbn [foldr]; lia.
Qed.

Lemma total_indicator (h : string) v ids :
  NoDup ids → h ∈ ids →
  foldr (λ id acc, (if String.eqb h id then v else 0) + acc) 0 ids = v.
Proof.
  induction ids as [|id ids IH]; [by intros _ ?%elem_of_nil|].
  intros [Hid Hnd]%NoDup_cons Hin. cbn [foldr].
  assert (∀ l, h ∉ l →
    foldr (λ id acc, (if String.eqb h id then v else 0) + acc) 0 l = 0)
    as Hzero.
  { clear. induction l as [|x l IH]; [done|].
    intros [? ?]%not_elem_of_cons. cbn [foldr].
    rewrite (proj2 (String.eqb_neq _ _)) by done. rewrite IH by done. lia. }
  apply elem_of_cons in Hin as [->|Hin].
  - rewrite String.eqb_refl, Hzero by done. lia.
  - rewrite (proj2 (String.eqb_neq _ _)) by (by intros ->).
    rewrite IH by done. lia.
Qed.

(** A column to which each side of a match adds [gain mine theirs]. *)
Lemma total_credit column gain m (R : string → StandingRow) ids h a s1 s2 :
  (∀ x y r, column (credit_side x y r) = column r + gain x y) →
  m_home_team_id m = Some h → m_away_team_id m = Some a →
  m_player1_score m = Some s1 → m_player2_score m = Some s2 →
  NoDup ids → h ∈ ids → a ∈ ids →
  total column (map (λ id, credit id m (R id)) ids)
  = total column (map R ids) + match_gain gain m.
Proof.
  intros Hgain Hh Ha H1 H2 Hnd Hhin Hain.
  unfold match_gain. rewrite H1, H2.
  enough (total column (map (λ id, credit id m (R id)) ids)
          = total column (map R ids)
            + foldr (λ id acc, (if String.eqb h id then gain s1 s2 else 0)
                               + acc) 0 ids
            + foldr (λ id acc, (if String.eqb a id then gain s2 s1 else 0)
                               + acc) 0 ids) as ->.
  { rewrite !total_indicator by done. lia. }
  unfold total. clear Hnd Hhin Hain.
  induction ids as [|id ids IH]; [done|].
  cbn [map foldr]. rewrite IH.
  unfold credit. rewrite Hh, Ha, H1, H2. cbv zeta.
  destruct (String.eqb h id), (String.eqb a id); rewrite ?Hgain; lia.
Qed.

Lemma total_fold column gain pool matches (R : string → StandingRow) ids :
  (∀ x y r, column (credit_side x y r) = column r + gain x y) →
  NoDup ids → (∀ id, id ∈ pool → id ∈ ids) →
  total column
    (map (λ id, foldl (λ r m, if counted pool m then credit id m r else r)
                  (R id) matches) ids)
  = total column (map R ids) + gains gain (counted pool) matches.
Proof.
  intros Hgain Hnd Hpool. revert R.
  induction matches as [|m ms IH]; intros R.
  { unfold gains. cbn [foldl foldr]. by rewrite Z.add_0_r. }
  cbn [foldl].
  rewrite (IH (λ id, if counted pool m then credit id m (R id) else R id)).
  change (gains gain (counted pool) (m :: ms))
    with ((if counted pool m then match_gain gain m else 0)
          + gains gain (counted pool) ms).
  destruct (counted pool m) eqn:Hc; [|by rewrite Z.add_0_l].
  unfold counted in Hc. rewrite !andb_true_iff, !bool_decide_eq_true in Hc.
  destruct Hc as ((((((Hh & Ha) & _) & [s1 H1]) & [s2 H2]) & Hhin) & Hain).
  destruct (m_home_team_id m) as [h|] eqn:Eh; [|done].
  destruct (m_away_team_id m) as [a|] eqn:Ea; [|done].
  rewrite (total_credit column gain m R ids h a s1 s2); auto. lia.
Qed.

Lemma total_zero column byId ids :
  (∀ id, column (zero_row byId id) = 0) →
  total column (map (zero_row byId) ids) = 0.
Proof.
  intros Hz. unfold total. induction ids as [|id ids IH]; [done|].
  cbn [map foldr]. rewrite IH, Hz. lia.
Qed.

(** The sum of a column that [set_gd] does not touch. *)
Lemma standings_total column gain teams tts matches :
  (∀ x y r, column (credit_side x y r) = column r + gain x y) →
  (∀ r, column (set_gd r) = column r) →
  (∀ byId id, column (zero_row byId id) = 0) →
  total column (standings teams tts matches)
  = gains gain (counted (map tt_team_id tts)) matches.
Proof.
  intros Hgain Hgd Hzero. rewrite standings_unsorted.
  rewrite (total_Permutation _ _ _ (sort_Permutation _ _)).
  unfold tally.
  rewrite <- (map_map _ set_gd).
  assert (∀ l, total column (map set_gd l) = total column l) as ->.
  { induction l as [|r l IH]; [done|].
    unfold total in *. cbn [map foldr]. by rewrite IH, Hgd. }
  rewrite (total_fold column gain); [| done | apply NoDup_Set_from |].
  - rewrite total_zero by done. lia.
  - intros id. by rewrite elem_of_Set_from.
Qed.

Lemma gains_ext gain gain' counts matches :
  (∀ m, match_gain gain m = match_gain gain' m) →
  gains gain counts matches = gains gain' counts matches.
Proof.
  intros Hext. unfold gains.
  induction matches as [|m ms IH]; [done|]. cbn [foldr].
  by rewrite IH, Hext.
Qed.

Lemma gains_count counts matches :
  (∀ m, counts m = true →
        is_Some (m_player1_score m) ∧ is_Some (m_player2_score m)) →
  gains (λ _ _, 1) counts matches
  = 2 * Z.of_nat (length (List.filter counts matches)).
Proof.
  intros Hs. unfold gains. induction matches as [|m ms IH]; [done|].
  cbn [foldr List.filter]. rewrite IH.
  destruct (counts m) eqn:Hc; [|lia].
  destruct (Hs m Hc) as [[s1 H1] [s2 H2]].
  unfold match_gain. rewrite H1, H2. cbn [length]. lia.
Qed.

Lemma gains_plus g1 g2 counts matches :
  gains (λ x y, g1 x y + g2 x y) counts matches
  = gains g1 counts matches + gains g2 counts matches.
Proof.
  unfold gains. induction matches as [|m ms IH]; [done|].
  cbn [foldr]. rewrite IH. destruct (counts m); [|lia].
  unfold match_gain. repeat case_match; lia.
Qed.

(** X20. The columns of the table balance: the games played add up
    to twice the number of matches counted, there are as many wins as
    losses and as many goals for as against, the goal differences cancel
    out, and twice the wins plus the draws is twice the number of
    matches counted. *)
Theorem standings_totals teams tts matches :
  let rows := standings teams tts matches in
  let n := Z.of_nat (length (List.filter (counted (map tt_team_id tts))
                               matches)) in
  total played rows = 2 * n
  ∧ total wins rows = total losses rows
  ∧ total gf rows = total ga rows
  ∧ total gd rows = 0
  ∧ 2 * total wins rows + total draws rows = 2 * n
  ∧ total pts rows = 3 * total wins rows + total draws rows.
Proof.
  intros rows n. unfold rows, n. clear rows n.
  set (pool := map tt_team_id tts).
  set (n := Z.of_nat (length (List.filter (counted pool) matches))).
  assert (∀ m, counted pool m = true →
            is_Some (m_player1_score m) ∧ is_Some (m_player2_score m))
    as Hscores.
  { intros m. unfold counted.
    rewrite !andb_true_iff, !bool_decide_eq_true. tauto. }
  assert (total played (standings teams tts matches) = 2 * n) as Hplayed.
  { rewrite (standings_total played (λ _ _, 1)); [|done..].
    by apply gains_count. }
  assert (total wins (standings teams tts matches)
          = gains (λ x y, if y <? x then 1 else 0) (counted pool) matches)
    as Hwins by (by apply standings_total).
  assert (total losses (standings teams tts matches)
          = gains (λ x y, if x <? y then 1 else 0) (counted pool) matches)
    as Hlosses by (by apply standings_total).
  assert (total draws (standings teams tts matches)
          = gains (λ x y, if x =? y then 1 else 0) (counted pool) matches)
    as Hdraws by (by apply standings_total).
  assert (total gf (standings teams tts matches)
          = gains (λ x y, x) (counted pool) matches)
    as Hgf by (by apply standings_total).
  assert (total ga (standings teams tts matches)
          = gains (λ x y, y) (counted pool) matches)
    as Hga by (by apply standings_total).
  assert (total gf (standings teams tts matches)
          = total ga (standings teams tts matches)) as Hgoals.
  { rewrite Hgf, Hga. apply gains_ext. intros m. unfold match_gain.
    repeat case_match; lia. }
  assert (∀ l, (∀ r, r ∈ l → consistent_row r) →
            total gd l = total gf l - total ga l
            ∧ total pts l = 3 * total wins l + total draws l) as Hrows.
  { induction l as [|r l IH]; intros Hl; [done|].
    destruct IH as [IH1 IH2]; [intros r' Hr'; apply Hl; by right|].
    destruct (Hl r) as (? & ? & ? & ? & ? & ?); [left|].
    unfold total in *. cbn [foldr]. lia. }
  destruct (Hrows (standings teams tts matches)) as [Hgd Hpts].
  { intros r (id & _ & ->)%elem_of_standings. apply tally_consistent. }
  split_and!.
  - done.
  - rewrite Hwins, Hlosses. apply gains_ext. intros m. unfold match_gain.
    repeat case_match; lia.
  - done.
  - lia.
  - rewrite Hwins, Hdraws. unfold n.
    rewrite <- (gains_count (counted pool) matches Hscores).
    transitivity
      (gains (λ x y, (if y <? x then 1 else 0) + (if y <? x then 1 else 0))
         (counted pool) matches
       + gains (λ x y, if x =? y then 1 else 0) (counted pool) matches).
    { rewrite gains_plus. lia. }
    rewrite <- gains_plus. apply gains_ext. intros m. unfold match_gain.
    destruct (m_player1_score m) as [s1|]; [|done].
    destruct (m_player2_score m) as [s2|]; [|done].
    destruct (Z.ltb_spec s1 s2), (Z.ltb_spec s2 s1), (Z.eqb_spec s1 s2),
      (Z.eqb_spec s2 s1); lia.
  - done.
Qed.

Lemma standings_totals_witness :
  total played (standings [] pool_ABC season) = 4
  ∧ total gd (standings [] pool_ABC season) = 0.
Proof.
  pose proof (standings_totals [] pool_ABC season) as H. cbv zeta in H.
  destruct H as (Hplayed & _ & _ & Hgd & _).
  split; [|exact Hgd]. rewrite Hplayed. reflexivity.
Defined.

Lemma same_record_step pool id s r m :
  (m_home_team_id m = Some id ∨ m_away_team_id m = Some id →
   m_home_team_id m ≠ m_away_team_id m
   ∧ or_empty (m_home_team_id m) ∈ pool
   ∧ or_empty (m_away_team_id m) ∈ pool) →
  same_record s r →
  same_record (myStats_step id s m)
    (if counted pool m then credit id m r else r).
Proof.
  intros Hin Hsr. unfold myStats_step, counted, isPlayed.
  destruct (truthy (m_home_team_id m)) eqn:Hh; cbn [negb orb andb]; [|done].
  destruct (truthy (m_away_team_id m)) eqn:Ha; cbn [negb orb andb]; [|done].
  destruct (truthy (m_played_at m)); cbn [negb andb]; [|done].
  destruct (m_player1_score m) as [s1|] eqn:E1;
    [|by rewrite bool_decide_eq_false_2 by (by intros [? ?])].
  destruct (m_player2_score m) as [s2|] eqn:E2;
    [|by rewrite (bool_decide_eq_false_2 (is_Some None)), andb_false_r
        by (by intros [? ?])].
  rewrite (bool_decide_eq_true_2 (is_Some (Some s1))),
    (bool_decide_eq_true_2 (is_Some (Some s2))) by (by eexists).
  cbn [andb]. cbv zeta.
  destruct (m_home_team_id m) as [h|] eqn:Eh; [|done].
  destruct (m_away_team_id m) as [a|] eqn:Ea; [|done].
  change (or_empty (Some h)) with h in *.
  change (or_empty (Some a)) with a in *.
  destruct (decide (h = id)) as [->|Hnh].
  - destruct Hin as (Hne & Hhin & Hain); [by left|].
    assert (a ≠ id) as Hna by congruence.
    rewrite (bool_decide_eq_true_2 (Some id = Some id)) by done.
    rewrite (bool_decide_eq_true_2 (id ∈ pool)) by done.
    rewrite (bool_decide_eq_true_2 (a ∈ pool)) by done.
    cbn [andb negb].
    unfold credit. rewrite Eh, Ea, E1, E2, String.eqb_refl.
    rewrite (proj2 (String.eqb_neq a id)) by done.
    unfold same_record in *. unfold credit_side.
    destruct (Z.ltb_spec s2 s1), (Z.ltb_spec s1 s2), (Z.eqb_spec s1 s2);
      cbn [played wins draws losses pts gf ga
           s_played s_wins s_draws s_losses s_pts s_gf s_ga]; lia.
  - rewrite (bool_decide_eq_false_2 (Some h = Some id)) by congruence.
    cbn [negb andb].
    destruct (decide (a = id)) as [->|Hna].
    + destruct Hin as (Hne & Hhin & Hain); [by right|].
      rewrite (bool_decide_eq_true_2 (Some id = Some id)) by done.
      rewrite (bool_decide_eq_true_2 (id ∈ pool)) by done.
      rewrite (bool_decide_eq_true_2 (h ∈ pool)) by done.
      cbn [andb negb].
      unfold credit. rewrite Eh, Ea, E1, E2, String.eqb_refl.
      rewrite (proj2 (String.eqb_neq h id)) by done.
      unfold same_record in *. unfold credit_side.
      destruct (Z.ltb_spec s2 s1), (Z.ltb_spec s1 s2), (Z.eqb_spec s2 s1);
        cbn [played wins draws losses pts gf ga
             s_played s_wins s_draws s_losses s_pts s_gf s_ga]; lia.
    + rewrite (bool_decide_eq_false_2 (Some a = Some id)) by congruence.
      cbn [negb andb].
      destruct (_ && _); [|done].
      rewrite credit_not_involved; [done|congruence|congruence].
Qed.

(** X21. The counters that the page shows to a player are those of
    the player's row of the table, provided the team is in the pool and
    each of its matches is against another team of the pool. *)
Theorem my_stats_agree teams tts matches id :
  id ≠ "" → id ∈ map tt_team_id tts →
  (∀ m, m ∈ matches →
     m_home_team_id m = Some id ∨ m_away_team_id m = Some id →
     m_home_team_id m ≠ m_away_team_id m
     ∧ or_empty (m_home_team_id m) ∈ map tt_team_id tts
     ∧ or_empty (m_away_team_id m) ∈ map tt_team_id tts) →
  ∃ r, r ∈ standings teams tts matches ∧ team_id r = id
       ∧ same_record (myStats (Some id) matches) r.
Proof.
  intros Hid Hpool Hms.
  exists (tally (counted (map tt_team_id tts)) (teamById teams) matches id).
  split_and!.
  - apply elem_of_standings. by exists id.
  - apply tally_team_id.
  - unfold myStats. cbn [truthy or_empty default].
    rewrite (proj2 (String.eqb_neq _ _) Hid). cbn [negb].
    unfold tally.
    assert (same_record no_stats (zero_row (teamById teams) id)) as H0
      by (by unfold same_record).
    enough (∀ s r, same_record s r →
      same_record (foldl (myStats_step id) s matches)
        (foldl (λ r m, if counted (map tt_team_id tts) m
                       then credit id m r else r) r matches)) as Hfold.
    { specialize (Hfold _ _ H0). unfold same_record in *.
      by cbn [played wins draws losses pts gf ga set_gd]. }
    induction matches as [|m ms IH]; intros s r Hsr; [done|].
    cbn [foldl]. apply IH.
    + intros m' Hm'. apply Hms. by right.
    + apply same_record_step; [|done]. apply Hms. left.
Qed.

Lemma my_stats_agree_witness :
  ∃ r, r ∈ standings [] pool_ABC season ∧ team_id r = "A"
       ∧ same_record (myStats (Some "A") season) r.
Proof.
  apply (my_stats_agree [] pool_ABC season "A").
  - done.
  - apply (bool_decide_unpack _). by vm_compute.
  - intros m Hm _.
    repeat (apply elem_of_cons in Hm as [->|Hm];
            [split_and!; [done|..]; apply (bool_decide_unpack _);
             by vm_compute|]).
    by apply elem_of_nil in Hm.
Defined.

Lemma credit_comm id m1 m2 r :
  credit id m1 (credit id m2 r) = credit id m2 (credit id m1 r).
Proof.
  unfold credit.
  destruct (m_home_team_id m1) as [h1|]; [|done].
  destruct (m_away_team_id m1) as [a1|]; [|done].
  destruct (m_player1_score m1) as [x1|]; [|done].
  destruct (m_player2_score m1) as [y1|]; [|done].
  destruct (m_home_team_id m2) as [h2|]; [|done].
  destruct (m_away_team_id m2) as [a2|]; [|done].
  destruct (m_player1_score m2) as [x2|]; [|done].
  destruct (m_player2_score m2) as [y2|]; [|done].
  cbv zeta.
  destruct (String.eqb h1 id), (String.eqb a1 id), (String.eqb h2 id),
    (String.eqb a2 id); try done;
    destruct r; cbv -[Z.add Z.ltb Z.eqb]; f_equal; lia.
Qed.

Lemma foldl_Permutation {A B} (f : A → B → A) l l' :
  (∀ a x y, f (f a x) y = f (f a y) x) →
  l ≡ₚ l' → ∀ a, foldl f a l = foldl f a l'.
Proof.
  intros Hcomm. induction 1 as [|x l l' _ IH|x y l|l1 l2 l3 _ IH1 _ IH2];
    intros a; cbn [foldl].
  - done.
  - apply IH.
  - by rewrite Hcomm.
  - by rewrite IH1.
Qed.

(** X22. The table does not depend on the order in which the matches
    are listed: any rearrangement of the matches gives the same rows in
    the same order. *)
Theorem standings_order_independent teams tts matches matches' :
  matches ≡ₚ matches' →
  standings teams tts matches = standings teams tts matches'.
Proof.
  intros Hperm. rewrite !standings_unsorted. f_equal.
  apply map_ext. intros id. unfold tally. f_equal.
  apply foldl_Permutation; [|done].
  intros r x y. destruct (counted _ x), (counted _ y); try done.
  apply credit_comm.
Qed.

Lemma standings_order_independent_witness :
  standings [] pool_ABC season = standings [] pool_ABC (reverse season).
Proof.
  apply standings_order_independent. symmetry. apply reverse_Permutation.
Defined.

End StandingsMore.

(** ** Further properties: what the page shows *)

Section ViewsMore.
Import JS Fixtures Dashboard Props Samples Views Admin PropsMore SamplesMore.

Lemma List_filter_sublist {A} (p : A → bool) l : List.filter p l `sublist_of` l.
Proof.
  induction l as [|x l IH]; [done|]. cbn [List.filter].
  destruct (p x); by constructor.
Qed.

Lemma elem_of_List_filter {A} (p : A → bool) l x :
  x ∈ List.filter p l ↔ x ∈ l ∧ p x = true.
Proof. by rewrite !list_elem_of_In, filter_In. Qed.

Lemma rounds_fold acc matches :
  NoDup acc →
  let set := foldl (λ set m, if num_truthy (m_round m)
                             then NumSet_add set (default 0 (m_round m))
                             else set) acc matches in
  NoDup set
  ∧ ∀ r, r ∈ set
         ↔ r ∈ acc ∨ (r ≠ 0 ∧ ∃ m, m ∈ matches ∧ m_round m = Some r).
Proof.
  revert acc. induction matches as [|m ms IH]; intros acc Hnd; cbn [foldl].
  { split; [done|]. intros r. split; [auto|].
    intros [?|(_ & m & ?%elem_of_nil & _)]; done. }
  cbv zeta in IH.
  destruct (m_round m) as [z|] eqn:Hz; cbn [num_truthy];
    [change (default 0 (Some z)) with z|].
  - destruct (Z.eqb_spec z 0) as [->|Hnz]; cbn [negb].
    + destruct (IH acc Hnd) as [Hn Hel]. split; [done|]. intros r.
      rewrite Hel. split; intros [?|(Hr & m' & Hm' & E)]; auto; right;
        (split; [done|]); exists m'.
      * split; [by right|done].
      * apply elem_of_cons in Hm' as [->|?]; [congruence|done].
    + unfold NumSet_add. case_bool_decide as Hin.
      * destruct (IH acc Hnd) as [Hn Hel]. split; [done|]. intros r.
        rewrite Hel. split; intros [?|(Hr & m' & Hm' & E)]; auto.
        -- right. split; [done|]. exists m'. split; [by right|done].
        -- apply elem_of_cons in Hm' as [->|?].
           ++ left. congruence.
           ++ right. split; [done|]. by exists m'.
      * destruct (IH (acc ++ [z])) as [Hn Hel].
        { apply NoDup_app. split_and!; [done| |apply NoDup_singleton].
          intros x Hx Hx'%list_elem_of_singleton. by subst. }
        split; [done|]. intros r. rewrite Hel, elem_of_app.
        rewrite list_elem_of_singleton.
        split; intros [H|(Hr & m' & Hm' & E)].
        -- destruct H as [?| ->]; [by left|].
           right. split; [done|]. exists m. split; [left|done].
        -- right. split; [done|]. exists m'. split; [by right|done].
        -- auto.
        -- apply elem_of_cons in Hm' as [->|?].
           ++ left. right. congruence.
           ++ right. split; [done|]. by exists m'.
  - destruct (IH acc Hnd) as [Hn Hel]. split; [done|]. intros r.
    rewrite Hel. split; intros [?|(Hr & m' & Hm' & E)]; auto; right;
      (split; [done|]); exists m'.
    + split; [by right|done].
    + apply elem_of_cons in Hm' as [->|?]; [congruence|done].
Qed.

Lemma sorted_NoDup_strict l :
  StronglySorted Z.le l → NoDup l → StronglySorted Z.lt l.
Proof.
  induction 1 as [|x l Hl IH Hx]; [constructor|].
  intros [Hnx Hnd]%NoDup_cons. constructor; [by apply IH|].
  rewrite Forall_forall in Hx |- *. intros y Hy.
  specialize (Hx y Hy). assert (x ≠ y) by (by intros ->). lia.
Qed.

Lemma round_options_elem matches r :
  r ∈ roundOptions matches
  ↔ r ≠ 0 ∧ ∃ m, m ∈ matches ∧ m_round m = Some r.
Proof.
  unfold roundOptions.
  destruct (rounds_fold [] matches (NoDup_nil_2)) as [_ Hel].
  cbv zeta in *. rewrite sort_Permutation, Hel, elem_of_nil. tauto.
Qed.

(** X23. The options of the round filter are the round numbers of the
    matches, each once and in increasing order; a match without a round
    and a match of round 0 give no option. *)
Theorem round_options_sorted matches :
  StronglySorted Z.lt (roundOptions matches)
  ∧ ∀ r, r ∈ roundOptions matches
         ↔ r ≠ 0 ∧ ∃ m, m ∈ matches ∧ m_round m = Some r.
Proof.
  split; [|apply round_options_elem].
  unfold roundOptions.
  destruct (rounds_fold [] matches (NoDup_nil_2)) as [Hnd _].
  cbv zeta in *.
  apply sorted_NoDup_strict.
  - apply sort_sorted; [apply _|intros a b; lia..].
  - by rewrite sort_Permutation.
Qed.

Lemma round_options_sorted_witness :
  1 ∈ roundOptions rounds_2120 ∧ 0 ∉ roundOptions rounds_2120.
Proof.
  destruct (round_options_sorted rounds_2120) as [_ Hel].
  split.
  - apply Hel. split; [done|]. eexists. split; [left|done].
  - intros [? _]%Hel. done.
Defined.

(** X24. A user who is not the administrator is shown, whatever the
    round filter, only matches of the list in which the user's own team
    plays, in the order of the list, and none at all without a team;
    with the filter on all rounds every match of the team is shown. *)
Theorem player_sees_own_matches role myTeamId roundFilter matches :
  isAdmin role = false →
  let shown := filteredVisibleMatches roundFilter
                 (visibleMatches role myTeamId matches) in
  shown `sublist_of` matches
  ∧ (∀ m, m ∈ shown →
       truthy myTeamId = true
       ∧ (m_home_team_id m = myTeamId ∨ m_away_team_id m = myTeamId))
  ∧ (truthy myTeamId = false → shown = [])
  ∧ (roundFilter = "all" → truthy myTeamId = true →
     ∀ m, m ∈ matches →
       m_home_team_id m = myTeamId ∨ m_away_team_id m = myTeamId →
       m ∈ shown).
Proof.
  intros Hrole shown.
  assert (∀ l, filteredVisibleMatches roundFilter l `sublist_of` l) as Hsub.
  { intros l. unfold filteredVisibleMatches.
    destruct (String.eqb _ _); [done|].
    destruct (Number _);
      [done|apply List_filter_sublist|apply sublist_nil_l..]. }
  assert (∀ m, m ∈ visibleMatches role myTeamId matches
            ↔ m ∈ matches ∧ truthy myTeamId = true
              ∧ (m_home_team_id m = myTeamId ∨ m_away_team_id m = myTeamId))
    as Hvis.
  { intros m. unfold visibleMatches. rewrite Hrole.
    destruct (truthy myTeamId); cbn [negb].
    - rewrite elem_of_List_filter. unfold involves_team.
      rewrite orb_true_iff, !bool_decide_eq_true. tauto.
    - rewrite elem_of_nil. split; [done|]. by intros (_ & ? & _). }
  split_and!.
  - etrans; [apply Hsub|]. unfold visibleMatches. rewrite Hrole.
    destruct (negb _); [apply sublist_nil_l|apply List_filter_sublist].
  - intros m Hm. eapply elem_of_sublist in Hm; [|apply Hsub].
    apply Hvis in Hm. tauto.
  - intros Hno. unfold shown, visibleMatches. rewrite Hrole, Hno. cbn [negb].
    unfold filteredVisibleMatches. repeat case_match; done.
  - intros -> Hteam m Hm Hinv. unfold shown, filteredVisibleMatches.
    cbn [String.eqb Ascii.eqb Bool.eqb]. by apply Hvis.
Qed.

Lemma player_sees_own_matches_witness :
  Forall (λ m, m_home_team_id m = Some "C" ∨ m_away_team_id m = Some "C")
    (filteredVisibleMatches "1"
       (visibleMatches (Some "player") (Some "C") season)).
Proof.
  apply Forall_forall. intros m Hm.
  by apply (player_sees_own_matches (Some "player") (Some "C") "1" season
              eq_refl).
Defined.

End ViewsMore.

(** ** Further properties: from fixtures to matches, and the pool *)

Section FixturesMore.
Import JS Fixtures Dashboard Props Samples Views Admin PropsMore SamplesMore.

Lemma validate_nonempty cleaned d :
  validate cleaned = None → d ∈ cleaned →
  nonempty (home_team_id d) = true ∧ nonempty (away_team_id d) = true.
Proof.
  induction cleaned as [|c rest IH]; [by intros _ ?%elem_of_nil|].
  cbn [validate].
  destruct (nonempty (home_team_id c)) eqn:Hh; cbn [negb orb]; [|done].
  destruct (nonempty (away_team_id c)) eqn:Ha; cbn [negb orb]; [|done].
  destruct (String.eqb _ _); [done|].
  intros Hv [->|Hd]%elem_of_cons; [done|by apply IH].
Qed.

Lemma compare_fixtures_sorted l :
  StronglySorted (λ a b, f_round_number a ≤ f_round_number b)
    (sort compare_fixtures l).
Proof.
  apply sort_sorted.
  - intros a b c. lia.
  - intros a b. unfold compare_fixtures.
    destruct (Z.eqb_spec (f_round_number a) (f_round_number b));
      cbn [negb]; lia.
  - intros a b. unfold compare_fixtures.
    destruct (Z.eqb_spec (f_round_number a) (f_round_number b));
      cbn [negb]; lia.
Qed.

(** The fixtures that an accepted submission leaves for the tournament
    are read back in full and all of them can be played. *)
Lemma playable_after_save db tid drafts db' :
  saveRound1AndGenerateRound2 db tid drafts = (inr true, db') →
  playable (loadFixtures db' tid)
  = sort compare_fixtures
      (sort compare_fixtures
         (round1Rows tid (map clean drafts)
          ++ round2Rows tid (map clean drafts))).
Proof.
  intros Hsave. rewrite save_result_cases in Hsave.
  destruct (validate (map clean drafts)) eqn:Hv; [done|].
  destruct (decide (NoDup (used (map clean drafts)))); [|done].
  injection Hsave as <-.
  set (rows := round1Rows tid (map clean drafts)
               ++ round2Rows tid (map clean drafts)).
  assert (∀ f, f ∈ rows →
            f_tournament_id f = tid ∧ f_is_bye f = false
            ∧ truthy (f_home_team_id f) = true
            ∧ truthy (f_away_team_id f) = true) as Hrows.
  { intros f. unfold rows, round1Rows, round2Rows.
    rewrite elem_of_app, !list_elem_of_fmap.
    intros [(d & -> & Hd)|(d & -> & Hd)];
      destruct (validate_nonempty _ d Hv Hd) as [Hh Ha];
      cbn [f_tournament_id f_is_bye f_home_team_id f_away_team_id truthy];
      done. }
  unfold loadFixtures.
  assert (List.filter (λ f, String.eqb (f_tournament_id f) tid)
            (delete_tournament tid db ++ rows) = rows) as ->.
  { rewrite List.filter_app. rewrite filter_none, app_nil_l.
    - apply forallb_filter_id, forallb_forall.
      intros f (Hf & _)%list_elem_of_In%Hrows. by apply String.eqb_eq.
    - intros f [Hf _]%list_elem_of_filter. by apply String.eqb_neq. }
  unfold playable. f_equal.
  rewrite !forallb_filter_id; [done| |].
  - apply forallb_forall. intros f Hf%list_elem_of_In.
    rewrite sort_Permutation in Hf. by destruct (Hrows f Hf) as (_ & -> & _).
  - apply forallb_forall. intros f Hf%list_elem_of_In.
    rewrite forallb_filter_id in Hf.
    + rewrite sort_Permutation in Hf.
      destruct (Hrows f Hf) as (_ & _ & -> & ->). done.
    + apply forallb_forall. intros g Hg%list_elem_of_In.
      rewrite sort_Permutation in Hg.
      by destruct (Hrows g Hg) as (_ & -> & _).
Qed.

(** X25. Once a Round 1 has been accepted, generating the matches
    from the fixtures of the tournament gives one match per fixture, with
    the round and the two teams of the fixture: twice as many matches as
    drafts, none dropped, listed by increasing round. Nothing is inserted
    when the tournament already has matches. *)
Theorem matches_from_fixtures role tid drafts db db' count :
  isAdmin role = true → nonempty tid = true → drafts ≠ [] →
  saveRound1AndGenerateRound2 db tid drafts = (inr true, db') →
  let fixtures := round1Rows tid (map clean drafts)
                  ++ round2Rows tid (map clean drafts) in
  let result := generateMatchesFromFixtures role (Some tid) count db' in
  (0 < count → result = (Some msg_matches_exist, []))
  ∧ (count ≤ 0 →
     result.1 = Some msg_matches_generated
     ∧ result.2 ≡ₚ map (match_of_fixture tid) fixtures
     ∧ length result.2 = (2 * length drafts)%nat
     ∧ StronglySorted (λ a b, s_round a ≤ s_round b) result.2).
Proof.
  intros Hadmin Htid Hdrafts Hsave fixtures result.
  unfold result, generateMatchesFromFixtures.
  rewrite Hadmin. cbn [negb truthy].
  unfold nonempty in Htid. rewrite Htid. cbn [negb].
  change (or_empty (Some tid)) with tid. cbv zeta.
  split.
  - intros Hc. by destruct (Z.ltb_spec 0 count); [|lia].
  - intros Hc. destruct (Z.ltb_spec 0 count); [lia|].
    rewrite (playable_after_save db tid drafts db' Hsave). fold fixtures.
    assert (length (sort compare_fixtures (sort compare_fixtures fixtures))
            = (2 * length drafts)%nat) as Hlen.
    { rewrite !(Permutation_length (sort_Permutation _ _)).
      unfold fixtures, round1Rows, round2Rows.
      rewrite length_app, !length_map. lia. }
    destruct (Nat.eqb_spec
                (length (sort compare_fixtures
                           (sort compare_fixtures fixtures))) 0) as [E|_].
    { rewrite Hlen in E. destruct drafts; [done|]. cbn [length] in E. lia. }
    cbn [fst snd]. split_and!.
    + done.
    + by rewrite !sort_Permutation.
    + by rewrite length_map.
    + apply (StronglySorted_fmap _ (λ a b, f_round_number a ≤ f_round_number b));
        [done|]. apply compare_fixtures_sorted.
Qed.

Lemma matches_from_fixtures_witness :
  length (generateMatchesFromFixtures (Some "admin") (Some "T") 0
            (saveRound1AndGenerateRound2 [stored_row] "T"
               [draft_AB; draft_CD]).2).2
  = 4%nat.
Proof.
  assert ([draft_AB; draft_CD] ≠ []) as Hdrafts by done.
  destruct (matches_from_fixtures (Some "admin") "T" [draft_AB; draft_CD]
              [stored_row]
              (saveRound1AndGenerateRound2 [stored_row] "T"
                 [draft_AB; draft_CD]).2 0 eq_refl eq_refl Hdrafts eq_refl)
    as [_ Hgen].
  destruct Hgen as (_ & _ & Hlen & _); [lia|]. exact Hlen.
Defined.

End FixturesMore.

Section PoolMore.
Import JS Fixtures Dashboard Props Samples Views Admin PropsMore SamplesMore.

Lemma List_filter_comm {A} (p q : A → bool) l :
  List.filter p (List.filter q l) = List.filter q (List.filter p l).
Proof.
  induction l as [|x l IH]; [done|]. cbn [List.filter].
  destruct (p x) eqn:Hp, (q x) eqn:Hq; cbn [List.filter];
    rewrite ?Hp, ?Hq, IH; done.
Qed.

Lemma existsb_team_false (view : list TournamentTeamRow) t :
  existsb (λ x, String.eqb (tt_team_id x) t) view = false →
  t ∉ map tt_team_id view.
Proof.
  intros Hex (x & -> & Hx)%list_elem_of_fmap.
  assert (existsb (λ y, String.eqb (tt_team_id y) (tt_team_id x)) view = true)
    as Htrue; [|congruence].
  apply existsb_exists. exists x. split; [by apply list_elem_of_In|].
  apply String.eqb_refl.
Qed.

Lemma pool_step_ok role active p a :
  truthy active = true →
  pool_ok (or_empty active) p → pool_ok (or_empty active) (pool_step role active p a).
Proof.
  intros Hactive (Hview & Hnd & Hne).
  destruct a as [teamId|newId|rowId]; cbn [pool_step].
  - done.
  - unfold addTeamToTournament.
    destruct (isAdmin role); cbn [negb]; [|done].
    rewrite Hactive. cbn [negb].
    destruct (nonempty (teamToAddId p)) eqn:Hteam; cbn [negb]; [|done].
    destruct (existsb _ _) eqn:Hex; [done|].
    unfold pool_ok, loadTournamentTeams. cbn [pool_view tournament_teams].
    rewrite List.filter_app, <- Hview. cbn [List.filter tt_tournament_id].
    rewrite String.eqb_refl. split_and!.
    + done.
    + rewrite map_app. cbn [map tt_team_id]. apply NoDup_app.
      split_and!; [done| |apply NoDup_singleton].
      intros t Ht Ht'%list_elem_of_singleton. subst t.
      by apply existsb_team_false in Hex.
    + apply Forall_app. split; [done|]. constructor; [|done].
      cbn [tt_team_id]. intros E. unfold nonempty in Hteam.
      by rewrite E in Hteam.
  - unfold removeTeamFromTournament.
    destruct (isAdmin role); cbn [negb]; [|done].
    rewrite Hactive. cbn [negb].
    unfold pool_ok, loadTournamentTeams. cbn [pool_view tournament_teams].
    rewrite List_filter_comm, <- Hview. split_and!.
    + done.
    + by apply filter_fmap_NoDup.
    + rewrite Forall_forall in Hne |- *.
      intros r [Hr _]%elem_of_List_filter. by apply Hne.
Qed.

(** X26. Whatever teams the administrator chooses, adds and removes,
    the pool shown for the active tournament stays the content of the
    table for that tournament, with no team twice and no team named by
    the empty string; a team that is added is in the pool afterwards, and
    adding it a second time changes nothing but the message. *)
Theorem pool_teams_stay_distinct role active p steps :
  truthy active = true → pool_ok (or_empty active) p →
  pool_ok (or_empty active) (foldl (pool_step role active) p steps)
  ∧ (∀ team newId newId',
       isAdmin role = true → team ≠ "" →
       let added := addTeamToTournament role active newId
                      (setTeamToAddId team p) in
       team ∈ map tt_team_id (pool_view added)
       ∧ pool_view (addTeamToTournament role active newId'
                      (setTeamToAddId team added))
         = pool_view added
       ∧ tournament_teams (addTeamToTournament role active newId'
                             (setTeamToAddId team added))
         = tournament_teams added).
Proof.
  intros Hactive Hok. split.
  - revert p Hok. induction steps as [|a steps IH]; intros p Hok; [done|].
    cbn [foldl]. by apply IH, pool_step_ok.
  - intros team newId newId' Hadmin Hteam added.
    assert (nonempty team = true) as Hne
      by (by apply negb_true_iff, String.eqb_neq).
    assert (team ∈ map tt_team_id (pool_view added)) as Hin.
    { unfold added, addTeamToTournament.
      rewrite Hadmin, Hactive. cbn [negb teamToAddId setTeamToAddId pool_view].
      rewrite Hne. cbn [negb].
      destruct (existsb _ (pool_view p)) eqn:Hex.
      - cbn [pool_view set_ttMsg setTeamToAddId].
        apply existsb_exists in Hex as (x & Hx%list_elem_of_In & E).
        apply String.eqb_eq in E. rewrite <- E.
        by apply list_elem_of_fmap_2.
      - unfold loadTournamentTeams. cbn [pool_view tournament_teams].
        rewrite List.filter_app, map_app. apply elem_of_app. right.
        cbn [List.filter tt_tournament_id]. rewrite String.eqb_refl.
        cbn [map tt_team_id]. left. }
    split; [done|].
    unfold addTeamToTournament at 1 2.
    rewrite Hadmin, Hactive. cbn [negb teamToAddId setTeamToAddId pool_view].
    rewrite Hne. cbn [negb].
    assert (existsb (λ x, String.eqb (tt_team_id x) team) (pool_view added)
            = true) as ->.
    { apply list_elem_of_fmap in Hin as (x & -> & Hx).
      apply existsb_exists. exists x.
      split; [by apply list_elem_of_In|apply String.eqb_refl]. }
    done.
Qed.

Lemma pool_teams_stay_distinct_witness :
  NoDup (map tt_team_id
           (pool_view
              (foldl (pool_step (Some "admin") (Some "T")) empty_pool
                 [ChooseTeam "A"; AddTeam "r1"; ChooseTeam "A";
                  AddTeam "r2"; ChooseTeam "B"; AddTeam "r3";
                  RemoveTeam "r1"]))).
Proof.
  destruct (pool_teams_stay_distinct (Some "admin") (Some "T") empty_pool
              [ChooseTeam "A"; AddTeam "r1"; ChooseTeam "A";
               AddTeam "r2"; ChooseTeam "B"; AddTeam "r3";
               RemoveTeam "r1"]) as [(_ & Hnd & _) _].
  - reflexivity.
  - split_and!; [reflexivity|constructor|constructor].
  - exact Hnd.
Defined.

End PoolMore.

Section ResetFixturesMore.
Import JS Fixtures Dashboard Props Samples Views Admin PropsMore SamplesMore.

Lemma delete_tournament_filter tid t db :
  List.filter (λ f, String.eqb (f_tournament_id f) t)
    (delete_tournament tid db)
  = if decide (t = tid) then []
    else List.filter (λ f, String.eqb (f_tournament_id f) t) db.
Proof.
  unfold delete_tournament. induction db as [|f db IH].
  { by destruct (decide _). }
  destruct (decide (f_tournament_id f = tid)) as [E|E].
  - rewrite filter_cons_False by (by intros ?). rewrite IH.
    destruct (decide (t = tid)) as [->|Hne]; [done|].
    cbn [List.filter].
    by rewrite (proj2 (String.eqb_neq _ _)) by congruence.
  - rewrite filter_cons_True by done. cbn [List.filter]. rewrite IH.
    destruct (decide (t = tid)) as [->|Hne]; [|done].
    by rewrite (proj2 (String.eqb_neq _ _)) by done.
Qed.

Lemma delete_tournament_idemp tid db :
  delete_tournament tid (delete_tournament tid db) = delete_tournament tid db.
Proof.
  unfold delete_tournament. induction db as [|f db IH]; [done|].
  destruct (decide (f_tournament_id f = tid)) as [E|E].
  - by rewrite filter_cons_False by (by intros ?).
  - rewrite filter_cons_True by done.
    rewrite filter_cons_True by done. by rewrite IH.
Qed.

(** X27. Resetting the fixtures removes those of the active
    tournament and no others; match generation then reports that there
    are no fixtures and inserts nothing; resetting twice is resetting
    once; and a Round 1 saved after a reset leaves the table that the
    same save leaves without the reset. *)
Theorem reset_fixtures role active db drafts count :
  isAdmin role = true → truthy active = true →
  let tid := or_empty active in
  let db' := resetFixtures role active db in
  loadFixtures db' tid = []
  ∧ (∀ t, t ≠ tid → loadFixtures db' t = loadFixtures db t)
  ∧ (count ≤ 0 →
     generateMatchesFromFixtures role active count db'
     = (Some msg_no_fixtures, []))
  ∧ resetFixtures role active db' = db'
  ∧ (∀ saved,
       saveRound1AndGenerateRound2 db tid drafts = (inr true, saved) →
       saveRound1AndGenerateRound2 db' tid drafts = (inr true, saved)).
Proof.
  intros Hadmin Hactive tid db'.
  assert (db' = delete_tournament tid db) as Hdb.
  { unfold db', resetFixtures. by rewrite Hadmin, Hactive. }
  assert (loadFixtures db' tid = []) as Hload.
  { unfold loadFixtures. rewrite Hdb, delete_tournament_filter.
    by rewrite decide_True. }
  split_and!.
  - done.
  - intros t Ht. unfold loadFixtures.
    by rewrite Hdb, delete_tournament_filter, decide_False.
  - intros Hc. unfold generateMatchesFromFixtures.
    rewrite Hadmin, Hactive. cbn [negb].
    destruct (Z.ltb_spec 0 count); [lia|]. cbv zeta. fold tid.
    by rewrite Hload.
  - unfold resetFixtures. rewrite Hadmin, Hactive. cbn [negb]. fold tid.
    by rewrite Hdb, delete_tournament_idemp.
  - intros saved. rewrite !save_result_cases. cbv zeta.
    destruct (validate (map clean drafts)); [done|].
    destruct (decide (NoDup (used (map clean drafts)))); [|done].
    intros [= <-]. by rewrite Hdb, delete_tournament_idemp.
Qed.

Lemma reset_fixtures_witness :
  loadFixtures (resetFixtures (Some "admin") (Some "T") [stored_row]) "T" = []
  ∧ generateMatchesFromFixtures (Some "admin") (Some "T") 0
      (resetFixtures (Some "admin") (Some "T") [stored_row])
    = (Some msg_no_fixtures, []).
Proof.
  destruct (reset_fixtures (Some "admin") (Some "T") [stored_row] [] 0
              eq_refl eq_refl) as (Hload & _ & Hgen & _).
  split; [exact Hload|]. apply Hgen. lia.
Defined.

End ResetFixturesMore.

Section CardMore.
Import JS Fixtures Dashboard Props Samples Views Admin ScheduleCard PropsMore
  SamplesMore.

Lemma List_filter_Permutation {A} (p : A → bool) l l' :
  l ≡ₚ l' → List.filter p l ≡ₚ List.filter p l'.
Proof.
  induction 1 as [|x l l' _ IH|x y l|l1 l2 l3 _ IH1 _ IH2];
    cbn [List.filter].
  - done.
  - destruct (p x); by rewrite IH.
  - destruct (p x), (p y); try done. apply perm_swap.
  - by etrans.
Qed.

Lemma sorted_key_strict {A} (key : A → Z) l :
  StronglySorted (λ a b, key a ≤ key b) l → NoDup (map key l) →
  StronglySorted (λ a b, key a < key b) l.
Proof.
  induction 1 as [|x l Hl IH Hx]; [constructor|]. cbn [map].
  intros [Hnx Hnd]%NoDup_cons. constructor; [by apply IH|].
  rewrite Forall_forall in Hx |- *. intros y Hy.
  specialize (Hx y Hy).
  assert (key x ≠ key y).
  { intros E. apply Hnx. rewrite E. by apply list_elem_of_fmap_2. }
  lia.
Qed.

Lemma round_view_sorted round fixtures :
  StronglySorted (λ a b, f_match_number a ≤ f_match_number b)
    (round_view round fixtures).
Proof.
  unfold round_view. apply sort_sorted; [intros a b c; lia|intros a b; lia..].
Qed.

Lemma loadFixtures_replaced db tid rows :
  Forall (λ f, f_tournament_id f = tid) rows →
  loadFixtures (delete_tournament tid db ++ rows) tid
  = sort compare_fixtures rows.
Proof.
  intros Hrows. unfold loadFixtures. f_equal.
  rewrite List.filter_app, delete_tournament_filter, decide_True by done.
  apply forallb_filter_id, forallb_forall.
  rewrite Forall_forall in Hrows.
  intros f Hf%list_elem_of_In%Hrows. by apply String.eqb_eq.
Qed.

Lemma round_view_rows tid cleaned :
  round_view 1 (sort compare_fixtures
                  (round1Rows tid cleaned ++ round2Rows tid cleaned))
  ≡ₚ round1Rows tid cleaned
  ∧ round_view 2 (sort compare_fixtures
                    (round1Rows tid cleaned ++ round2Rows tid cleaned))
    ≡ₚ round2Rows tid cleaned.
Proof.
  unfold round_view, round1Rows, round2Rows. split.
  - rewrite sort_Permutation.
    rewrite (List_filter_Permutation _ _ _ (sort_Permutation _ _)).
    rewrite List.filter_app.
    rewrite forallb_filter_id, filter_none; [by rewrite app_nil_r| |].
    + by intros f (d & -> & _)%list_elem_of_fmap.
    + apply forallb_forall. by intros f (d & <- & _)%in_map_iff.
  - rewrite sort_Permutation.
    rewrite (List_filter_Permutation _ _ _ (sort_Permutation _ _)).
    rewrite List.filter_app.
    rewrite filter_none, forallb_filter_id; [done| |].
    + apply forallb_forall. by intros f (d & <- & _)%in_map_iff.
    + by intros f (d & -> & _)%list_elem_of_fmap.
Qed.

(** X28. After a successful save from the form the card shows both
    rounds in increasing match number, one row per complete draft, and
    the two lists line up: each row of round 2 is the row of round 1 at
    the same place with home and away exchanged. *)
Theorem card_rounds_line_up n drafts role tid err db db' :
  isAdmin role = true → truthy tid = true →
  form_drafts n drafts →
  handleSaveScheduleRound1 role tid drafts err db = (None, db') →
  let fixtures := loadFixtures db' (or_empty tid) in
  let kept := List.filter complete (map fill_blank drafts) in
  round_view 2 fixtures = map return_row (round_view 1 fixtures)
  ∧ StronglySorted Z.lt (map f_match_number (round_view 1 fixtures))
  ∧ round_view 1 fixtures ≡ₚ round1Rows (or_empty tid) (map clean kept)
  ∧ length (round_view 1 fixtures) = length kept.
Proof.
  intros Hadmin Hactive Hform Hsave fixtures kept.
  destruct (handle_save_fixtures role tid drafts err db db'
              Hadmin Hactive Hsave) as [_ Hdb].
  fold kept in Hdb.
  set (t := or_empty tid) in *. set (cleaned := map clean kept) in *.
  assert (fixtures = sort compare_fixtures
                       (round1Rows t cleaned ++ round2Rows t cleaned))
    as Hfix.
  { unfold fixtures. rewrite Hdb. apply loadFixtures_replaced.
    apply Forall_app. split; apply Forall_fmap, Forall_true; done. }
  destruct (round_view_rows t cleaned) as [H1 H2]. rewrite <- Hfix in H1, H2.
  assert (NoDup (map match_number cleaned)) as Hnd.
  { eapply sublist_NoDup; [|apply kept_match_numbers].
    rewrite (form_match_numbers n drafts Hform). apply numbering_NoDup. }
  assert (map f_match_number (round1Rows t cleaned) = map match_number cleaned)
    as Hn1 by (unfold round1Rows; by rewrite map_map).
  assert (map f_match_number (round2Rows t cleaned) = map match_number cleaned)
    as Hn2 by (unfold round2Rows; by rewrite map_map).
  assert (StronglySorted (λ a b, f_match_number a < f_match_number b)
            (round_view 1 fixtures)) as Hs1.
  { apply sorted_key_strict; [apply round_view_sorted|].
    by rewrite H1, Hn1. }
  assert (StronglySorted (λ a b, f_match_number a < f_match_number b)
            (round_view 2 fixtures)) as Hs2.
  { apply sorted_key_strict; [apply round_view_sorted|].
    by rewrite H2, Hn2. }
  assert (map return_row (round1Rows t cleaned) = round2Rows t cleaned)
    as Hret by (unfold round1Rows, round2Rows; by rewrite map_map).
  split_and!.
  - assert (AntiSymm (=) (λ a b : FixtureRow,
                            f_match_number a < f_match_number b))
      by (intros a b ? ?; lia).
    apply (StronglySorted_unique
             (λ a b, f_match_number a < f_match_number b)); [done| |].
    + by apply (StronglySorted_fmap _ (λ a b, f_match_number a
                                               < f_match_number b)).
    + rewrite H2, <- Hret. by apply fmap_Permutation.
  - by apply (StronglySorted_fmap _ (λ a b, f_match_number a
                                             < f_match_number b)).
  - done.
  - rewrite H1. unfold round1Rows, cleaned. by rewrite !length_map.
Qed.

Lemma card_rounds_line_up_witness :
  round_view 2
    (loadFixtures
       (handleSaveScheduleRound1 (Some "admin") (Some "T") form_ABCD None
          [stored_row]).2 "T")
  = map return_row
      (round_view 1
         (loadFixtures
            (handleSaveScheduleRound1 (Some "admin") (Some "T") form_ABCD None
               [stored_row]).2 "T")).
Proof.
  assert (form_drafts 4 form_ABCD) as Hform by (repeat constructor).
  by destruct (card_rounds_line_up 4 form_ABCD (Some "admin") (Some "T") None
                 [stored_row]
                 (handleSaveScheduleRound1 (Some "admin") (Some "T") form_ABCD
                    None [stored_row]).2 eq_refl eq_refl Hform eq_refl)
    as [Hline _].
Defined.

End CardMore.

(** ** Further properties: the round filter *)

Section NumberMore.
Import JS Dashboard Props Samples Views Admin PropsMore SamplesMore.

Lemma digits_app acc l1 l2 :
  digits acc (l1 ++ l2)
  = match digits acc l1 with Some v => digits v l2 | None => None end.
Proof.
  revert acc. induction l1 as [|c l1 IH]; intros acc; cbn [app digits];
    [done|].
  destruct (digit_of c); [apply IH|done].
Qed.

(** A decimal digit is a character of one byte that is no white space,
    no sign, no mark of a base and not the first letter of [Infinity]. *)
Lemma digit_char c :
  is_Some (digit_of c) →
  (N_of_ascii c < 128)%N ∧ is_ws c = false
  ∧ Ascii.eqb c "-" = false ∧ Ascii.eqb c "+" = false
  ∧ Ascii.eqb c "x" || Ascii.eqb c "X" = false
  ∧ Ascii.eqb c "o" || Ascii.eqb c "O" = false
  ∧ Ascii.eqb c "b" || Ascii.eqb c "B" = false
  ∧ Ascii.eqb c "I" = false.
Proof.
  intros [d Hd].
  destruct c as [b0 b1 b2 b3 b4 b5 b6 b7].
  destruct b0, b1, b2, b3, b4, b5, b6, b7; vm_compute in Hd;
    try discriminate Hd; by vm_compute.
Qed.

Lemma pretty_N_char_digit x :
  (x < 10)%N → digit_of (pretty_N_char x) = Some (Z.of_N x).
Proof.
  intros Hx.
  assert (x = 0 ∨ x = 1 ∨ x = 2 ∨ x = 3 ∨ x = 4 ∨ x = 5 ∨ x = 6 ∨ x = 7
          ∨ x = 8 ∨ x = 9)%N as Hcases by lia.
  repeat (destruct Hcases as [->|Hcases]; [by vm_compute|]).
  subst. by vm_compute.
Qed.

(** The decimal digits that [pretty] writes for [x]. *)
Lemma pretty_N_go_digits x :
  ∃ ds,
    (∀ s, String.list_ascii_of_string (pretty_N_go x s)
          = ds ++ String.list_ascii_of_string s)
    ∧ (∀ acc, digits acc ds
              = Some (acc * 10 ^ Z.of_nat (length ds) + Z.of_N x))
    ∧ Forall (λ c, is_Some (digit_of c)) ds
    ∧ ((0 < x)%N → ds ≠ []).
Proof.
  induction (N.lt_wf_0 x) as [x _ IH].
  destruct (decide (x = 0)%N) as [->|Hx].
  { exists []. split_and!; [done| |done|lia].
    intros acc. cbn [digits length]. f_equal. lia. }
  destruct (IH (x `div` 10)%N) as (ds & Hchars & Hval & Hall & _).
  { apply N.div_lt; lia. }
  pose proof (pretty_N_char_digit (x `mod` 10)%N) as Hd.
  specialize (Hd ltac:(apply N.mod_lt; lia)).
  exists (ds ++ [pretty_N_char (x `mod` 10)]). split_and!.
  - intros s. rewrite pretty_N_go_step by lia. rewrite Hchars.
    cbn [String.list_ascii_of_string]. by rewrite <- app_assoc.
  - intros acc. rewrite digits_app, Hval. cbn [digits]. rewrite Hd.
    f_equal. rewrite length_app. cbn [length].
    rewrite Nat2Z.inj_add, Z.pow_add_r by lia.
    rewrite N2Z.inj_div.
    pose proof (Z.div_mod (Z.of_N x) 10 ltac:(lia)) as Hdm.
    rewrite N2Z.inj_mod. change (Z.of_N 10) with 10.
    change (10 ^ Z.of_nat 1) with 10. lia.
  - apply Forall_app. split; [done|]. repeat constructor. by eexists.
  - intros _. by destruct ds.
Qed.

(** A character of one byte that is no white space stops [trim], at
    the front and at the end. *)
Lemma drop_ws_head c l :
  (N_of_ascii c < 128)%N → is_ws c = false → drop_ws (c :: l) = c :: l.
Proof.
  intros Hc Hw. cbn [drop_ws]. rewrite Hw.
  destruct l as [|b [|c' l]]; [done| |].
  - unfold is_ws2. by rewrite (proj2 (N.eqb_neq _ _)) by lia.
  - unfold is_ws2, is_ws3. cbv zeta.
    by rewrite !(proj2 (N.eqb_neq (N_of_ascii c) _)) by lia.
Qed.

Lemma drop_ws_end_head c r :
  (N_of_ascii c < 128)%N → is_ws c = false →
  drop_ws_end (c :: r) = c :: r.
Proof.
  intros Hc Hw. cbn [drop_ws_end]. rewrite Hw.
  destruct r as [|b [|a r]]; [done| |].
  - unfold is_ws2. rewrite (proj2 (N.eqb_neq (N_of_ascii c) _)) by lia.
    by rewrite andb_false_r.
  - unfold is_ws2, is_ws3. cbv zeta.
    rewrite !(proj2 (N.eqb_neq (N_of_ascii c) _)) by lia.
    rewrite (proj2 (N.leb_gt _ (N_of_ascii c))) by lia.
    by rewrite ?andb_false_r, ?orb_false_r.
Qed.

Lemma trim_solid l :
  l ≠ [] →
  (∀ c, head l = Some c → (N_of_ascii c < 128)%N ∧ is_ws c = false) →
  (∀ c, last l = Some c → (N_of_ascii c < 128)%N ∧ is_ws c = false) →
  trim (String.string_of_list_ascii l) = String.string_of_list_ascii l.
Proof.
  intros Hne Hhead Hlast. unfold trim.
  rewrite String.list_ascii_of_string_of_list_ascii.
  destruct l as [|c l]; [done|].
  rewrite drop_ws_head by (by apply Hhead).
  destruct (rev (c :: l)) as [|c' l'] eqn:Hrev.
  { apply (f_equal length) in Hrev. rewrite length_rev in Hrev. done. }
  rewrite drop_ws_end_head.
  - by rewrite <- Hrev, rev_involutive.
  - apply Hlast. rewrite <- (rev_involutive (c :: l)), Hrev.
    cbn [rev]. by rewrite last_snoc.
  - apply Hlast. rewrite <- (rev_involutive (c :: l)), Hrev.
    cbn [rev]. by rewrite last_snoc.
Qed.

Lemma read_digits_all l : ∀ acc n v,
  digits acc l = Some v →
  read_digits acc n l = (v, (n + length l)%nat, []).
Proof.
  induction l as [|c l IH]; intros acc n v Hv; cbn [digits read_digits] in *.
  - injection Hv as ->. by rewrite Nat.add_0_r.
  - destruct (digit_of c); [|done].
    rewrite (IH _ _ _ Hv). cbn [length]. do 2 f_equal. lia.
Qed.

(** A string of decimal digits is no literal of another base. *)
Lemma non_decimal_digits ds :
  Forall (λ c, is_Some (digit_of c)) ds → non_decimal ds = None.
Proof.
  intros Hall. destruct ds as [|z [|p [|d l]]]; try done.
  apply Forall_cons in Hall as [_ [Hp _]%Forall_cons].
  destruct (digit_char p Hp) as (_ & _ & _ & _ & Hx & Ho & Hb & _).
  unfold non_decimal. rewrite Hx, Ho, Hb. by destruct (Ascii.eqb z "0").
Qed.

(** The unsigned decimal literal that is a string of digits. *)
Lemma unsigned_decimal_digits ds v :
  ds ≠ [] → digits 0 ds = Some v → unsigned_decimal ds = Some (v, 0).
Proof.
  intros Hne Hv. unfold unsigned_decimal.
  rewrite (read_digits_all ds 0 0%nat v Hv).
  destruct ds; [done|]. done.
Qed.

Lemma not_Infinity c l :
  Ascii.eqb c "I" = false →
  String.eqb (String.string_of_list_ascii (c :: l)) "Infinity" = false.
Proof.
  intros H. cbn [String.string_of_list_ascii].
  change "Infinity" with (String "I" "nfinity").
  cbn [String.eqb]. by rewrite H.
Qed.

(** [Number(String(z)) === z] for every integer [z]. *)
Lemma Number_String_of z : Number (String_of z) = Num z.
Proof.
  unfold String_of, pretty, pretty_Z.
  destruct z as [|p|p]; [by vm_compute| |].
  - unfold pretty, pretty_positive, pretty, pretty_N.
    rewrite decide_False by done.
    destruct (pretty_N_go_digits (N.pos p)) as (ds & Hchars & Hval & Hall & Hne).
    specialize (Hchars ""). cbn [String.list_ascii_of_string] in Hchars.
    rewrite app_nil_r in Hchars.
    assert (pretty_N_go (N.pos p) "" = String.string_of_list_ascii ds) as ->
      by (by rewrite <- Hchars, String.string_of_list_ascii_of_string).
    assert (ds ≠ []) as Hds by (apply Hne; lia).
    pose proof (non_decimal_digits ds Hall) as Hnon.
    pose proof (unsigned_decimal_digits ds _ Hds (Hval 0)) as Hdec.
    rewrite Forall_forall in Hall.
    unfold Number. rewrite trim_solid; [|done|..].
    + rewrite String.list_ascii_of_string_of_list_ascii.
      destruct ds as [|c l] eqn:E; [done|].
      rewrite Hnon. unfold decimal_literal.
      destruct (digit_char c) as (_ & _ & -> & -> & _ & _ & _ & HI);
        [apply Hall; left|].
      rewrite (not_Infinity _ _ HI), Hdec. unfold of_decimal.
      change (0 <=? 0) with true. cbv iota. f_equal. lia.
    + intros c Hc. destruct (digit_char c) as (? & ? & _); [|done].
      apply Hall. destruct ds; [done|]. injection Hc as ->. left.
    + intros c Hc. destruct (digit_char c) as (? & ? & _); [|done].
      apply Hall. by apply last_Some_elem_of.
  - unfold pretty, pretty_positive, pretty, pretty_N.
    rewrite decide_False by done.
    destruct (pretty_N_go_digits (N.pos p)) as (ds & Hchars & Hval & Hall & Hne).
    specialize (Hchars ""). cbn [String.list_ascii_of_string] in Hchars.
    rewrite app_nil_r in Hchars.
    assert (pretty_N_go (N.pos p) "" = String.string_of_list_ascii ds) as ->
      by (by rewrite <- Hchars, String.string_of_list_ascii_of_string).
    assert (ds ≠ []) as Hds by (apply Hne; lia).
    pose proof (unsigned_decimal_digits ds _ Hds (Hval 0)) as Hdec.
    rewrite Forall_forall in Hall.
    change ("-" +:+ String.string_of_list_ascii ds)
      with (String.string_of_list_ascii ("-"%char :: ds)).
    unfold Number. rewrite trim_solid; [|done|..].
    + rewrite String.list_ascii_of_string_of_list_ascii.
      assert (non_decimal ("-"%char :: ds) = None) as ->
        by (by destruct ds as [|? [|? ?]]).
      unfold decimal_literal. change (Ascii.eqb "-" "-") with true.
      cbv iota. destruct ds as [|c l] eqn:E; [done|].
      destruct (digit_char c) as (_ & _ & _ & _ & _ & _ & _ & HI);
        [apply Hall; left|].
      rewrite (not_Infinity _ _ HI), Hdec. unfold of_decimal.
      change (0 <=? 0) with true. cbv iota. f_equal. lia.
    + intros c [= <-]. by vm_compute.
    + intros c Hc. destruct (digit_char c) as (? & ? & _); [|done].
      apply Hall. destruct ds as [|d ds']; [done|].
      change (last (d :: ds') = Some c) in Hc. by apply last_Some_elem_of.
Qed.

(** X29. Every option of the round filter carries the value
    [String(r)], and choosing it keeps exactly the matches whose round,
    read as -1 when missing, is [r]: for a round number taken from the
    options these are the matches of round [r], and there is at least one
    in the list the options were built from. *)
Theorem round_filter_option matches r :
  (∀ shown, filteredVisibleMatches (String_of r) shown
            = List.filter (in_round r) shown)
  ∧ (r ∈ roundOptions matches → r ≠ -1 →
     filteredVisibleMatches (String_of r) matches ≠ []
     ∧ ∀ m, m ∈ filteredVisibleMatches (String_of r) matches
            ↔ m ∈ matches ∧ m_round m = Some r).
Proof.
  assert (∀ shown, filteredVisibleMatches (String_of r) shown
                   = List.filter (in_round r) shown) as Hfilter.
  { intros shown. unfold filteredVisibleMatches.
    rewrite Number_String_of.
    destruct (String.eqb_spec (String_of r) "all") as [E|_]; [|done].
    pose proof (Number_String_of r) as Hn. rewrite E in Hn.
    by vm_compute in Hn. }
  split; [done|]. intros Hr Hneg.
  assert (∀ m, m ∈ filteredVisibleMatches (String_of r) matches
               ↔ m ∈ matches ∧ m_round m = Some r) as Hel.
  { intros m. rewrite Hfilter, elem_of_List_filter. unfold in_round.
    destruct (m_round m) as [z|]; cbn [default from_option id].
    - rewrite Z.eqb_eq. split; intros [? ?]; split; congruence.
    - split; [intros [_ ?%Z.eqb_eq]; lia|by intros [_ ?]]. }
  split; [|done].
  apply round_options_elem in Hr as (_ & m & Hm & Hround).
  intros Hnil. assert (m ∈ filteredVisibleMatches (String_of r) matches) as Hin
    by (by apply Hel).
  rewrite Hnil in Hin. by apply elem_of_nil in Hin.
Qed.

Lemma round_filter_option_witness :
  filteredVisibleMatches (String_of 2) rounds_2120 ≠ [].
Proof.
  destruct (round_filter_option rounds_2120 2) as [_ Hopt].
  apply Hopt; [|done]. apply (bool_decide_unpack _). by vm_compute.
Defined.

End NumberMore.
